(** * p-retry-ts: the retry decision engine of [src/index.ts]

    A shallow embedding of [pRetry], [decorateErrorWithCounts], the
    [AbortError] and [FailedAttemptError] classes and of [isNetworkError],
    together with the properties of a retry session that follow from the
    code.

    A session is asynchronous: the operation, [shouldRetry] and
    [onFailedAttempt] are awaited, and the next attempt is started by a
    timer of the scheduler.  The embedding threads the state of a session
    (scheduler, returned promise, abort listener, signal, trace of what was
    called) through a small state-and-exception monad, and the environment
    says, for every point where the session is suspended, whether the
    signal's controller aborts there.

    What the embedding takes for granted: the operation and the two
    callbacks settle (each is a function from its argument to what
    awaiting the call gives, a value or a thrown value); [retries] is an
    integer; the options that [index.ts] only passes on to the scheduler
    keep their defaults; and time is left out, a timer either fires or is
    cleared before it does. *)

From Stdlib Require Import ZArith List String Ascii Bool Lia.
Import ListNotations.

Local Open Scope string_scope.
Local Open Scope list_scope.
Local Open Scope Z_scope.

(** ** Values that are thrown and rejected *)

(** What a session can see thrown by the user's code or hand to [reject].
    A value that is not an [Error] object is represented by what its
    interpolation in a template literal gives: a text ([rendering]), or,
    for a value the engine cannot convert to a string (a Symbol, an object
    without a prototype) or whose own conversion throws, the value that
    the interpolation throws ([Unrenderable thrown]).  Such a value has no
    [message] property.  [isTypeError] is [instanceof TypeError]; [name],
    [message] and [stack] are the properties of that name, [stack = None]
    standing for [undefined]. *)
Inductive JsValue : Type :=
| NonError (rendering : string)
| ErrorObj (isTypeError : bool) (name message : string) (stack : option string)
| AbortErrorObj (originalError : JsValue) (message : string)
| FailedAttemptErrorObj (cause : JsValue) (attemptNumber retriesLeft : Z)
| Unrenderable (thrown : JsValue).

(** [error instanceof Error] *)
Definition instanceofError (error : JsValue) : bool :=
  match error with
  | NonError _ => false
  | Unrenderable _ => false
  | _ => true
  end.

(** [error instanceof AbortError] *)
Definition instanceofAbortError (error : JsValue) : bool :=
  match error with
  | AbortErrorObj _ _ => true
  | _ => false
  end.

(** [error instanceof TypeError] *)
Definition instanceofTypeError (error : JsValue) : bool :=
  match error with
  | ErrorObj isTypeError _ _ _ => isTypeError
  | _ => false
  end.

(** [error.message]; a [FailedAttemptError] is built by
    [super(cause?.message)], and a missing message reads as the empty
    string of [Error.prototype]. *)
Fixpoint message_of (error : JsValue) : string :=
  match error with
  | NonError _ => ""
  | ErrorObj _ _ message _ => message
  | AbortErrorObj _ message => message
  | FailedAttemptErrorObj cause _ _ => message_of cause
  | Unrenderable _ => ""
  end.

(** [error.name] *)
Definition name_of (error : JsValue) : string :=
  match error with
  | NonError _ => ""
  | ErrorObj _ name _ _ => name
  | AbortErrorObj _ _ => "AbortError"
  | FailedAttemptErrorObj _ _ _ => "Error"
  | Unrenderable _ => ""
  end.

(** [error.stack] of an error built by [new] where the engine captures a
    stack trace; the text of the trace plays no part. *)
Definition capturedStack : option string := Some "<stack trace>".

Definition stack_of (error : JsValue) : option string :=
  match error with
  | NonError _ => None
  | Unrenderable _ => None
  | ErrorObj _ _ _ stack => stack
  | _ => capturedStack
  end.

(** [new Error(message)] and [new TypeError(message)] *)
Definition newError (message : string) : JsValue :=
  ErrorObj false "Error" message capturedStack.

Definition newTypeError (message : string) : JsValue :=
  ErrorObj true "TypeError" message capturedStack.

(** [new AbortError(message)], [message: string | Error] *)
Definition AbortError (message : string + JsValue) : JsValue :=
  match message with
  | inr error => AbortErrorObj error (message_of error)
  | inl text => AbortErrorObj (newError text) text
  end.

(** The record handed to [shouldRetry] and [onFailedAttempt]. *)
Record FailedAttemptError : Type := mkFailedAttemptError {
  cause : JsValue;
  attemptNumber : Z;
  retriesLeft : Z
}.

Definition asValue (fae : FailedAttemptError) : JsValue :=
  FailedAttemptErrorObj (cause fae) (attemptNumber fae) (retriesLeft fae).

(** ** isNetworkError *)

Definition errorMessages : list string :=
  [ "Failed to fetch";
    "NetworkError when attempting to fetch resource.";
    "The Internet connection appears to be offline.";
    "Load failed";
    "Network request failed";
    "fetch failed" ].

(** [errorMessages.has(m)] *)
Definition errorMessages_has (m : string) : bool :=
  existsb (String.eqb m) errorMessages.

(** [Object.prototype.toString.call(value) === "[object Error]"]: every
    [Error] object and no other value of the model. *)
Definition isError (value : JsValue) : bool := instanceofError value.

(** [typeof error.message === "string"] holds of every [Error] object of
    the model, so [isValid] is left with the two tests below. *)
Definition isNetworkError (error : JsValue) : bool :=
  let isValid := isError error && String.eqb (name_of error) "TypeError" in
  if negb isValid then false
  else if String.eqb (message_of error) "Load failed"
       then match stack_of error with None => true | Some _ => false end
       else errorMessages_has (message_of error).

(** ** Options *)

(** What awaiting a call of the user's code gives. *)
Inductive Outcome (A : Type) : Type :=
| Returns (a : A)
| Throws (thrown : JsValue).
Arguments Returns {A} a.
Arguments Throws {A} thrown.

(** A key of the options object: missing, there with the value
    [undefined], or there with a value. *)
Inductive Property (A : Type) : Type :=
| Absent
| Undefined
| Present (a : A).
Arguments Absent {A}.
Arguments Undefined {A}.
Arguments Present {A} a.

Record AbortSignal : Type := mkAbortSignal {
  aborted : bool;
  reason : JsValue
}.

Record Options : Type := mkOptions {
  onFailedAttempt : Property (FailedAttemptError -> Outcome unit);
  shouldRetry : Property (FailedAttemptError -> Outcome bool);
  signal : Property AbortSignal;
  retries : Property Z
}.

(** [pRetry(input)] without options. *)
Definition noOptions : Options :=
  {| onFailedAttempt := Absent; shouldRetry := Absent;
     signal := Absent; retries := Absent |}.

(** The options after the defaults are merged in; [None] reads
    [undefined]. *)
Record Merged : Type := mkMerged {
  m_onFailedAttempt : option (FailedAttemptError -> Outcome unit);
  m_shouldRetry : option (FailedAttemptError -> Outcome bool);
  m_signal : option AbortSignal;
  m_retries : option Z
}.

(** One key of [{default, ...options}]. *)
Definition spread {A : Type} (default : option A) (p : Property A) : option A :=
  match p with
  | Absent => default
  | Undefined => None
  | Present a => Some a
  end.

Definition defaultedOptions (options : Options) : Merged :=
  {| m_onFailedAttempt := spread (Some (fun _ => Returns tt)) (onFailedAttempt options);
     m_retries := spread (Some 10) (retries options);
     m_shouldRetry := spread (Some (fun _ => Returns true)) (shouldRetry options);
     m_signal := spread None (signal options) |}.

(** [options.retries || 0] *)
Definition retriesOrZero (options : Merged) : Z :=
  match m_retries options with
  | Some r => if r =? 0 then 0 else r
  | None => 0
  end.

Definition decorateErrorWithCounts
    (error : JsValue) (attemptNumber : Z) (options : Merged) : FailedAttemptError :=
  let retriesLeft := retriesOrZero options - (attemptNumber - 1) in
  {| cause := error; attemptNumber := attemptNumber; retriesLeft := retriesLeft |}.

(** ** The scheduler *)

(** Modelled from the spec: the external scheduler, [retry.operation] of
    the package [retry], which [index.ts] imports and this repository does
    not contain.  It gives [attempt], [retry], [stop] and [mainError]:
    [retry] records the error and permits another attempt while the budget
    (one timeout per retry) is not used up and no stop was requested, and
    then arms the timer that starts the next attempt; [stop] drops the
    remaining budget and the armed timer; [mainError] is the error the
    scheduler reports in the end, which the package takes to be the
    recorded error whose message was recorded most often (the latest one
    when several are).  The package counts the messages in a plain
    object, [counts[message] || 0], so a message that names a property
    every object inherits is never counted: an error with such a message
    is never the main error, and [mainError] is [null] when all recorded
    errors are of this kind.  The pass-through options (delays, [forever],
    [maxRetryTime]) are left at their defaults, so the budget is finite
    and the delays are the default ones. *)
Record RetryOperation : Type := mkRetryOperation {
  _timeouts : list Z;
  _errors : list JsValue;
  _attempts : Z;
  _timer : bool
}.

Definition createTimeout (attempt : nat) : Z := 1000 * 2 ^ Z.of_nat attempt.

(** [for (var i = 0; i < opts.retries; i++)]: nothing for [undefined]. *)
Definition timeouts (options : Merged) : list Z :=
  match m_retries options with
  | Some r => map createTimeout (seq 0 (Z.to_nat r))
  | None => []
  end.

Definition retry_operation (options : Merged) : RetryOperation :=
  {| _timeouts := timeouts options; _errors := []; _attempts := 1; _timer := false |}.

Definition operation_stop (op : RetryOperation) : RetryOperation :=
  {| _timeouts := []; _errors := _errors op; _attempts := _attempts op; _timer := false |}.

Definition operation_retry (err : JsValue) (op : RetryOperation) : bool * RetryOperation :=
  let errors := _errors op ++ [err] in
  match _timeouts op with
  | [] =>
      (false, {| _timeouts := []; _errors := errors;
                 _attempts := _attempts op; _timer := _timer op |})
  | _ :: rest =>
      (true, {| _timeouts := rest; _errors := errors;
                _attempts := _attempts op; _timer := true |})
  end.

(** The armed timer fires: [self._attempts++] before [self._fn] is called. *)
Definition operation_fire (op : RetryOperation) : RetryOperation :=
  {| _timeouts := _timeouts op; _errors := _errors op;
     _attempts := _attempts op + 1; _timer := false |}.

(** The properties of [Object.prototype], which [counts = {}] inherits. *)
Definition objectPrototypeKeys : list string :=
  [ "constructor"; "hasOwnProperty"; "isPrototypeOf"; "propertyIsEnumerable";
    "toLocaleString"; "toString"; "valueOf"; "__proto__";
    "__defineGetter__"; "__defineSetter__"; "__lookupGetter__"; "__lookupSetter__" ].

Definition inherited (message : string) : bool :=
  existsb (String.eqb message) objectPrototypeKeys.

(** The loop of [mainError].  For a message that names an inherited
    property, [(counts[message] || 0) + 1] is a text that is no number,
    [count >= mainErrorCount] is false, and so it stays whenever the
    message comes again: the error is passed over. *)
Fixpoint mainErrorFrom (errors : list JsValue) (counts : string -> nat)
    (mainError : option JsValue) (mainErrorCount : nat) : option JsValue :=
  match errors with
  | [] => mainError
  | error :: rest =>
      let message := message_of error in
      if inherited message
      then mainErrorFrom rest counts mainError mainErrorCount
      else
        let count := (counts message + 1)%nat in
        let counts' := fun m => if String.eqb m message then count else counts m in
        if (mainErrorCount <=? count)%nat
        then mainErrorFrom rest counts' (Some error) count
        else mainErrorFrom rest counts' mainError mainErrorCount
  end.

Definition operation_mainError (op : RetryOperation) : option JsValue :=
  mainErrorFrom (_errors op) (fun _ => 0%nat) None 0%nat.

(** ** A session *)

(** Where a session is suspended: awaiting the operation, [shouldRetry] or
    [onFailedAttempt] of an attempt, or waiting for the timer armed by the
    [retry] of that attempt. *)
Inductive SuspensionPoint : Type :=
| AwaitInput (attemptNumber : Z)
| AwaitShouldRetry (attemptNumber : Z)
| AwaitOnFailedAttempt (attemptNumber : Z)
| AwaitTimer (attemptNumber : Z).

(** The environment's cancellation: the reason given to the controller's
    [abort] while the session is suspended at a point, if it is called
    there. *)
Definition Aborts : Type := SuspensionPoint -> option JsValue.

Definition noAbort : Aborts := fun _ => None.

Inductive Settlement (T : Type) : Type :=
| Resolved (value : T)
| Rejected (error : JsValue).
Arguments Resolved {T} value.
Arguments Rejected {T} error.

(** What a session calls, in order: the operation, the two callbacks, the
    registration of the abort listener, and [resolve] and [reject] of the
    returned promise (every call, with or without effect). *)
Inductive Event (T : Type) : Type :=
| EvInput (attemptNumber : Z)
| EvShouldRetry (fae : FailedAttemptError)
| EvOnFailedAttempt (fae : FailedAttemptError)
| EvAddEventListener
| EvResolve (value : T)
| EvReject (error : JsValue).
Arguments EvInput {T} attemptNumber.
Arguments EvShouldRetry {T} fae.
Arguments EvOnFailedAttempt {T} fae.
Arguments EvAddEventListener {T}.
Arguments EvResolve {T} value.
Arguments EvReject {T} error.

(** The state of a session.  [promise] is the returned promise ([None]
    while pending), [listener] says whether [abortHandler] is registered on
    the signal, [signalNow] is the signal object of the options as it is
    now, [trace] the calls so far. *)
Record Session (T : Type) : Type := mkSession {
  operation : RetryOperation;
  promise : option (Settlement T);
  listener : bool;
  signalNow : option AbortSignal;
  trace : list (Event T)
}.
Arguments mkSession {T}.
Arguments operation {T} s.
Arguments promise {T} s.
Arguments listener {T} s.
Arguments signalNow {T} s.
Arguments trace {T} s.

(** How a statement completes. *)
Inductive Completion (A : Type) : Type :=
| Normal (a : A)
| Abrupt (thrown : JsValue).
Arguments Normal {A} a.
Arguments Abrupt {A} thrown.

Definition M (T A : Type) : Type := Session T -> Completion A * Session T.

Definition ret {T A : Type} (a : A) : M T A := fun st => (Normal a, st).

Definition throw {T A : Type} (thrown : JsValue) : M T A := fun st => (Abrupt thrown, st).

Definition bind {T A B : Type} (m : M T A) (k : A -> M T B) : M T B :=
  fun st =>
    match m st with
    | (Normal a, st') => k a st'
    | (Abrupt thrown, st') => (Abrupt thrown, st')
    end.

Definition tryCatch {T A : Type} (body : M T A) (handler : JsValue -> M T A) : M T A :=
  fun st =>
    match body st with
    | (Normal a, st') => (Normal a, st')
    | (Abrupt thrown, st') => handler thrown st'
    end.

Declare Scope session_scope.
Delimit Scope session_scope with session.
Notation "x <- m ;; k" := (bind m (fun x => k))
  (at level 61, m at next level, right associativity) : session_scope.
Notation "m ;; k" := (bind m (fun _ => k))
  (at level 61, right associativity) : session_scope.
Local Open Scope session_scope.

Definition modify {T : Type} (f : Session T -> Session T) : M T unit :=
  fun st => (Normal tt, f st).

Definition gets {T A : Type} (f : Session T -> A) : M T A :=
  fun st => (Normal (f st), st).

Definition emit {T : Type} (ev : Event T) : M T unit :=
  modify (fun st =>
    mkSession (operation st) (promise st) (listener st) (signalNow st) (trace st ++ [ev])).

(** A promise keeps its first settlement. *)
Definition settle {T : Type} (s : Settlement T) : M T unit :=
  modify (fun st =>
    mkSession (operation st)
              (match promise st with None => Some s | Some first => Some first end)
              (listener st) (signalNow st) (trace st)).

Definition resolve {T : Type} (value : T) : M T unit :=
  emit (EvResolve value) ;; settle (Resolved value).

Definition reject {T : Type} (error : JsValue) : M T unit :=
  emit (EvReject error) ;; settle (Rejected error).

Definition withOperation {T : Type} (f : RetryOperation -> RetryOperation) : M T unit :=
  modify (fun st =>
    mkSession (f (operation st)) (promise st) (listener st) (signalNow st) (trace st)).

Definition withListener {T : Type} (b : bool) : M T unit :=
  modify (fun st =>
    mkSession (operation st) (promise st) b (signalNow st) (trace st)).

Definition withSignal {T : Type} (sg : option AbortSignal) : M T unit :=
  modify (fun st =>
    mkSession (operation st) (promise st) (listener st) sg (trace st)).

(** [operation.stop()] *)
Definition stop {T : Type} : M T unit := withOperation operation_stop.

(** [operation.retry(err)] *)
Definition retry {T : Type} (err : JsValue) : M T bool :=
  outcome <- gets (fun st => operation_retry err (operation st)) ;;
  withOperation (fun _ => snd outcome) ;;
  ret (fst outcome).

(** [operation.mainError()], [null] when nothing was recorded. *)
Definition mainError {T : Type} : M T JsValue :=
  gets (fun st =>
    match operation_mainError (operation st) with
    | Some error => error
    | None => NonError "null"
    end).

(** [defaultedOptions.signal?.reason] *)
Definition signalReason {T : Type} : M T JsValue :=
  gets (fun st =>
    match signalNow st with
    | Some sg => reason sg
    | None => NonError "undefined"
    end).

Definition abortHandler {T : Type} : M T unit :=
  stop ;;
  r <- signalReason ;;
  reject r.

(** [signal.addEventListener('abort', abortHandler, {once: true})] *)
Definition addEventListener {T : Type} : M T unit :=
  emit EvAddEventListener ;; withListener true.

(** [signal?.removeEventListener('abort', abortHandler)] *)
Definition removeEventListener {T : Type} : M T unit :=
  sg <- gets signalNow ;;
  match sg with
  | Some _ => withListener false
  | None => ret tt
  end.

Definition cleanUp {T : Type} : M T unit :=
  removeEventListener ;; stop.

(** The controller of the session's signal aborts it with [r]: nothing
    happens without a signal or on a signal that is aborted already;
    otherwise the signal takes the reason and its listener, registered
    once, is removed and run. *)
Definition controllerAbort {T : Type} (r : JsValue) : M T unit :=
  sg <- gets signalNow ;;
  match sg with
  | None => ret tt
  | Some sg =>
      if aborted sg then ret tt
      else
        withSignal (Some {| aborted := true; reason := r |}) ;;
        registered <- gets listener ;;
        if registered then (withListener false ;; abortHandler) else ret tt
  end.

(** The session is suspended at [point]. *)
Definition suspend {T : Type} (aborts : Aborts) (point : SuspensionPoint) : M T unit :=
  match aborts point with
  | Some r => controllerAbort r
  | None => ret tt
  end.

(** [await f(x)] for a call of the user's code: the call is made, the
    session is suspended, and the call's outcome comes back. *)
Definition await {T A : Type} (aborts : Aborts) (point : SuspensionPoint)
    (call : Event T) (outcome : Outcome A) : M T A :=
  emit call ;;
  suspend aborts point ;;
  match outcome with
  | Returns a => ret a
  | Throws thrown => throw thrown
  end.

(** ** pRetry *)

(** [`${value}`]: the text, or what the conversion to a string throws. *)
Definition toString (value : JsValue) : Outcome string :=
  match value with
  | NonError rendering => Returns rendering
  | Unrenderable thrown => Throws thrown
  | _ =>
      let name := name_of value in
      let message := message_of value in
      Returns (if String.eqb name "" then message
               else if String.eqb message "" then name
               else (name ++ ": " ++ message)%string)
  end.

Definition doubleQuote : string := String (ascii_of_nat 34) EmptyString.

(** [`Non-error was thrown: "${error}". You should only throw errors.`] *)
Definition nonErrorMessage (error : JsValue) : Outcome string :=
  match toString error with
  | Returns text =>
      Returns ("Non-error was thrown: " ++ doubleQuote ++ text ++ doubleQuote
               ++ ". You should only throw errors.")%string
  | Throws thrown => Throws thrown
  end.

Section PRetry.

Context {T : Type}.
Variable input : Z -> Outcome T.
Variable options : Options.
Variable aborts : Aborts.

(** The inner [try] block of the callback given to [operation.attempt]. *)
Definition evaluate (error : JsValue) (attemptNumber : Z) : M T unit :=
  (if negb (instanceofError error)
   then match nonErrorMessage error with
        | Returns message => throw (newTypeError message)
        | Throws thrown => throw thrown
        end
   else ret tt) ;;
  (match error with
   | AbortErrorObj originalError _ => throw originalError
   | _ => ret tt
   end) ;;
  (if instanceofTypeError error && negb (isNetworkError error)
   then throw error
   else ret tt) ;;
  let fae := decorateErrorWithCounts error attemptNumber (defaultedOptions options) in
  (match m_shouldRetry (defaultedOptions options) with
   | Some shouldRetry =>
       verdict <- await aborts (AwaitShouldRetry attemptNumber)
                    (EvShouldRetry fae) (shouldRetry fae) ;;
       if negb verdict then (stop ;; reject error) else ret tt
   | None => ret tt
   end) ;;
  (match m_onFailedAttempt (defaultedOptions options) with
   | Some onFailedAttempt =>
       await aborts (AwaitOnFailedAttempt attemptNumber)
         (EvOnFailedAttempt fae) (onFailedAttempt fae)
   | None => ret tt
   end) ;;
  permitted <- retry (asValue fae) ;;
  if negb permitted then (e <- mainError ;; throw e) else ret tt.

(** The callback given to [operation.attempt]. *)
Definition attemptCallback (attemptNumber : Z) : M T unit :=
  tryCatch
    (result <- await aborts (AwaitInput attemptNumber)
                 (EvInput attemptNumber) (input attemptNumber) ;;
     cleanUp ;;
     resolve result)
    (fun error =>
       tryCatch
         (evaluate error attemptNumber)
         (fun finalError =>
            let faee := decorateErrorWithCounts finalError attemptNumber
                          (defaultedOptions options) in
            cleanUp ;;
            reject (asValue faee))).

(** [operation.attempt(fn)] and the timers armed by [operation.retry]:
    the callback runs with [_attempts]; when it has armed the timer and
    no [stop] disarms it while the session waits, the timer fires and the
    callback runs again.  One unit of [fuel] per run of the callback. *)
Fixpoint attempts (fuel : nat) (st : Session T) : Session T :=
  match fuel with
  | O => st
  | S fuel' =>
      let n := _attempts (operation st) in
      let st1 := snd (attemptCallback n st) in
      if _timer (operation st1) then
        let st2 := snd (suspend aborts (AwaitTimer n) st1) in
        if _timer (operation st2) then
          attempts fuel' (snd (withOperation operation_fire st2))
        else st2
      else st1
  end.

(** The executor of the returned promise, up to [operation.attempt]. *)
Definition start : Session T :=
  let st := {| operation := retry_operation (defaultedOptions options);
               promise := None;
               listener := false;
               signalNow := m_signal (defaultedOptions options);
               trace := [] |} in
  match m_signal (defaultedOptions options) with
  | Some sg => if negb (aborted sg) then snd (addEventListener st) else st
  | None => st
  end.

(** Every retry uses up one timeout, so one run of the callback more
    than there are timeouts ends every session. *)
Definition pRetry : Session T :=
  attempts (S (List.length (timeouts (defaultedOptions options)))) start.

End PRetry.

(** The calls of the operation, by attempt number. *)
Fixpoint invocations {T : Type} (events : list (Event T)) : list Z :=
  match events with
  | [] => []
  | EvInput n :: rest => n :: invocations rest
  | _ :: rest => invocations rest
  end.

(** The attempt numbers 1 .. k. *)
Definition upto (k : nat) : list Z := map Z.of_nat (seq 1 k).

(** ** How an attempt is classified and judged *)

(** The three fatal tests of the inner [try] block all fail: the thrown
    value goes on to [shouldRetry], [onFailedAttempt] and the scheduler. *)
Definition candidate (error : JsValue) : bool :=
  instanceofError error
  && negb (instanceofAbortError error)
  && negb (instanceofTypeError error && negb (isNetworkError error)).

(** The retry budget the session works with. *)
Definition budget (options : Options) : Z := retriesOrZero (defaultedOptions options).

(** [shouldRetry], when there is one, answers [true]. *)
Definition approves (options : Options) (fae : FailedAttemptError) : bool :=
  match m_shouldRetry (defaultedOptions options) with
  | Some shouldRetry =>
      match shouldRetry fae with
      | Returns verdict => verdict
      | Throws _ => false
      end
  | None => true
  end.

(** [onFailedAttempt], when there is one, returns. *)
Definition observes (options : Options) (fae : FailedAttemptError) : bool :=
  match m_onFailedAttempt (defaultedOptions options) with
  | Some onFailedAttempt =>
      match onFailedAttempt fae with
      | Returns _ => true
      | Throws _ => false
      end
  | None => true
  end.

(** Attempt [n] fails with a candidate that the two callbacks let pass: it
    is retried whenever the scheduler permits. *)
Definition retried {T : Type} (input : Z -> Outcome T) (options : Options) (n : Z) : bool :=
  match input n with
  | Returns _ => false
  | Throws error =>
      let fae := decorateErrorWithCounts error n (defaultedOptions options) in
      candidate error && approves options fae && observes options fae
  end.

(** The calls of an attempt that is retried. *)
Definition retriedEvents {T : Type} (options : Options) (n : Z) (error : JsValue)
    : list (Event T) :=
  let fae := decorateErrorWithCounts error n (defaultedOptions options) in
  [EvInput n]
  ++ match m_shouldRetry (defaultedOptions options) with
     | Some _ => [EvShouldRetry fae]
     | None => []
     end
  ++ match m_onFailedAttempt (defaultedOptions options) with
     | Some _ => [EvOnFailedAttempt fae]
     | None => []
     end.

(** What the three fatal tests of the inner [try] block throw, if one of
    them does. *)
Definition fatal (error : JsValue) : option JsValue :=
  if negb (instanceofError error)
  then Some (match nonErrorMessage error with
             | Returns message => newTypeError message
             | Throws thrown => thrown
             end)
  else match error with
       | AbortErrorObj originalError _ => Some originalError
       | _ =>
           if instanceofTypeError error && negb (isNetworkError error)
           then Some error
           else None
       end.

(** [cleanUp] on a state: the listener goes when there is a signal. *)
Definition cleanedListener {T : Type} (st : Session T) : bool :=
  match signalNow st with
  | Some _ => false
  | None => listener st
  end.

Definition firstSettlement {T : Type} (st : Session T) (s : Settlement T)
    : option (Settlement T) :=
  match promise st with
  | None => Some s
  | Some first => Some first
  end.

(** ** Fixtures: the sessions of the repository's tests and of the examples *)

Definition fixture : string := "fixture".

Definition fixtureError : JsValue := newError "fixture".

Definition typeErrorFixture : JsValue := newTypeError "type-error-fixture".

(** [attemptNumber === 3 ? fixture : Promise.reject(fixtureError)] *)
Definition failsTwice (attemptNumber : Z) : Outcome string :=
  if attemptNumber =? 3 then Returns fixture else Throws fixtureError.

(** [attemptNumber === 3 ? Promise.reject(new AbortError(fixtureError))
    : Promise.reject(fixtureError)] *)
Definition abortsOnThird (attemptNumber : Z) : Outcome string :=
  if attemptNumber =? 3 then Throws (AbortError (inr fixtureError)) else Throws fixtureError.

(** [attemptNumber === 3 ? fixture : Promise.reject(typeErrorFixture)] *)
Definition typeErrorUntilThird (attemptNumber : Z) : Outcome string :=
  if attemptNumber =? 3 then Returns fixture else Throws typeErrorFixture.

(** [throw 'foo'] *)
Definition throwsFoo (attemptNumber : Z) : Outcome string := Throws (NonError "foo").

(** The TypeError of the engine for [`${Symbol('fixture')}`]. *)
Definition symbolConversionError : JsValue :=
  newTypeError "Cannot convert a Symbol value to a string".

(** [throw Symbol('fixture')] *)
Definition throwsSymbol (attemptNumber : Z) : Outcome string :=
  Throws (Unrenderable symbolConversionError).

(** [Promise.reject(fixtureError)] on every attempt. *)
Definition alwaysFails (attemptNumber : Z) : Outcome string := Throws fixtureError.

Definition observerError : JsValue := newError "observer".

(** [{onFailedAttempt: () => { throw observerError }}] *)
Definition throwingObserver : Options :=
  {| onFailedAttempt := Present (fun _ => Throws observerError);
     shouldRetry := Absent; signal := Absent; retries := Absent |}.

(** [{shouldRetry: () => false}] *)
Definition vetoing : Options :=
  {| onFailedAttempt := Absent;
     shouldRetry := Present (fun _ => Returns false);
     signal := Absent; retries := Absent |}.

(** [{signal: aborted, retries: 2}], the signal aborted before the call. *)
Definition abortedFromTheStart : Options :=
  {| onFailedAttempt := Absent; shouldRetry := Absent;
     signal := Present {| aborted := true; reason := NonError "cancelled" |};
     retries := Present 2 |}.

(** [{signal: live, retries: 2}], the signal not aborted at the call. *)
Definition liveSignal : Options :=
  {| onFailedAttempt := Absent; shouldRetry := Absent;
     signal := Present {| aborted := false; reason := NonError "undefined" |};
     retries := Present 2 |}.

(** The controller aborts while the second attempt is awaited. *)
Definition abortDuringSecond : Aborts :=
  fun point =>
    match point with
    | AwaitInput 2 => Some (NonError "cancelled")
    | _ => None
    end.

(** [{retries: 1}] *)
Definition oneRetry : Options :=
  {| onFailedAttempt := Absent; shouldRetry := Absent;
     signal := Absent; retries := Present 1 |}.

(** [attemptNumber === 3 ? fixture : Promise.reject(new TypeError('Failed to fetch'))],
    the error as a browser without stacks on network errors gives it. *)
Definition fetchFailsTwice (attemptNumber : Z) : Outcome string :=
  if attemptNumber =? 3 then Returns fixture
  else Throws (ErrorObj true "TypeError" "Failed to fetch" None).

(** ** Assertions on sessions *)

(** [triple P m Q E]: from a state with [P], the statement [m] ends in a
    state with [Q] when it completes normally and with [E] when it throws. *)
Definition triple {T A : Type} (P : Session T -> Prop) (m : M T A)
    (Q : A -> Session T -> Prop) (E : JsValue -> Session T -> Prop) : Prop :=
  forall st, P st ->
    match m st with
    | (Normal a, st') => Q a st'
    | (Abrupt thrown, st') => E thrown st'
    end.

(** [m] keeps the invariant [I], however it completes. *)
Definition preserves {T A : Type} (I : Session T -> Prop) (m : M T A) : Prop :=
  triple I m (fun _ => I) (fun _ => I).

Definition extends {T : Type} (events : list (Event T)) (st : Session T) : Prop :=
  exists more : list (Event T), trace st = events ++ more.

Definition settlementOf {T : Type} (ev : Event T) : option (Settlement T) :=
  match ev with
  | EvResolve value => Some (Resolved value)
  | EvReject error => Some (Rejected error)
  | _ => None
  end.

(** The first call of [resolve] or [reject] in a trace. *)
Fixpoint firstCall {T : Type} (events : list (Event T)) : option (Settlement T) :=
  match events with
  | [] => None
  | ev :: rest =>
      match settlementOf ev with
      | Some s => Some s
      | None => firstCall rest
      end
  end.

Definition settledByFirstCall {T : Type} (st : Session T) : Prop :=
  promise st = firstCall (trace st).

Definition withinTimeouts {T : Type} (N : nat) (st : Session T) : Prop :=
  (List.length (_timeouts (operation st)) <= N)%nat.

Definition settledAndDisarmed {T : Type} (st : Session T) : Prop :=
  promise st <> None /\ _timer (operation st) = false.

Definition armed {T : Type} (N : nat) (st : Session T) : Prop :=
  _timer (operation st) = true
  /\ (List.length (_timeouts (operation st)) < N)%nat.

Definition settledOrArmed {T : Type} (N : nat) (st : Session T) : Prop :=
  settledAndDisarmed st \/ armed N st.

Definition isResolve {T : Type} (ev : Event T) : bool :=
  match ev with EvResolve _ => true | _ => false end.

Definition isReject {T : Type} (ev : Event T) : bool :=
  match ev with EvReject _ => true | _ => false end.

Definition callsResolve {T : Type} (events : list (Event T)) : bool :=
  existsb isResolve events.

Definition callsReject {T : Type} (events : list (Event T)) : bool :=
  existsb isReject events.

Definition noCalls {T : Type} (st : Session T) : Prop :=
  callsResolve (trace st) = false /\ callsReject (trace st) = false.

Definition notBoth {T : Type} (st : Session T) : Prop :=
  callsResolve (trace st) = false \/ callsReject (trace st) = false.

(** Inside the inner [try] block: [resolve] was not called, and [reject]
    only with the scheduler stopped. *)
Definition rejectedOnlyStopped {T : Type} (st : Session T) : Prop :=
  callsResolve (trace st) = false
  /\ (callsReject (trace st) = true ->
      _timeouts (operation st) = [] /\ _timer (operation st) = false).

(** The number of the attempt in progress after [events]: that of the
    latest call of the operation. *)
Fixpoint lastInput {T : Type} (events : list (Event T)) (current : Z) : Z :=
  match events with
  | [] => current
  | EvInput n :: rest => lastInput rest n
  | _ :: rest => lastInput rest current
  end.




(** The options with the [signal] key taken out. *)
Definition withoutSignal (options : Options) : Options :=
  {| onFailedAttempt := onFailedAttempt options;
     shouldRetry := shouldRetry options;
     signal := Absent;
     retries := retries options |}.

(** A session whose signal was aborted from the start, next to one with
    no signal. *)
Definition sameButSignal {T : Type} (st1 st2 : Session T) : Prop :=
  operation st1 = operation st2
  /\ promise st1 = promise st2
  /\ trace st1 = trace st2
  /\ listener st1 = false
  /\ listener st2 = false
  /\ (exists sg, signalNow st1 = Some sg /\ aborted sg = true)
  /\ signalNow st2 = None.

(** [m] does the same in both. *)
Definition alike {T A : Type} (m : M T A) : Prop :=
  forall st1 st2, sameButSignal st1 st2 ->
    fst (m st1) = fst (m st2) /\ sameButSignal (snd (m st1)) (snd (m st2)).

Definition isAddEventListener {T : Type} (ev : Event T) : bool :=
  match ev with EvAddEventListener => true | _ => false end.

(** [addEventListener] was called. *)
Definition registersListener {T : Type} (events : list (Event T)) : bool :=
  existsb isAddEventListener events.

Definition neverRegistered {T : Type} (st : Session T) : Prop :=
  registersListener (trace st) = false /\ listener st = false.



(** The attempt a suspension point belongs to. *)
Definition attemptOf (point : SuspensionPoint) : Z :=
  match point with
  | AwaitInput n => n
  | AwaitShouldRetry n => n
  | AwaitOnFailedAttempt n => n
  | AwaitTimer n => n
  end.

(** The calls of [onFailedAttempt], by the attempt number of the record. *)
Fixpoint observations {T : Type} (events : list (Event T)) : list Z :=
  match events with
  | [] => []
  | EvOnFailedAttempt fae :: rest => attemptNumber fae :: observations rest
  | _ :: rest => observations rest
  end.

(** [value] is the record of a failed attempt, one of the first [last]. *)
Definition recordOf {T : Type} (input : Z -> Outcome T) (options : Options)
    (last : Z) (value : JsValue) : Prop :=
  exists (n : Z) (error : JsValue),
    1 <= n <= last
    /\ input n = Throws error
    /\ value = asValue (decorateErrorWithCounts error n (defaultedOptions options)).

(** What the scheduler records for the attempts [a], ..., [a + m - 1]
    that fail: the record of each, in this order. *)
Definition recordsOf {T : Type} (input : Z -> Outcome T) (options : Options)
    (a m : nat) : list JsValue :=
  flat_map
    (fun j : nat =>
       match input (Z.of_nat j) with
       | Throws error =>
           [asValue (decorateErrorWithCounts error (Z.of_nat j)
                       (defaultedOptions options))]
       | Returns _ => []
       end)
    (seq a m).


(** The session was cancelled with [r] after the operation was called
    for [calls]: rejected with the reason, the scheduler stopped and the
    listener gone. *)
Definition cancelledWith {T : Type} (r : JsValue) (calls : list Z) (st : Session T)
    : Prop :=
  promise st = Some (Rejected r)
  /\ _timeouts (operation st) = []
  /\ _timer (operation st) = false
  /\ listener st = false
  /\ invocations (trace st) = calls.

(** The promise is pending and the listener waits on a signal that is
    not aborted, after the operation was called for [calls]. *)
Definition pendingAndLive {T : Type} (calls : list Z) (st : Session T) : Prop :=
  promise st = None
  /\ listener st = true
  /\ (exists sg, signalNow st = Some sg /\ aborted sg = false)
  /\ invocations (trace st) = calls.

(** The controller aborts during the first attempt. *)
Definition abortDuringFirst : Aborts :=
  fun point =>
    match point with
    | AwaitInput 1 => Some (NonError "cancelled")
    | _ => None
    end.

(** The controller aborts while the session waits to retry the first
    attempt. *)
Definition abortBeforeSecond : Aborts :=
  fun point =>
    match point with
    | AwaitTimer 1 => Some (NonError "cancelled")
    | _ => None
    end.

(** A listener is only ever registered on a signal. *)
Definition listenerHasSignal {T : Type} (st : Session T) : Prop :=
  signalNow st = None -> listener st = false.

(** Nothing of the session is left behind: no listener on the signal, no
    timer armed and no timeout left to arm one. *)
Definition tornDown {T : Type} (st : Session T) : Prop :=
  listener st = false
  /\ _timeouts (operation st) = []
  /\ _timer (operation st) = false.

(** The records handed to [shouldRetry] and [onFailedAttempt]. *)
Fixpoint records {T : Type} (events : list (Event T)) : list FailedAttemptError :=
  match events with
  | [] => []
  | EvShouldRetry fae :: rest => fae :: records rest
  | EvOnFailedAttempt fae :: rest => fae :: records rest
  | _ :: rest => records rest
  end.

(** A record of one of the attempts 1 .. [a], with the retries left
    after it. *)
Definition recordWithin (retries : Z) (a : nat) (fae : FailedAttemptError) : Prop :=
  1 <= attemptNumber fae <= Z.of_nat a
  /\ retriesLeft fae = retries - (attemptNumber fae - 1).

(** Attempt [a] of a budget of [L] retries: the operation was called for
    [calls], and the timeouts left, with the one the armed timer took,
    allow no more than [L + 1] attempts in all. *)
Definition bounded {T : Type} (retries : Z) (L : nat) (calls : list Z) (a : nat)
    (st : Session T) : Prop :=
  invocations (trace st) = calls
  /\ _attempts (operation st) = Z.of_nat a
  /\ (1 <= a)%nat
  /\ (List.length (_timeouts (operation st)) + a
      + (if _timer (operation st) then 1 else 0) <= S L)%nat
  /\ Forall (recordWithin retries a) (records (trace st)).

(** [resolve] or [reject] is called in [events]. *)
Definition called {T : Type} (events : list (Event T)) : bool :=
  callsResolve events || callsReject events.

(** The operation is not called after [resolve] or [reject] was;
    [settled] tells whether one of them was called before [events]. *)
Fixpoint quietOnceSettled {T : Type} (settled : bool) (events : list (Event T)) : bool :=
  match events with
  | [] => true
  | EvInput _ :: rest => negb settled && quietOnceSettled settled rest
  | EvResolve _ :: rest => quietOnceSettled true rest
  | EvReject _ :: rest => quietOnceSettled true rest
  | _ :: rest => quietOnceSettled settled rest
  end.

(** [resolve] and [reject] are only called with the scheduler stopped,
    and the operation was not called after them. *)
Definition stoppedOnceCalled {T : Type} (st : Session T) : Prop :=
  quietOnceSettled false (trace st) = true
  /\ (called (trace st) = true ->
      _timeouts (operation st) = [] /\ _timer (operation st) = false).

(** During attempt [n], before [resolve] is called. *)
Definition unresolvedIn {T : Type} (n : Z) (st : Session T) : Prop :=
  callsResolve (trace st) = false /\ lastInput (trace st) 0 = n.

(** [resolve] is only called with what the latest call of the operation
    returned. *)
Definition resolvedFromLast {T : Type} (input : Z -> Outcome T) (st : Session T) : Prop :=
  forall v : T,
    In (EvResolve v) (trace st) -> input (lastInput (trace st) 0) = Returns v.

Definition isShouldRetry {T : Type} (ev : Event T) : bool :=
  match ev with EvShouldRetry _ => true | _ => false end.

Definition isOnFailedAttempt {T : Type} (ev : Event T) : bool :=
  match ev with EvOnFailedAttempt _ => true | _ => false end.

(** [{shouldRetry: undefined, onFailedAttempt: undefined}] *)
Definition callbacksUndefined : Options :=
  {| onFailedAttempt := Undefined; shouldRetry := Undefined;
     signal := Absent; retries := Absent |}.

(** The signal of the session is aborted, with the reason [e]. *)
Definition abortedWith {T : Type} (st : Session T) (e : JsValue) : Prop :=
  exists sg, signalNow st = Some sg /\ aborted sg = true /\ reason sg = e.

(** A FailedAttemptError for attempt [n] of a budget of [retries]. *)
Definition decoratedFor (retries n : Z) (e : JsValue) : Prop :=
  exists cause, e = FailedAttemptErrorObj cause n (retries - (n - 1)).

(** During attempt [n]: a promise that is rejected is rejected with one
    of the [allowed] values or with the reason of the abort. *)
Definition rejectedAs {T : Type} (allowed : JsValue -> Prop) (n : Z) (st : Session T)
    : Prop :=
  lastInput (trace st) 0 = n
  /\ forall e, promise st = Some (Rejected e) -> allowed e \/ abortedWith st e.

(** What a session may reject with: a FailedAttemptError for the latest
    attempt, the very error that attempt threw, or the reason of the
    abort. *)
Definition rejectionShape {T : Type} (input : Z -> Outcome T) (retries : Z)
    (st : Session T) : Prop :=
  rejectedAs (fun e => decoratedFor retries (lastInput (trace st) 0) e
                       \/ input (lastInput (trace st) 0) = Throws e)
    (lastInput (trace st) 0) st.

(** How far the attempt in progress has come after [events], read from
    stage [current]: 0 before the first call of the operation, 1 once the
    operation is called, 2 once [shouldRetry] is, 3 once [onFailedAttempt]
    is; [None] when a callback is called out of this order or twice in
    one attempt. *)
Fixpoint stage {T : Type} (events : list (Event T)) (current : nat) : option nat :=
  match events with
  | [] => Some current
  | EvInput _ :: rest => stage rest 1
  | EvShouldRetry _ :: rest =>
      if (current =? 1)%nat then stage rest 2 else None
  | EvOnFailedAttempt _ :: rest =>
      if ((1 <=? current) && (current <=? 2))%nat then stage rest 3 else None
  | _ :: rest => stage rest current
  end.

(** The attempt in progress has come to stage [b] at most. *)
Definition uptoStage {T : Type} (b : nat) (st : Session T) : Prop :=
  exists p : nat, stage (trace st) 0 = Some p /\ (1 <= p <= b)%nat.

(** The controller aborts while [onFailedAttempt] is awaited for the
    first attempt. *)
Definition abortDuringObserver : Aborts :=
  fun point =>
    match point with
    | AwaitOnFailedAttempt 1 => Some (NonError "cancelled")
    | _ => None
    end.





(** A session without a signal. *)
Definition noSignal {T : Type} (st : Session T) : Prop := signalNow st = None.

(** Two statements do the same in a session without a signal. *)
Definition agree {T A : Type} (m1 m2 : M T A) : Prop :=
  forall st, noSignal st -> m1 st = m2 st /\ noSignal (snd (m2 st)).

(** * Properties *)

Lemma invocations_app {T : Type} (a b : list (Event T)) :
  invocations (a ++ b) = invocations a ++ invocations b.
Proof.
  induction a as [|ev a IH]; cbn; [reflexivity|].
  destruct ev; cbn; rewrite IH; reflexivity.
Qed.

Lemma invocations_retriedEvents {T : Type} (options : Options) (n : Z) (error : JsValue) :
  invocations (@retriedEvents T options n error) = [n].
Proof.
  unfold retriedEvents.
  destruct (m_shouldRetry (defaultedOptions options));
    destruct (m_onFailedAttempt (defaultedOptions options)); reflexivity.
Qed.

Lemma upto_succ (k : nat) : upto (S k) = upto k ++ [Z.of_nat (S k)].
Proof.
  unfold upto. rewrite seq_S, map_app. reflexivity.
Qed.

Lemma length_timeouts (options : Options) :
  List.length (timeouts (defaultedOptions options)) = Z.to_nat (budget options).
Proof.
  unfold timeouts, budget, retriesOrZero.
  destruct (m_retries (defaultedOptions options)) as [r|]; [|reflexivity].
  rewrite length_map, length_seq.
  destruct (Z.eqb_spec r 0); subst; reflexivity.
Qed.

(** ** Sessions without cancellation: what one run of the callback does *)

Section Uncancelled.

Context {T : Type}.
Variable input : Z -> Outcome T.
Variable options : Options.

Lemma callback_retried (st : Session T) (n : Z) (error : JsValue) (d : Z) (ts : list Z) :
  input n = Throws error ->
  retried input options n = true ->
  _timeouts (operation st) = d :: ts ->
  attemptCallback input options noAbort n st =
    (Normal tt,
     {| operation :=
          {| _timeouts := ts;
             _errors := _errors (operation st)
                        ++ [asValue (decorateErrorWithCounts error n (defaultedOptions options))];
             _attempts := _attempts (operation st);
             _timer := true |};
        promise := promise st;
        listener := listener st;
        signalNow := signalNow st;
        trace := trace st ++ retriedEvents options n error |}).
Proof.
  intros Hin Hret Hts.
  unfold retried in Hret. rewrite Hin in Hret.
  apply andb_prop in Hret. destruct Hret as [Hret Hobs].
  apply andb_prop in Hret. destruct Hret as [Hcand Happ].
  unfold candidate in Hcand.
  apply andb_prop in Hcand. destruct Hcand as [Hcand Hty].
  apply andb_prop in Hcand. destruct Hcand as [Herr Hab].
  apply negb_true_iff in Hty.
  unfold approves in Happ. unfold observes in Hobs.
  unfold attemptCallback, evaluate, retriedEvents.
  remember (defaultedOptions options) as opts eqn:Eopts. clear Eopts.
  unfold tryCatch, bind, await, suspend, noAbort, emit, modify, gets, ret, throw,
    retry, withOperation, operation_retry.
  rewrite Hin. cbn.
  rewrite Herr, Hty. cbn.
  destruct error as [r | ty nm msg stk | orig msg | c a l | u]; try discriminate;
    cbn;
    destruct (m_shouldRetry opts) as [sr|];
    destruct (m_onFailedAttempt opts) as [ofa|]; cbn;
    repeat match goal with
      | H : context [match ?f ?x with Returns _ => _ | Throws _ => _ end] |- _ =>
          destruct (f x) as [[]|]; try discriminate
      end; cbn; rewrite ?Hts; cbn; rewrite <- ?app_assoc; reflexivity.
Qed.

Lemma callback_success (st : Session T) (n : Z) (value : T) :
  input n = Returns value ->
  attemptCallback input options noAbort n st =
    (Normal tt,
     {| operation := operation_stop (operation st);
        promise := firstSettlement st (Resolved value);
        listener := cleanedListener st;
        signalNow := signalNow st;
        trace := trace st ++ [EvInput n; EvResolve value] |}).
Proof.
  intros Hin.
  unfold attemptCallback, tryCatch, bind, await, suspend, noAbort, emit, modify,
    gets, ret, cleanUp, removeEventListener, stop, withOperation, withListener,
    resolve, settle, firstSettlement, cleanedListener.
  rewrite Hin. cbn.
  destruct (signalNow st); cbn; rewrite <- ?app_assoc; reflexivity.
Qed.

Lemma callback_fatal (st : Session T) (n : Z) (error finalError : JsValue) :
  input n = Throws error ->
  fatal error = Some finalError ->
  let faee := asValue (decorateErrorWithCounts finalError n (defaultedOptions options)) in
  attemptCallback input options noAbort n st =
    (Normal tt,
     {| operation := operation_stop (operation st);
        promise := firstSettlement st (Rejected faee);
        listener := cleanedListener st;
        signalNow := signalNow st;
        trace := trace st ++ [EvInput n; EvReject faee] |}).
Proof.
  intros Hin Hfatal faee. subst faee.
  unfold fatal in Hfatal.
  unfold attemptCallback, evaluate.
  remember (defaultedOptions options) as opts eqn:Eopts. clear Eopts.
  unfold tryCatch, bind, await, suspend, noAbort, emit, modify, gets, ret, throw,
    cleanUp, removeEventListener, stop, withOperation, withListener,
    reject, settle, firstSettlement, cleanedListener.
  rewrite Hin. cbn.
  destruct (instanceofError error) eqn:Herr; cbn in Hfatal |- *.
  - destruct error as [r | ty nm msg stk | orig msg | c a l | u]; try discriminate;
      cbn in Hfatal |- *;
      try (destruct (_ && _); try discriminate);
      injection Hfatal as <-; cbn;
      destruct (signalNow st); cbn; rewrite <- ?app_assoc; reflexivity.
  - injection Hfatal as <-.
    destruct (nonErrorMessage error); cbn;
      destruct (signalNow st); cbn; rewrite <- ?app_assoc; reflexivity.
Qed.

Lemma candidate_tests (error : JsValue) :
  candidate error = true ->
  instanceofError error = true
  /\ instanceofAbortError error = false
  /\ instanceofTypeError error && negb (isNetworkError error) = false.
Proof.
  unfold candidate. intros H.
  apply andb_prop in H. destruct H as [H Hty].
  apply andb_prop in H. destruct H as [Herr Hab].
  apply negb_true_iff in Hty. apply negb_true_iff in Hab. auto.
Qed.

Lemma callback_observer_throws (st : Session T) (n : Z) (error thrown : JsValue)
    (onFailed : FailedAttemptError -> Outcome unit) :
  let fae := decorateErrorWithCounts error n (defaultedOptions options) in
  let faee := asValue (decorateErrorWithCounts thrown n (defaultedOptions options)) in
  input n = Throws error ->
  candidate error = true ->
  approves options fae = true ->
  m_onFailedAttempt (defaultedOptions options) = Some onFailed ->
  onFailed fae = Throws thrown ->
  attemptCallback input options noAbort n st =
    (Normal tt,
     {| operation := operation_stop (operation st);
        promise := firstSettlement st (Rejected faee);
        listener := cleanedListener st;
        signalNow := signalNow st;
        trace := trace st
                 ++ [EvInput n]
                 ++ match m_shouldRetry (defaultedOptions options) with
                    | Some _ => [EvShouldRetry fae]
                    | None => []
                    end
                 ++ [EvOnFailedAttempt fae; EvReject faee] |}).
Proof.
  intros fae faee Hin Hcand Happ Hofa Hthrow. subst fae faee.
  destruct (candidate_tests _ Hcand) as (Herr & Hab & Hty).
  unfold approves in Happ.
  unfold attemptCallback, evaluate.
  remember (defaultedOptions options) as opts eqn:Eopts. clear Eopts.
  unfold tryCatch, bind, await, suspend, noAbort, emit, modify, gets, ret, throw,
    cleanUp, removeEventListener, stop, withOperation, withListener,
    reject, settle, firstSettlement, cleanedListener.
  rewrite Hin, Hofa. cbn.
  rewrite Herr, Hty. cbn.
  destruct error as [r | ty nm msg stk | orig msg | c a l | u]; try discriminate;
    cbn;
    destruct (m_shouldRetry opts) as [sr|]; cbn;
    try (destruct (sr _) as [[]|]; try discriminate; cbn);
    rewrite Hthrow; cbn;
    destruct (signalNow st); cbn; rewrite <- ?app_assoc; reflexivity.
Qed.

Lemma callback_vetoed (st : Session T) (n : Z) (error : JsValue)
    (should : FailedAttemptError -> Outcome bool) :
  let fae := decorateErrorWithCounts error n (defaultedOptions options) in
  input n = Throws error ->
  candidate error = true ->
  m_shouldRetry (defaultedOptions options) = Some should ->
  should fae = Returns false ->
  exists (st' : Session T) (last : JsValue),
    attemptCallback input options noAbort n st = (Normal tt, st')
    /\ _timer (operation st') = false
    /\ promise st' = firstSettlement st (Rejected error)
    /\ trace st' =
         trace st
         ++ [EvInput n; EvShouldRetry fae; EvReject error]
         ++ match m_onFailedAttempt (defaultedOptions options) with
            | Some _ => [EvOnFailedAttempt fae]
            | None => []
            end
         ++ [EvReject last].
Proof.
  intros fae Hin Hcand Hsr Hveto. subst fae.
  destruct (candidate_tests _ Hcand) as (Herr & Hab & Hty).
  unfold attemptCallback, evaluate.
  remember (defaultedOptions options) as opts eqn:Eopts. clear Eopts.
  unfold tryCatch, bind, await, suspend, noAbort, emit, modify, gets, ret, throw,
    cleanUp, removeEventListener, stop, withOperation, withListener,
    reject, settle, firstSettlement, retry, mainError.
  rewrite Hin, Hsr. cbn.
  rewrite Herr, Hty. cbn.
  destruct error as [r | ty nm msg stk | orig msg | c a l | u]; try discriminate;
    cbn; rewrite Hveto; cbn;
    destruct (m_onFailedAttempt opts) as [ofa|]; cbn;
    try (destruct (ofa _) as [[]|x]; cbn);
    destruct (promise st); destruct (signalNow st); cbn;
    eexists; eexists; (split; [reflexivity|]); cbn;
    rewrite <- ?app_assoc; cbn; auto.
Qed.

(** *** From one attempt to the next *)

Lemma attempts_final (fuel : nat) (st st' : Session T) :
  attemptCallback input options noAbort (_attempts (operation st)) st = (Normal tt, st') ->
  _timer (operation st') = false ->
  attempts input options noAbort (S fuel) st = st'.
Proof.
  intros Hcb Htimer. simpl attempts. rewrite Hcb. simpl snd.
  rewrite Htimer. reflexivity.
Qed.

Lemma attempts_retried (fuel : nat) (st : Session T) (error : JsValue) (d : Z) (ts : list Z) :
  input (_attempts (operation st)) = Throws error ->
  retried input options (_attempts (operation st)) = true ->
  _timeouts (operation st) = d :: ts ->
  attempts input options noAbort (S fuel) st =
  attempts input options noAbort fuel
    {| operation :=
         {| _timeouts := ts;
            _errors := _errors (operation st)
                       ++ [asValue (decorateErrorWithCounts error (_attempts (operation st))
                                      (defaultedOptions options))];
            _attempts := _attempts (operation st) + 1;
            _timer := false |};
       promise := promise st;
       listener := listener st;
       signalNow := signalNow st;
       trace := trace st ++ retriedEvents options (_attempts (operation st)) error |}.
Proof.
  intros Hin Hret Hts. simpl attempts.
  rewrite (callback_retried st _ error d ts Hin Hret Hts). reflexivity.
Qed.

(** [m] retried attempts in a row, starting at attempt [a], leave the
    session at attempt [a + m] with the promise as it was. *)
Lemma attempts_prefix (m : nat) :
  forall (fuel : nat) (st : Session T) (a : nat),
    _attempts (operation st) = Z.of_nat a ->
    (forall j, (a <= j < a + m)%nat -> retried input options (Z.of_nat j) = true) ->
    (m <= List.length (_timeouts (operation st)))%nat ->
    exists (st' : Session T) (tr : list (Event T)),
      attempts input options noAbort (m + fuel) st
      = attempts input options noAbort fuel st'
      /\ _attempts (operation st') = Z.of_nat (a + m)
      /\ List.length (_timeouts (operation st'))
         = (List.length (_timeouts (operation st)) - m)%nat
      /\ promise st' = promise st
      /\ trace st' = trace st ++ tr
      /\ invocations tr = map Z.of_nat (seq a m).
Proof.
  induction m as [|m IH]; intros fuel st a Ha Hret Hlen.
  - exists st, []. rewrite app_nil_r, Nat.add_0_r, Nat.sub_0_r.
    repeat split; auto.
  - destruct (_timeouts (operation st)) as [|d ts] eqn:Hts; [cbn in Hlen; lia|].
    assert (Hfirst : retried input options (_attempts (operation st)) = true).
    { rewrite Ha. apply Hret. lia. }
    destruct (input (_attempts (operation st))) as [v|error] eqn:Hin.
    { unfold retried in Hfirst. rewrite Hin in Hfirst. discriminate. }
    change (S m + fuel)%nat with (S (m + fuel)).
    rewrite (attempts_retried _ st error d ts Hin Hfirst Hts).
    match goal with |- context [attempts _ _ _ _ ?s] => set (st1 := s) end.
    destruct (IH fuel st1 (S a)) as (st' & tr & Hrun & Hat & Hlen' & Hpr & Htr & Hinv).
    + subst st1. cbn. rewrite Ha. lia.
    + intros j Hj. apply Hret. lia.
    + subst st1. cbn. cbn in Hlen. lia.
    + exists st', (retriedEvents options (_attempts (operation st)) error ++ tr).
      rewrite Hrun. split; [reflexivity|].
      split; [rewrite Hat; f_equal; lia|].
      split; [rewrite Hlen'; subst st1; cbn; lia|].
      split; [rewrite Hpr; reflexivity|].
      split; [rewrite Htr; subst st1; cbn [trace]; rewrite <- app_assoc; reflexivity|].
      rewrite invocations_app, invocations_retriedEvents, Hinv, Ha. reflexivity.
Qed.

(** A session whose first [k - 1] attempts are retried, within the
    budget, comes to attempt [k] with the promise pending. *)
Lemma pRetry_comes_to (k : nat) :
  (1 <= k)%nat ->
  (forall j, (1 <= j < k)%nat -> retried input options (Z.of_nat j) = true) ->
  (k - 1 <= Z.to_nat (budget options))%nat ->
  exists (st : Session T) (fuel : nat),
    pRetry input options noAbort = attempts input options noAbort (S fuel) st
    /\ _attempts (operation st) = Z.of_nat k
    /\ promise st = None
    /\ invocations (trace st) = upto (k - 1).
Proof.
  intros Hk Hret Hbudget.
  pose proof (length_timeouts options) as HL.
  assert (Hstart : _attempts (operation (start (T := T) options)) = 1
                   /\ _timeouts (operation (start (T := T) options))
                      = timeouts (defaultedOptions options)
                   /\ promise (start (T := T) options) = None
                   /\ invocations (trace (start (T := T) options)) = []).
  { unfold start. destruct (m_signal (defaultedOptions options)) as [sg|]; cbn;
      [destruct (aborted sg); cbn|]; auto. }
  destruct Hstart as (Hat & Hts & Hpr & Hinv).
  destruct (attempts_prefix (k - 1)
              (S (List.length (timeouts (defaultedOptions options)) - (k - 1)))
              (start options) 1) as (st & tr & Hrun & Hat' & _ & Hpr' & Htr & Hinv').
  - exact Hat.
  - intros j Hj. apply Hret. lia.
  - rewrite Hts, HL. lia.
  - exists st, (List.length (timeouts (defaultedOptions options)) - (k - 1))%nat.
    split.
    + unfold pRetry. rewrite <- Hrun. f_equal. rewrite HL. lia.
    + split; [rewrite Hat'; f_equal; lia|].
      split; [congruence|].
      rewrite Htr, invocations_app, Hinv, Hinv'. reflexivity.
Qed.

(** A session that comes to attempt [k] and meets a fatal test there is
    rejected with the decorated value, straight after the call of the
    operation. *)
Lemma pRetry_fatal (k : nat) (error finalError : JsValue) :
  (1 <= k)%nat ->
  (k - 1 <= Z.to_nat (budget options))%nat ->
  (forall j, (1 <= j < k)%nat -> retried input options (Z.of_nat j) = true) ->
  input (Z.of_nat k) = Throws error ->
  fatal error = Some finalError ->
  exists before : list (Event T),
  trace (pRetry input options noAbort)
  = before ++ [EvInput (Z.of_nat k);
               EvReject (FailedAttemptErrorObj finalError (Z.of_nat k)
                           (budget options - (Z.of_nat k - 1)))]
  /\ invocations before = upto (k - 1)
  /\ promise (pRetry input options noAbort)
     = Some (Rejected (FailedAttemptErrorObj finalError (Z.of_nat k)
                         (budget options - (Z.of_nat k - 1)))).
Proof.
  intros Hk Hbudget Hret Hin Hfatal.
  destruct (pRetry_comes_to k Hk Hret Hbudget) as (st & fuel & Hrun & Hat & Hpr & Hinv).
  rewrite Hrun. rewrite <- Hat in Hin.
  rewrite (attempts_final fuel st _ (callback_fatal st _ error finalError Hin Hfatal) eq_refl).
  cbn [promise trace]. unfold firstSettlement. rewrite Hpr, Hat.
  exists (trace st). repeat split; auto.
Qed.

Lemma upto_last (k : nat) :
  (1 <= k)%nat -> upto (k - 1) ++ [Z.of_nat k] = upto k.
Proof.
  intros Hk. destruct k as [|k]; [lia|].
  rewrite upto_succ. cbn. rewrite Nat.sub_0_r. reflexivity.
Qed.

(** *** Which attempts take place *)

Lemma callback_predicate_throws (st : Session T) (n : Z) (error thrown : JsValue)
    (should : FailedAttemptError -> Outcome bool) :
  input n = Throws error ->
  candidate error = true ->
  m_shouldRetry (defaultedOptions options) = Some should ->
  should (decorateErrorWithCounts error n (defaultedOptions options)) = Throws thrown ->
  attemptCallback input options noAbort n st =
  (Normal tt,
   {| operation := operation_stop (operation st);
      promise := firstSettlement st
                   (Rejected (asValue (decorateErrorWithCounts thrown n
                                         (defaultedOptions options))));
      listener := cleanedListener st;
      signalNow := signalNow st;
      trace := trace st
               ++ [EvInput n;
                   EvShouldRetry (decorateErrorWithCounts error n (defaultedOptions options));
                   EvReject (asValue (decorateErrorWithCounts thrown n
                                        (defaultedOptions options)))] |}).
Proof.
  intros Hin Hcand Hsr Hthrow.
  destruct (candidate_tests _ Hcand) as (Herr & Hab & Hty).
  unfold attemptCallback, evaluate.
  remember (defaultedOptions options) as opts eqn:Eopts. clear Eopts.
  unfold tryCatch, bind, await, suspend, noAbort, emit, modify, gets, ret, throw,
    cleanUp, removeEventListener, stop, withOperation, withListener,
    reject, settle, firstSettlement, cleanedListener.
  rewrite Hin, Hsr. cbn.
  rewrite Herr, Hty. cbn.
  destruct error as [r | ty nm msg stk | orig msg | c a l | u]; try discriminate;
    cbn; rewrite Hthrow; cbn;
    destruct (signalNow st); cbn; rewrite <- ?app_assoc; reflexivity.
Qed.

(** An attempt that would be retried, with the budget used up. *)
Lemma callback_exhausted (st : Session T) (n : Z) (error : JsValue) :
  input n = Throws error ->
  retried input options n = true ->
  _timeouts (operation st) = [] ->
  exists (st' : Session T) (last : JsValue),
  attemptCallback input options noAbort n st = (Normal tt, st')
  /\ _timer (operation st') = false
  /\ promise st' = firstSettlement st (Rejected last)
  /\ trace st' = trace st ++ retriedEvents options n error ++ [EvReject last].
Proof.
  intros Hin Hret Hts.
  unfold retried in Hret. rewrite Hin in Hret.
  apply andb_prop in Hret. destruct Hret as [Hret Hobs].
  apply andb_prop in Hret. destruct Hret as [Hcand Happ].
  destruct (candidate_tests _ Hcand) as (Herr & Hab & Hty).
  unfold approves in Happ. unfold observes in Hobs.
  unfold attemptCallback, evaluate, retriedEvents.
  remember (defaultedOptions options) as opts eqn:Eopts. clear Eopts.
  unfold tryCatch, bind, await, suspend, noAbort, emit, modify, gets, ret, throw,
    cleanUp, removeEventListener, stop, withOperation, withListener,
    reject, settle, firstSettlement, retry, mainError, operation_retry.
  rewrite Hin. cbn.
  rewrite Herr, Hty. cbn.
  destruct error as [r | ty nm msg stk | orig msg | c a l | u]; try discriminate;
    cbn;
    destruct (m_shouldRetry opts) as [sr|];
    destruct (m_onFailedAttempt opts) as [ofa|]; cbn;
    repeat match goal with
      | H : context [match ?f ?x with Returns _ => _ | Throws _ => _ end] |- _ =>
          destruct (f x) as [[]|]; try discriminate
      end; cbn; rewrite ?Hts; cbn;
    destruct (promise st); destruct (signalNow st); cbn;
    eexists; eexists; (split; [reflexivity|]); cbn;
    rewrite <- ?app_assoc; cbn; auto.
Qed.

Lemma not_candidate_is_fatal (error : JsValue) :
  candidate error = false -> exists finalError, fatal error = Some finalError.
Proof.
  unfold candidate, fatal. intros H.
  destruct (instanceofError error) eqn:Herr; cbn in *; [|eauto].
  destruct error as [r | ty nm msg stk | orig msg | c a l | u]; cbn in *;
    try discriminate; eauto.
  destruct (ty && negb _); cbn in *; [eauto|discriminate].
Qed.

(** An attempt that is not retried, or comes with the budget used up, is
    the last one. *)
Lemma callback_last (st : Session T) (n : Z) :
  retried input options n = false \/ _timeouts (operation st) = [] ->
  exists st' : Session T,
  attemptCallback input options noAbort n st = (Normal tt, st')
  /\ _timer (operation st') = false
  /\ invocations (trace st') = invocations (trace st) ++ [n].
Proof.
  intros Hlast.
  destruct (input n) as [value|error] eqn:Hin.
  { eexists. split; [apply (callback_success st n value Hin)|].
    cbn [trace operation operation_stop _timer]. rewrite invocations_app.
      split; reflexivity. }
  destruct (candidate error) eqn:Hcand.
  2:{ destruct (not_candidate_is_fatal error Hcand) as [finalError Hfatal].
      eexists. split; [apply (callback_fatal st n error finalError Hin Hfatal)|].
      cbn [trace operation operation_stop _timer]. rewrite invocations_app.
      split; reflexivity. }
  destruct (approves options (decorateErrorWithCounts error n (defaultedOptions options)))
    eqn:Happ.
  2:{ unfold approves in Happ.
      destruct (m_shouldRetry (defaultedOptions options)) as [should|] eqn:Hsr;
        [|discriminate].
      destruct (should _) as [verdict|thrown] eqn:Hverdict.
      - subst verdict.
        destruct (callback_vetoed st n error should Hin Hcand Hsr Hverdict)
          as (st' & last & Hcb & Htimer & _ & Htr).
        exists st'. split; [exact Hcb|]. split; [exact Htimer|].
        rewrite Htr, !invocations_app.
        destruct (m_onFailedAttempt (defaultedOptions options)); cbn;
          rewrite ?app_nil_r; reflexivity.
      - eexists.
        split; [apply (callback_predicate_throws st n error thrown should
                         Hin Hcand Hsr Hverdict)|].
        cbn [trace operation operation_stop _timer]. rewrite invocations_app.
      split; reflexivity. }
  destruct (observes options (decorateErrorWithCounts error n (defaultedOptions options)))
    eqn:Hobs.
  2:{ unfold observes in Hobs.
      destruct (m_onFailedAttempt (defaultedOptions options)) as [onFailed|] eqn:Hofa;
        [|discriminate].
      destruct (onFailed _) as [[]|thrown] eqn:Hout; [discriminate|].
      eexists.
      split; [apply (callback_observer_throws st n error thrown onFailed
                       Hin Hcand Happ Hofa Hout)|].
      cbn [trace operation operation_stop _timer]. rewrite !invocations_app.
      destruct (m_shouldRetry (defaultedOptions options)); split; reflexivity. }
  assert (Hret : retried input options n = true).
  { unfold retried. rewrite Hin, Hcand, Happ, Hobs. reflexivity. }
  destruct Hlast as [Hno|Hts]; [congruence|].
  destruct (callback_exhausted st n error Hin Hret Hts)
    as (st' & last & Hcb & Htimer & _ & Htr).
  exists st'. split; [exact Hcb|]. split; [exact Htimer|].
  rewrite Htr, !invocations_app, invocations_retriedEvents. reflexivity.
Qed.

(** The operation is called for attempt [k] only if the attempts before
    it were retried, within the budget. *)
Lemma attempts_reached :
  forall (fuel : nat) (st : Session T) (a : nat) (k : Z),
  _attempts (operation st) = Z.of_nat a ->
  In k (invocations (trace (attempts input options noAbort fuel st))) ->
  In k (invocations (trace st))
  \/ exists k' : nat,
       k = Z.of_nat k'
       /\ (a <= k')%nat
       /\ (k' - a <= List.length (_timeouts (operation st)))%nat
       /\ forall j, (a <= j < k')%nat -> retried input options (Z.of_nat j) = true.
Proof.
  induction fuel as [|fuel IH]; intros st a k Ha Hin; [left; exact Hin|].
  assert (Hhere : forall tail,
            In k (invocations (trace st) ++ [Z.of_nat a] ++ tail) ->
            ~ In k tail ->
            In k (invocations (trace st))
            \/ exists k' : nat,
                 k = Z.of_nat k'
                 /\ (a <= k')%nat
                 /\ (k' - a <= List.length (_timeouts (operation st)))%nat
                 /\ forall j, (a <= j < k')%nat ->
                              retried input options (Z.of_nat j) = true).
  { intros tail H Hnot. apply in_app_or in H. destruct H as [H|H]; [left; exact H|].
    apply in_app_or in H. destruct H as [[H|[]]|H]; [|contradiction].
    right. exists a. repeat split; try lia; auto. }
  destruct (retried input options (_attempts (operation st))) eqn:Hret.
  - destruct (_timeouts (operation st)) as [|d ts] eqn:Hts.
    + destruct (callback_last st (_attempts (operation st)) (or_intror Hts)) as (st' & Hcb & Htimer & Hinv).
      rewrite (attempts_final fuel st st' Hcb Htimer), Hinv, Ha in Hin.
      apply (Hhere []); [exact Hin|auto].
    + destruct (input (_attempts (operation st))) as [value|error] eqn:Hinput.
      { unfold retried in Hret. rewrite Hinput in Hret. discriminate. }
      rewrite (attempts_retried fuel st error d ts Hinput Hret Hts) in Hin.
      match type of Hin with context [attempts _ _ _ _ ?s] => set (st1 := s) in * end.
      destruct (IH st1 (S a) k) as [Hold|(k' & Hk & Hle & Hlen & Hall)].
      * subst st1. cbn. rewrite Ha. lia.
      * exact Hin.
      * subst st1. cbn [trace] in Hold.
        rewrite invocations_app, invocations_retriedEvents, Ha in Hold.
        apply (Hhere []); [exact Hold|auto].
      * right. exists k'. subst st1. cbn in Hlen. cbn [List.length].
        repeat split; try lia.
        intros j Hj. destruct (Nat.eq_dec j a) as [->|Hne].
        -- rewrite <- Ha. exact Hret.
        -- apply Hall. lia.
  - destruct (callback_last st (_attempts (operation st)) (or_introl Hret)) as (st' & Hcb & Htimer & Hinv).
    rewrite (attempts_final fuel st st' Hcb Htimer), Hinv, Ha in Hin.
    apply (Hhere []); [exact Hin|auto].
Qed.

Lemma pRetry_reached (k : nat) :
  In (Z.of_nat k) (invocations (trace (pRetry input options noAbort))) ->
  (1 <= k)%nat
  /\ (k - 1 <= Z.to_nat (budget options))%nat
  /\ forall j, (1 <= j < k)%nat -> retried input options (Z.of_nat j) = true.
Proof.
  intros Hin. unfold pRetry in Hin.
  assert (Hstart : _attempts (operation (start (T := T) options)) = 1
                   /\ _timeouts (operation (start (T := T) options))
                      = timeouts (defaultedOptions options)
                   /\ invocations (trace (start (T := T) options)) = []).
  { unfold start. destruct (m_signal (defaultedOptions options)) as [sg|]; cbn;
      [destruct (aborted sg); cbn|]; auto. }
  destruct Hstart as (Hat & Hts & Hinv).
  destruct (attempts_reached _ (start options) 1 (Z.of_nat k) Hat Hin)
    as [Hold|(k' & Hk & Hle & Hlen & Hall)].
  - rewrite Hinv in Hold. contradiction.
  - apply Nat2Z.inj in Hk. subst k'.
    rewrite Hts, length_timeouts in Hlen. auto.
Qed.

End Uncancelled.

(** ** Sessions without cancellation: the claims *)





(** The test [retries]: two rejections, then the fixture on the third
    attempt, with the default options; onFailedAttempt sees
    [retriesLeft] 10, then 9. *)
Example retries_test :
  let session := pRetry failsTwice noOptions noAbort in
  promise session = Some (Resolved fixture)
  /\ trace session
     = [EvInput 1;
        EvShouldRetry (mkFailedAttemptError fixtureError 1 10);
        EvOnFailedAttempt (mkFailedAttemptError fixtureError 1 10);
        EvInput 2;
        EvShouldRetry (mkFailedAttemptError fixtureError 2 9);
        EvOnFailedAttempt (mkFailedAttemptError fixtureError 2 9);
        EvInput 3;
        EvResolve fixture].
Proof. split; reflexivity. Qed.

(** C5, what the code does: when the operation throws an abort marker
    on attempt k, exactly k invocations occur whatever is left of the
    budget, and neither shouldRetry nor onFailedAttempt is called for
    that attempt (the call of the operation is followed by reject at
    once), as the claim says; but the promise rejects with a new
    FailedAttemptError for attempt k whose cause is the error wrapped by
    the abort marker, and not with that error, which the test [aborts]
    of the repository expects. *)
Theorem C5_abort_marker_rejects_decorated {T : Type} (input : Z -> Outcome T)
    (options : Options) (k : nat) (originalError : JsValue) (message : string) :
  In (Z.of_nat k) (invocations (trace (pRetry input options noAbort))) ->
  input (Z.of_nat k) = Throws (AbortErrorObj originalError message) ->
  invocations (trace (pRetry input options noAbort)) = upto k
  /\ promise (pRetry input options noAbort)
     = Some (Rejected (FailedAttemptErrorObj originalError (Z.of_nat k)
                         (budget options - (Z.of_nat k - 1))))
  /\ exists before : list (Event T),
       trace (pRetry input options noAbort)
       = before ++ [EvInput (Z.of_nat k);
                    EvReject (FailedAttemptErrorObj originalError (Z.of_nat k)
                                (budget options - (Z.of_nat k - 1)))]
       /\ invocations before = upto (k - 1).
Proof.
  intros Hreach Hin.
  destruct (pRetry_reached input options k Hreach) as (Hk & Hbudget & Hret).
  destruct (pRetry_fatal input options k _ originalError Hk Hbudget Hret Hin eq_refl)
    as (before & Htr & Hinv & Hpr).
  split; [|split; [exact Hpr|exists before; auto]].
  rewrite Htr, invocations_app, Hinv. cbn. apply upto_last, Hk.
Qed.

Lemma C5_abort_marker_rejects_decorated_witness :
  invocations (trace (pRetry abortsOnThird noOptions noAbort)) = upto 3
  /\ promise (pRetry abortsOnThird noOptions noAbort)
     = Some (Rejected (FailedAttemptErrorObj fixtureError 3 (budget noOptions - (3 - 1))))
  /\ exists before : list (Event string),
       trace (pRetry abortsOnThird noOptions noAbort)
       = before ++ [EvInput 3;
                    EvReject (FailedAttemptErrorObj fixtureError 3
                                (budget noOptions - (3 - 1)))]
       /\ invocations before = upto (3 - 1).
Proof.
  apply (C5_abort_marker_rejects_decorated abortsOnThird noOptions 3 fixtureError "fixture").
  - vm_compute. right. right. left. reflexivity.
  - reflexivity.
Defined.

(** C5 at the failing input: in the test [aborts] of the repository, which
    expects the rejection to be [fixtureError], the error wrapped by the
    abort marker, the session rejects with a FailedAttemptError around
    it. *)
Lemma C5_rejection_is_not_the_wrapped_error :
  abortsOnThird 3 = Throws (AbortErrorObj fixtureError "fixture")
  /\ promise (pRetry abortsOnThird noOptions noAbort)
     = Some (Rejected (FailedAttemptErrorObj fixtureError 3 8))
  /\ promise (pRetry abortsOnThird noOptions noAbort) <> Some (Rejected fixtureError).
Proof.
  split; [reflexivity|]. split; [reflexivity|].
  vm_compute. discriminate.
Qed.

(** C6, amended: in a session without cancellation, when the operation
    throws a value that is not an Error object and that converts to a
    string, it is invoked exactly once, nothing is retried, and the
    promise rejects with an error whose message is
    [Non-error was thrown: "<value>". You should only throw errors.],
    which starts with [Non-error]. *)
Theorem C6_non_error_is_fatal {T : Type} (input : Z -> Outcome T) (options : Options)
    (error : JsValue) (text : string) :
  instanceofError error = false ->
  toString error = Returns text ->
  input 1 = Throws error ->
  invocations (trace (pRetry input options noAbort)) = [1]
  /\ exists rejection : JsValue,
       promise (pRetry input options noAbort) = Some (Rejected rejection)
       /\ message_of rejection
          = ("Non-error was thrown: " ++ doubleQuote ++ text ++ doubleQuote
             ++ ". You should only throw errors.")%string
       /\ String.prefix "Non-error" (message_of rejection) = true.
Proof.
  intros Herr Htext Hin.
  assert (Hfatal : fatal error
                   = Some (newTypeError
                             ("Non-error was thrown: " ++ doubleQuote ++ text
                              ++ doubleQuote ++ ". You should only throw errors."))).
  { unfold fatal, nonErrorMessage. rewrite Herr, Htext. reflexivity. }
  destruct (pRetry_fatal input options 1 error _ ltac:(lia) ltac:(lia)
              ltac:(intros j Hj; lia) Hin Hfatal)
    as (before & Htr & Hinv & Hpr).
  split.
  - rewrite Htr, invocations_app, Hinv. reflexivity.
  - eexists. split; [exact Hpr|]. split; reflexivity.
Qed.

Lemma C6_non_error_is_fatal_witness :
  invocations (trace (pRetry throwsFoo noOptions noAbort)) = [1]
  /\ exists rejection : JsValue,
       promise (pRetry throwsFoo noOptions noAbort) = Some (Rejected rejection)
       /\ message_of rejection
          = ("Non-error was thrown: " ++ doubleQuote ++ "foo" ++ doubleQuote
             ++ ". You should only throw errors.")%string
       /\ String.prefix "Non-error" (message_of rejection) = true.
Proof.
  apply (C6_non_error_is_fatal throwsFoo noOptions (NonError "foo") "foo");
    reflexivity.
Defined.

(** C6 as stated fails: a Symbol is not an Error object, and thrown by
    the operation it makes the interpolation of line 146 throw the
    engine's TypeError, which the outer catch decorates: the message of
    the rejection holds no [Non-error].  And under an abort that comes
    while the operation runs the promise is rejected with the reason of
    the abort before the thrown value is looked at. *)
Lemma C6_symbol_has_no_non_error_message :
  instanceofError (Unrenderable symbolConversionError) = false
  /\ invocations (trace (pRetry throwsSymbol noOptions noAbort)) = [1]
  /\ promise (pRetry throwsSymbol noOptions noAbort)
     = Some (Rejected (FailedAttemptErrorObj symbolConversionError 1 10))
  /\ String.index 0 "Non-error"
       (message_of (FailedAttemptErrorObj symbolConversionError 1 10)) = None
  /\ promise (pRetry throwsFoo liveSignal abortDuringFirst)
     = Some (Rejected (NonError "cancelled"))
  /\ String.index 0 "Non-error" (message_of (NonError "cancelled")) = None.
Proof. repeat split; reflexivity. Qed.

Lemma unrecognized_is_not_network (error : JsValue) :
  errorMessages_has (message_of error) = false -> isNetworkError error = false.
Proof.
  intros Hmsg. unfold isNetworkError.
  destruct (negb _); [reflexivity|].
  destruct (String.eqb_spec (message_of error) "Load failed") as [Heq|]; [|exact Hmsg].
  rewrite Heq in Hmsg. discriminate.
Qed.

(** C7: when the operation throws a TypeError whose message is none of
    the recognized network-failure messages, it is invoked exactly once and
    the session rejects, whatever the retry budget. *)
Theorem C7_type_error_is_fatal {T : Type} (input : Z -> Outcome T) (options : Options)
    (error : JsValue) :
  instanceofTypeError error = true ->
  errorMessages_has (message_of error) = false ->
  input 1 = Throws error ->
  invocations (trace (pRetry input options noAbort)) = [1]
  /\ exists rejection : JsValue,
       promise (pRetry input options noAbort) = Some (Rejected rejection).
Proof.
  intros Hty Hmsg Hin.
  assert (Hfatal : fatal error = Some error).
  { unfold fatal. rewrite Hty, (unrecognized_is_not_network error Hmsg).
    destruct error; try discriminate. reflexivity. }
  destruct (pRetry_fatal input options 1 error error) as (before & Htr & Hinv & Hpr);
    auto; try lia.
  split.
  - rewrite Htr, invocations_app, Hinv. reflexivity.
  - eexists. exact Hpr.
Qed.

Lemma C7_type_error_is_fatal_witness :
  invocations (trace (pRetry typeErrorUntilThird noOptions noAbort)) = [1]
  /\ exists rejection : JsValue,
       promise (pRetry typeErrorUntilThird noOptions noAbort) = Some (Rejected rejection).
Proof.
  apply (C7_type_error_is_fatal typeErrorUntilThird noOptions typeErrorFixture);
    reflexivity.
Defined.

(** C4, what the code does: when shouldRetry has let attempt k pass
    and onFailedAttempt throws on it, no further attempt is made and the
    error of attempt k is no part of the rejection, as the claim says;
    but the promise rejects with a new FailedAttemptError for attempt k
    whose cause is the value thrown by onFailedAttempt, and not with that
    value, which the docstring of [onFailedAttempt] promises (the
    promise will reject with the thrown error). *)
Theorem C4_observer_error_rejects_decorated {T : Type} (input : Z -> Outcome T)
    (options : Options) (k : nat) (error thrown : JsValue)
    (onFailed : FailedAttemptError -> Outcome unit) :
  In (Z.of_nat k) (invocations (trace (pRetry input options noAbort))) ->
  input (Z.of_nat k) = Throws error ->
  candidate error = true ->
  approves options (decorateErrorWithCounts error (Z.of_nat k) (defaultedOptions options))
  = true ->
  m_onFailedAttempt (defaultedOptions options) = Some onFailed ->
  onFailed (decorateErrorWithCounts error (Z.of_nat k) (defaultedOptions options))
  = Throws thrown ->
  invocations (trace (pRetry input options noAbort)) = upto k
  /\ promise (pRetry input options noAbort)
     = Some (Rejected (FailedAttemptErrorObj thrown (Z.of_nat k)
                         (budget options - (Z.of_nat k - 1)))).
Proof.
  intros Hreach Hin Hcand Happ Hofa Hthrow.
  destruct (pRetry_reached input options k Hreach) as (Hk & Hbudget & Hret).
  destruct (pRetry_comes_to input options k Hk Hret Hbudget)
    as (st & fuel & Hrun & Hat & Hpr & Hinv).
  rewrite Hrun. rewrite <- Hat in Hin, Happ, Hthrow.
  rewrite (attempts_final input options fuel st _
             (callback_observer_throws input options st _ error thrown onFailed
                Hin Hcand Happ Hofa Hthrow) eq_refl).
  cbn [promise trace]. unfold firstSettlement. rewrite Hpr, Hat.
  split; [|reflexivity].
  rewrite !invocations_app, Hinv.
  destruct (m_shouldRetry (defaultedOptions options)); cbn; apply upto_last, Hk.
Qed.

Lemma C4_observer_error_rejects_decorated_witness :
  invocations (trace (pRetry alwaysFails throwingObserver noAbort)) = upto 1
  /\ promise (pRetry alwaysFails throwingObserver noAbort)
     = Some (Rejected (FailedAttemptErrorObj observerError 1
                         (budget throwingObserver - (1 - 1)))).
Proof.
  apply (C4_observer_error_rejects_decorated alwaysFails throwingObserver 1
           fixtureError observerError (fun _ => Throws observerError)).
  - vm_compute. left. reflexivity.
  - reflexivity.
  - reflexivity.
  - reflexivity.
  - reflexivity.
  - reflexivity.
Defined.

(** C4 at the failing input: onFailedAttempt throws [observerError] on
    the first attempt and the promise rejects with a FailedAttemptError
    around it, not with [observerError]. *)
Lemma C4_rejection_is_not_the_thrown_value :
  trace (pRetry alwaysFails throwingObserver noAbort)
  = [EvInput 1;
     EvShouldRetry (mkFailedAttemptError fixtureError 1 10);
     EvOnFailedAttempt (mkFailedAttemptError fixtureError 1 10);
     EvReject (FailedAttemptErrorObj observerError 1 10)]
  /\ promise (pRetry alwaysFails throwingObserver noAbort)
     = Some (Rejected (FailedAttemptErrorObj observerError 1 10))
  /\ promise (pRetry alwaysFails throwingObserver noAbort)
     <> Some (Rejected observerError).
Proof.
  split; [reflexivity|]. split; [reflexivity|].
  vm_compute. discriminate.
Qed.

(** C1, what the code does: when shouldRetry returns false for attempt
    k, the operation has been invoked exactly k times and the promise
    rejects with the error of attempt k as it was thrown; but the code goes
    on after the veto, and onFailedAttempt, when there is one, is called
    with the record of attempt k after that rejection. *)
Theorem C1_veto_is_followed_by_onFailedAttempt {T : Type} (input : Z -> Outcome T)
    (options : Options) (k : nat) (error : JsValue)
    (should : FailedAttemptError -> Outcome bool)
    (onFailed : FailedAttemptError -> Outcome unit) :
  In (Z.of_nat k) (invocations (trace (pRetry input options noAbort))) ->
  input (Z.of_nat k) = Throws error ->
  candidate error = true ->
  m_shouldRetry (defaultedOptions options) = Some should ->
  should (decorateErrorWithCounts error (Z.of_nat k) (defaultedOptions options))
  = Returns false ->
  m_onFailedAttempt (defaultedOptions options) = Some onFailed ->
  invocations (trace (pRetry input options noAbort)) = upto k
  /\ promise (pRetry input options noAbort) = Some (Rejected error)
  /\ exists (before : list (Event T)) (last : JsValue),
       trace (pRetry input options noAbort)
       = before
         ++ [EvInput (Z.of_nat k);
             EvShouldRetry (decorateErrorWithCounts error (Z.of_nat k)
                              (defaultedOptions options));
             EvReject error;
             EvOnFailedAttempt (decorateErrorWithCounts error (Z.of_nat k)
                                  (defaultedOptions options));
             EvReject last].
Proof.
  intros Hreach Hin Hcand Hsr Hveto Hofa.
  destruct (pRetry_reached input options k Hreach) as (Hk & Hbudget & Hret).
  destruct (pRetry_comes_to input options k Hk Hret Hbudget)
    as (st & fuel & Hrun & Hat & Hpr & Hinv).
  rewrite Hrun. rewrite <- Hat in Hin, Hveto.
  destruct (callback_vetoed input options st _ error should Hin Hcand Hsr Hveto)
    as (st' & last & Hcb & Htimer & Hpr' & Htr).
  rewrite (attempts_final input options fuel st st' Hcb Htimer).
  rewrite Hofa in Htr. rewrite Htr, Hpr'. unfold firstSettlement. rewrite Hpr, Hat.
  split; [|split; [reflexivity|]].
  - rewrite !invocations_app, Hinv. cbn. apply upto_last, Hk.
  - exists (trace st), last. reflexivity.
Qed.

Lemma C1_veto_is_followed_by_onFailedAttempt_witness :
  invocations (trace (pRetry alwaysFails vetoing noAbort)) = upto 1
  /\ promise (pRetry alwaysFails vetoing noAbort) = Some (Rejected fixtureError)
  /\ exists (before : list (Event string)) (last : JsValue),
       trace (pRetry alwaysFails vetoing noAbort)
       = before
         ++ [EvInput 1;
             EvShouldRetry (decorateErrorWithCounts fixtureError 1 (defaultedOptions vetoing));
             EvReject fixtureError;
             EvOnFailedAttempt (decorateErrorWithCounts fixtureError 1
                                  (defaultedOptions vetoing));
             EvReject last].
Proof.
  apply (C1_veto_is_followed_by_onFailedAttempt alwaysFails vetoing 1 fixtureError
           (fun _ => Returns false) (fun _ => Returns tt)).
  - vm_compute. left. reflexivity.
  - reflexivity.
  - reflexivity.
  - reflexivity.
  - reflexivity.
  - reflexivity.
Defined.

(** The veto wins over what follows it: when onFailedAttempt throws after
    a veto, the promise has been rejected with the error of the attempt
    already. *)
Example veto_then_observer_throws :
  promise (pRetry alwaysFails
             {| onFailedAttempt := Present (fun _ => Throws observerError);
                shouldRetry := Present (fun _ => Returns false);
                signal := Absent; retries := Absent |}
             noAbort)
  = Some (Rejected fixtureError).
Proof. reflexivity. Qed.

(** ** Reasoning about sessions with cancellation *)

Lemma triple_ret {T A : Type} (P : Session T -> Prop) (a : A)
    (Q : A -> Session T -> Prop) (E : JsValue -> Session T -> Prop) :
  (forall st, P st -> Q a st) -> triple P (ret a) Q E.
Proof. intros H st HP. cbn. auto. Qed.

Lemma triple_throw {T A : Type} (P : Session T -> Prop) (thrown : JsValue)
    (Q : A -> Session T -> Prop) (E : JsValue -> Session T -> Prop) :
  (forall st, P st -> E thrown st) -> triple P (@throw T A thrown) Q E.
Proof. intros H st HP. cbn. auto. Qed.

Lemma triple_bind {T A B : Type} (P : Session T -> Prop) (m : M T A) (k : A -> M T B)
    (R : A -> Session T -> Prop) (Q : B -> Session T -> Prop)
    (E : JsValue -> Session T -> Prop) :
  triple P m R E ->
  (forall a, triple (R a) (k a) Q E) ->
  triple P (bind m k) Q E.
Proof.
  intros Hm Hk st HP. unfold bind. specialize (Hm st HP).
  destruct (m st) as [[a|thrown] st']; [apply (Hk a st' Hm)|exact Hm].
Qed.

Lemma triple_tryCatch {T A : Type} (P : Session T -> Prop) (body : M T A)
    (handler : JsValue -> M T A) (R : JsValue -> Session T -> Prop)
    (Q : A -> Session T -> Prop) (E : JsValue -> Session T -> Prop) :
  triple P body Q R ->
  (forall thrown, triple (R thrown) (handler thrown) Q E) ->
  triple P (tryCatch body handler) Q E.
Proof.
  intros Hb Hh st HP. unfold tryCatch. specialize (Hb st HP).
  destruct (body st) as [[a|thrown] st']; [exact Hb|apply (Hh thrown st' Hb)].
Qed.

Lemma triple_modify {T : Type} (P : Session T -> Prop) (f : Session T -> Session T)
    (Q : unit -> Session T -> Prop) (E : JsValue -> Session T -> Prop) :
  (forall st, P st -> Q tt (f st)) -> triple P (modify f) Q E.
Proof. intros H st HP. cbn. auto. Qed.

Lemma triple_gets {T A : Type} (P : Session T -> Prop) (f : Session T -> A)
    (Q : A -> Session T -> Prop) (E : JsValue -> Session T -> Prop) :
  (forall st, P st -> Q (f st) st) -> triple P (gets f) Q E.
Proof. intros H st HP. cbn. auto. Qed.

Lemma triple_weaken {T A : Type} (P P' : Session T -> Prop) (m : M T A)
    (Q Q' : A -> Session T -> Prop) (E E' : JsValue -> Session T -> Prop) :
  triple P' m Q' E' ->
  (forall st, P st -> P' st) ->
  (forall a st, Q' a st -> Q a st) ->
  (forall thrown st, E' thrown st -> E thrown st) ->
  triple P m Q E.
Proof.
  intros Hm HP HQ HE st Hst. specialize (Hm st (HP st Hst)).
  destruct (m st) as [[a|thrown] st']; auto.
Qed.

Lemma preserves_ret {T A : Type} (I : Session T -> Prop) (a : A) :
  preserves I (@ret T A a).
Proof. apply triple_ret. auto. Qed.

Lemma preserves_throw {T A : Type} (I : Session T -> Prop) (thrown : JsValue) :
  preserves I (@throw T A thrown).
Proof. apply triple_throw. auto. Qed.

Lemma preserves_gets {T A : Type} (I : Session T -> Prop) (f : Session T -> A) :
  preserves I (gets f).
Proof. apply triple_gets. auto. Qed.

Lemma preserves_bind {T A B : Type} (I : Session T -> Prop) (m : M T A) (k : A -> M T B) :
  preserves I m -> (forall a, preserves I (k a)) -> preserves I (bind m k).
Proof. intros Hm Hk. eapply triple_bind; [exact Hm|exact Hk]. Qed.

Lemma preserves_tryCatch {T A : Type} (I : Session T -> Prop) (body : M T A)
    (handler : JsValue -> M T A) :
  preserves I body -> (forall thrown, preserves I (handler thrown)) ->
  preserves I (tryCatch body handler).
Proof. intros Hb Hh. eapply triple_tryCatch; [exact Hb|exact Hh]. Qed.

Lemma preserves_modify {T : Type} (I : Session T -> Prop) (f : Session T -> Session T) :
  (forall st, I st -> I (f st)) -> preserves I (modify f).
Proof. intros H. apply triple_modify. exact H. Qed.

Lemma preserves_triple {T A : Type} (I : Session T -> Prop) (m : M T A) :
  preserves I m -> triple I m (fun _ => I) (fun _ => I).
Proof. intros H. exact H. Qed.

Lemma preserves_snd {T A : Type} (I : Session T -> Prop) (m : M T A) (st : Session T) :
  preserves I m -> I st -> I (snd (m st)).
Proof.
  intros Hm HI. specialize (Hm st HI). destruct (m st) as [[a|thrown] st']; exact Hm.
Qed.

(** Walks through a statement, leaving its state updates to [leaf]. *)
Ltac preserve leaf :=
  cbv beta zeta;
  lazymatch goal with
  | |- preserves _ (bind _ _) =>
      first [ solve [leaf]
            | apply preserves_bind; [preserve leaf | intros ?; preserve leaf] ]
  | |- preserves _ (tryCatch _ _) =>
      apply preserves_tryCatch; [preserve leaf | intros ?; preserve leaf]
  | |- preserves _ (ret _) => apply preserves_ret
  | |- preserves _ (throw _) => apply preserves_throw
  | |- preserves _ (gets _) => apply preserves_gets
  | |- preserves _ (if ?b then _ else _) => destruct b; preserve leaf
  | |- preserves _ (match ?x with _ => _ end) => destruct x; preserve leaf
  | |- preserves _ (attemptCallback _ _ _ _) => unfold attemptCallback; preserve leaf
  | |- preserves _ (evaluate _ _ _ _) => unfold evaluate; preserve leaf
  | |- preserves _ (await _ _ _ _) => unfold await; preserve leaf
  | |- preserves _ (suspend _ _) =>
      unfold suspend; cbv beta iota delta [noAbort]; preserve leaf
  | |- preserves _ (controllerAbort _) => unfold controllerAbort; preserve leaf
  | |- preserves _ abortHandler => unfold abortHandler; preserve leaf
  | |- preserves _ cleanUp => unfold cleanUp; preserve leaf
  | |- preserves _ removeEventListener => unfold removeEventListener; preserve leaf
  | |- preserves _ (retry _) => first [solve [leaf] | unfold retry; preserve leaf]
  | |- preserves _ mainError => unfold mainError; preserve leaf
  | |- preserves _ signalReason => unfold signalReason; preserve leaf
  | |- preserves _ (resolve _) => first [solve [leaf] | unfold resolve; preserve leaf]
  | |- preserves _ (reject _) => first [solve [leaf] | unfold reject; preserve leaf]
  | |- preserves _ stop => first [solve [leaf] | unfold stop; preserve leaf]
  | |- _ => solve [leaf]
  end.

(** Runs the state updates of a statement on the state at hand. *)
Ltac run_updates :=
  unfold suspend, controllerAbort, abortHandler, cleanUp, removeEventListener,
    addEventListener, signalReason, mainError, retry, stop, resolve, reject,
    settle, emit, withSignal, withListener, withOperation, modify, gets,
    tryCatch, bind, ret, throw;
  cbn.

(** *** The trace only grows *)

Ltac extends_leaf :=
  apply preserves_modify; intros ? [more Hmore]; cbn;
  first [ eexists; rewrite Hmore, <- app_assoc; reflexivity
        | exists more; exact Hmore ].

Lemma callback_extends {T : Type} (input : Z -> Outcome T) (options : Options)
    (aborts : Aborts) (n : Z) (events : list (Event T)) :
  preserves (extends events) (attemptCallback input options aborts n).
Proof.
  preserve extends_leaf.
Qed.

(** An invariant of the callback, of the suspension and of the timer's
    firing is an invariant of the session. *)
Lemma attempts_preserves {T : Type} (input : Z -> Outcome T) (options : Options)
    (aborts : Aborts) (I : Session T -> Prop) :
  (forall n, preserves I (attemptCallback input options aborts n)) ->
  (forall point, preserves I (@suspend T aborts point)) ->
  preserves I (@withOperation T operation_fire) ->
  forall (fuel : nat) (st : Session T), I st -> I (attempts input options aborts fuel st).
Proof.
  intros Hcb Hsus Hfire. induction fuel as [|fuel IH]; intros st HI; [exact HI|].
  simpl attempts.
  set (n := _attempts (operation st)).
  pose proof (preserves_snd I _ st (Hcb n) HI) as H1.
  set (st1 := snd (attemptCallback input options aborts n st)) in *.
  destruct (_timer (operation st1)); [|exact H1].
  pose proof (preserves_snd I _ st1 (Hsus (AwaitTimer n)) H1) as H2.
  set (st2 := snd (suspend aborts (AwaitTimer n) st1)) in *.
  destruct (_timer (operation st2)); [|exact H2].
  apply IH. apply (preserves_snd I _ st2 Hfire H2).
Qed.

(** *** The promise holds the first call of resolve or reject *)

Lemma firstCall_app {T : Type} (a b : list (Event T)) :
  firstCall (a ++ b) = match firstCall a with Some s => Some s | None => firstCall b end.
Proof.
  induction a as [|ev a IH]; cbn; [reflexivity|].
  destruct (settlementOf ev); [reflexivity|exact IH].
Qed.

Lemma settledByFirstCall_resolve {T : Type} (value : T) :
  preserves settledByFirstCall (resolve value).
Proof.
  intros st H. unfold settledByFirstCall in *. cbn.
  rewrite firstCall_app, <- H. destruct (promise st); reflexivity.
Qed.

Lemma settledByFirstCall_reject {T : Type} (error : JsValue) :
  preserves (@settledByFirstCall T) (reject error).
Proof.
  intros st H. unfold settledByFirstCall in *. cbn.
  rewrite firstCall_app, <- H. destruct (promise st); reflexivity.
Qed.

Ltac settledByFirstCall_leaf :=
  first [ apply settledByFirstCall_resolve
        | apply settledByFirstCall_reject
        | apply preserves_modify; unfold settledByFirstCall; intros ? Hinv; cbn;
          rewrite ?firstCall_app, <- ?Hinv; cbn;
          match goal with
          | |- ?p = match ?p with _ => _ end => destruct p; reflexivity
          | |- _ => reflexivity
          end ].

Lemma callback_settledByFirstCall {T : Type} (input : Z -> Outcome T) (options : Options)
    (aborts : Aborts) (n : Z) :
  preserves settledByFirstCall (attemptCallback input options aborts n).
Proof.
  preserve settledByFirstCall_leaf.
Qed.

Lemma suspend_settledByFirstCall {T : Type} (aborts : Aborts) (point : SuspensionPoint) :
  preserves (@settledByFirstCall T) (suspend aborts point).
Proof.
  preserve settledByFirstCall_leaf.
Qed.

Lemma start_settledByFirstCall {T : Type} (options : Options) :
  settledByFirstCall (@start T options).
Proof.
  unfold start, settledByFirstCall.
  destruct (m_signal (defaultedOptions options)) as [sg|]; [destruct (aborted sg)|];
    reflexivity.
Qed.

Lemma pRetry_settledByFirstCall {T : Type} (input : Z -> Outcome T) (options : Options)
    (aborts : Aborts) :
  settledByFirstCall (pRetry input options aborts).
Proof.
  unfold pRetry. apply (attempts_preserves input options aborts settledByFirstCall).
  - intros n. apply callback_settledByFirstCall.
  - intros point. apply suspend_settledByFirstCall.
  - settledByFirstCall_leaf.
  - apply start_settledByFirstCall.
Qed.

(** *** Every session settles *)

Lemma retry_withinTimeouts {T : Type} (N : nat) (err : JsValue) :
  triple (@withinTimeouts T N) (retry err)
    (fun permitted st => if permitted then armed N st else withinTimeouts N st)
    (fun _ => withinTimeouts N).
Proof.
  intros st H. unfold withinTimeouts, armed in *. run_updates. unfold operation_retry.
  destruct (_timeouts (operation st)) as [|d ts]; cbn in *; [lia|split; [reflexivity|lia]].
Qed.

Lemma retry_preserves_withinTimeouts {T : Type} (N : nat) (err : JsValue) :
  preserves (@withinTimeouts T N) (retry err).
Proof.
  eapply triple_weaken; [apply (retry_withinTimeouts N) | auto | | auto].
  intros [|] st; unfold armed, withinTimeouts; [lia|auto].
Qed.

Ltac withinTimeouts_leaf :=
  first [ apply retry_preserves_withinTimeouts
        | apply preserves_modify; unfold withinTimeouts; intros ? Hinv; cbn in *; lia ].

Lemma cleanUp_then_resolve {T : Type} (P : Session T -> Prop) (value : T) :
  triple P (cleanUp ;; resolve value) (fun _ => settledAndDisarmed) (fun _ _ => False).
Proof.
  intros st _. unfold settledAndDisarmed. run_updates.
  destruct (signalNow st); cbn; destruct (promise st); cbn; split; congruence.
Qed.

Lemma cleanUp_then_reject {T : Type} (P : Session T -> Prop) (error : JsValue) :
  triple P (cleanUp ;; reject error) (fun _ => @settledAndDisarmed T) (fun _ _ => False).
Proof.
  intros st _. unfold settledAndDisarmed. run_updates.
  destruct (signalNow st); cbn; destruct (promise st); cbn; split; congruence.
Qed.

(** The inner [try] block returns only when [retry] has armed the timer. *)
Lemma evaluate_returns_armed {T : Type} (options : Options) (aborts : Aborts)
    (error : JsValue) (n : Z) (N : nat) :
  triple (@withinTimeouts T N) (evaluate options aborts error n)
    (fun _ => armed N) (fun _ => withinTimeouts N).
Proof.
  unfold evaluate. cbv zeta.
  do 5 (eapply triple_bind with (R := fun _ => withinTimeouts N);
        [apply preserves_triple; preserve withinTimeouts_leaf | intros _]).
  eapply triple_bind; [apply retry_withinTimeouts|].
  intros [|] st H; cbn; exact H.
Qed.

Lemma callback_settles_or_arms {T : Type} (input : Z -> Outcome T) (options : Options)
    (aborts : Aborts) (n : Z) (N : nat) :
  triple (@withinTimeouts T N) (attemptCallback input options aborts n)
    (fun _ => settledOrArmed N) (fun _ _ => False).
Proof.
  unfold attemptCallback.
  eapply triple_tryCatch with (R := fun _ => withinTimeouts N).
  - eapply triple_bind with (R := fun _ => withinTimeouts N).
    + apply preserves_triple. preserve withinTimeouts_leaf.
    + intros value.
      eapply triple_weaken; [apply (cleanUp_then_resolve (withinTimeouts N))| | |];
        cbn; auto; [left; assumption|contradiction].
  - intros error.
    eapply triple_tryCatch with (R := fun _ => withinTimeouts N).
    + eapply triple_weaken; [apply evaluate_returns_armed| | |]; cbn; eauto.
      intros _ st H. right. exact H.
    + intros finalError. cbv zeta.
      eapply triple_weaken; [apply (cleanUp_then_reject (withinTimeouts N))| | |];
        cbn; auto. left. assumption.
Qed.

(** While the session waits for the timer, either nothing happens or
    [abortHandler] disarms the timer and rejects. *)
Lemma timer_settles_or_stays_armed {T : Type} (aborts : Aborts) (point : SuspensionPoint)
    (N : nat) :
  triple (@armed T N) (suspend aborts point) (fun _ => settledOrArmed N) (fun _ _ => False).
Proof.
  intros st [Htimer Hlen]. unfold suspend.
  destruct (aborts point) as [r|]; [|right; split; assumption].
  unfold settledOrArmed, settledAndDisarmed, armed. run_updates.
  destruct (signalNow st) as [sg|]; cbn; [|right; split; assumption].
  destruct (aborted sg); cbn; [right; split; assumption|].
  destruct (listener st); cbn; [|right; split; assumption].
  left. destruct (promise st); split; congruence.
Qed.

Lemma attempts_settle {T : Type} (input : Z -> Outcome T) (options : Options)
    (aborts : Aborts) :
  forall (fuel : nat) (st : Session T),
    (List.length (_timeouts (operation st)) < fuel)%nat ->
    promise (attempts input options aborts fuel st) <> None.
Proof.
  induction fuel as [|fuel IH]; intros st Hlen; [lia|].
  simpl attempts.
  set (n := _attempts (operation st)).
  pose proof (callback_settles_or_arms input options aborts n
                (List.length (_timeouts (operation st))) st (Nat.le_refl _)) as H1.
  destruct (attemptCallback input options aborts n st) as [[[]|thrown] st1];
    [|contradiction].
  simpl snd.
  destruct H1 as [[Hset Hoff]|[Hon Hless]].
  - rewrite Hoff. exact Hset.
  - rewrite Hon.
    pose proof (timer_settles_or_stays_armed aborts (AwaitTimer n) _ st1 (conj Hon Hless))
      as H2.
    destruct (suspend aborts (AwaitTimer n) st1) as [[[]|thrown] st2]; [|contradiction].
    simpl snd.
    destruct H2 as [[Hset Hoff]|[Hon2 Hless2]].
    + rewrite Hoff. exact Hset.
    + rewrite Hon2. apply IH. cbn. lia.
Qed.

(** The fuel of [pRetry] is enough: more of it gives the same session. *)
Lemma attempts_enough_fuel {T : Type} (input : Z -> Outcome T) (options : Options)
    (aborts : Aborts) :
  forall (fuel extra : nat) (st : Session T),
    (List.length (_timeouts (operation st)) < fuel)%nat ->
    attempts input options aborts (fuel + extra) st
    = attempts input options aborts fuel st.
Proof.
  induction fuel as [|fuel IH]; intros extra st Hlen; [lia|].
  change (S fuel + extra)%nat with (S (fuel + extra)).
  simpl attempts.
  set (n := _attempts (operation st)).
  pose proof (callback_settles_or_arms input options aborts n
                (List.length (_timeouts (operation st))) st (Nat.le_refl _)) as H1.
  destruct (attemptCallback input options aborts n st) as [[[]|thrown] st1];
    [|contradiction].
  simpl snd.
  destruct H1 as [[_ Hoff]|[Hon Hless]].
  - rewrite Hoff. reflexivity.
  - rewrite Hon.
    pose proof (timer_settles_or_stays_armed aborts (AwaitTimer n) _ st1 (conj Hon Hless))
      as H2.
    destruct (suspend aborts (AwaitTimer n) st1) as [[[]|thrown] st2]; [|contradiction].
    simpl snd.
    destruct H2 as [[_ Hoff]|[Hon2 Hless2]].
    + rewrite Hoff. reflexivity.
    + rewrite Hon2. apply IH. cbn. lia.
Qed.

Lemma pRetry_enough_fuel {T : Type} (input : Z -> Outcome T) (options : Options)
    (aborts : Aborts) (extra : nat) :
  attempts input options aborts
    (S (List.length (timeouts (defaultedOptions options))) + extra) (start options)
  = pRetry input options aborts.
Proof.
  unfold pRetry. apply attempts_enough_fuel.
  unfold start. destruct (m_signal (defaultedOptions options)) as [sg|];
    [destruct (aborted sg)|]; cbn; lia.
Qed.

Lemma pRetry_settles {T : Type} (input : Z -> Outcome T) (options : Options)
    (aborts : Aborts) :
  promise (pRetry input options aborts) <> None.
Proof.
  unfold pRetry. apply attempts_settle.
  unfold start. destruct (m_signal (defaultedOptions options)) as [sg|];
    [destruct (aborted sg)|]; cbn; lia.
Qed.

(** *** Without cancellation, resolve and reject are never both called *)

Ltac calls_simpl :=
  unfold noCalls, notBoth, rejectedOnlyStopped, callsResolve, callsReject in *;
  cbn in *;
  rewrite ?existsb_app in *; cbn in *; rewrite ?orb_false_r, ?orb_true_r in *.

Lemma stop_then_reject_rejectedOnlyStopped {T : Type} (error : JsValue) :
  preserves (@rejectedOnlyStopped T) (stop ;; reject error).
Proof.
  intros st [Hres Hrej]. run_updates. calls_simpl. auto.
Qed.

Lemma retry_rejectedOnlyStopped {T : Type} (err : JsValue) :
  triple (@rejectedOnlyStopped T) (retry err)
    (fun permitted st => if permitted then noCalls st else rejectedOnlyStopped st)
    (fun _ => rejectedOnlyStopped).
Proof.
  intros st [Hres Hrej]. run_updates. unfold operation_retry.
  destruct (_timeouts (operation st)) as [|d ts] eqn:Hts; calls_simpl.
  - split; [exact Hres|]. intros H. destruct (Hrej H) as [_ Htimer]. auto.
  - split; [exact Hres|].
    destruct (existsb isReject (trace st)); [|reflexivity].
    destruct (Hrej eq_refl) as [Hnil _]. discriminate.
Qed.

Lemma retry_preserves_rejectedOnlyStopped {T : Type} (err : JsValue) :
  preserves (@rejectedOnlyStopped T) (retry err).
Proof.
  eapply triple_weaken; [apply retry_rejectedOnlyStopped | auto | | auto].
  intros [|] st; [|auto]. intros [Hres Hrej]. split; [exact Hres|]. congruence.
Qed.

Ltac rejectedOnlyStopped_leaf :=
  first [ apply stop_then_reject_rejectedOnlyStopped
        | apply retry_preserves_rejectedOnlyStopped
        | apply preserves_modify; intros ? [Hres Hrej]; calls_simpl; auto ].

Ltac noCalls_leaf :=
  apply preserves_modify; intros ? [Hres Hrej]; calls_simpl; auto.

Lemma evaluate_returns_without_calls {T : Type} (options : Options) (error : JsValue)
    (n : Z) :
  triple (@rejectedOnlyStopped T) (evaluate options noAbort error n)
    (fun _ => noCalls) (fun _ => rejectedOnlyStopped).
Proof.
  unfold evaluate. cbv zeta.
  do 5 (eapply triple_bind with (R := fun _ => rejectedOnlyStopped);
        [apply preserves_triple; preserve rejectedOnlyStopped_leaf | intros _]).
  eapply triple_bind; [apply retry_rejectedOnlyStopped|].
  intros [|] st H; cbn; exact H.
Qed.

Lemma callback_never_both {T : Type} (input : Z -> Outcome T) (options : Options) (n : Z) :
  triple (@noCalls T) (attemptCallback input options noAbort n)
    (fun _ st => (_timer (operation st) = false /\ notBoth st) \/ noCalls st)
    (fun _ _ => False).
Proof.
  unfold attemptCallback.
  eapply triple_tryCatch with (R := fun _ => noCalls).
  - eapply triple_bind with (R := fun _ => noCalls).
    + apply preserves_triple. preserve noCalls_leaf.
    + intros value st [Hres Hrej]. run_updates.
      destruct (signalNow st); cbn; left; calls_simpl; auto.
  - intros error.
    eapply triple_tryCatch with (R := fun _ => rejectedOnlyStopped).
    + eapply triple_weaken; [apply evaluate_returns_without_calls| | |]; cbn; auto.
      intros st [Hres Hrej]. split; [exact Hres|]. congruence.
    + intros finalError st [Hres Hrej]. cbv zeta. run_updates.
      destruct (signalNow st); cbn; left; calls_simpl; auto.
Qed.

Lemma attempts_never_both {T : Type} (input : Z -> Outcome T) (options : Options) :
  forall (fuel : nat) (st : Session T),
    noCalls st -> notBoth (attempts input options noAbort fuel st).
Proof.
  induction fuel as [|fuel IH]; intros st Hno; [left; apply Hno|].
  simpl attempts.
  set (n := _attempts (operation st)).
  pose proof (callback_never_both input options n st Hno) as H1.
  destruct (attemptCallback input options noAbort n st) as [[[]|thrown] st1];
    [|contradiction].
  simpl snd.
  destruct (_timer (operation st1)) eqn:Htimer.
  - destruct H1 as [[Hoff _]|Hno1]; [discriminate|].
    apply IH. exact Hno1.
  - destruct H1 as [[_ Hnot]|Hno1]; [exact Hnot|left; apply Hno1].
Qed.

Lemma pRetry_never_both {T : Type} (input : Z -> Outcome T) (options : Options) :
  notBoth (pRetry input options noAbort).
Proof.
  unfold pRetry. apply attempts_never_both.
  unfold start, noCalls. destruct (m_signal (defaultedOptions options)) as [sg|];
    [destruct (aborted sg)|]; cbn; auto.
Qed.

(** C3: every session settles its promise, and settles it once: the
    promise ends settled, with the value of the first call of resolve or
    reject, whatever is called after it; and in a session without
    cancellation (vetoed, stopped by the observer, out of budget or
    successful) resolve and reject are never both called. *)
Theorem C3_settled_exactly_once {T : Type} (input : Z -> Outcome T) (options : Options)
    (aborts : Aborts) :
  (exists s : Settlement T,
     promise (pRetry input options aborts) = Some s
     /\ firstCall (trace (pRetry input options aborts)) = Some s)
  /\ (callsResolve (trace (pRetry input options noAbort)) = false
      \/ callsReject (trace (pRetry input options noAbort)) = false).
Proof.
  split.
  - pose proof (pRetry_settles input options aborts) as Hset.
    pose proof (pRetry_settledByFirstCall input options aborts) as Hfirst.
    unfold settledByFirstCall in Hfirst.
    destruct (promise (pRetry input options aborts)) as [s|]; [|contradiction].
    exists s. auto.
  - apply pRetry_never_both.
Qed.

(** *** The counts of every record *)

Lemma lastInput_app {T : Type} (a b : list (Event T)) (current : Z) :
  lastInput (a ++ b) current = lastInput b (lastInput a current).
Proof.
  revert current. induction a as [|ev a IH]; intros current; cbn; [reflexivity|].
  destruct ev; apply IH.
Qed.









(** With [{retries: 1}]: both attempts fail, and shouldRetry and
    onFailedAttempt each see [retriesLeft] 1, then 0. *)
Example records_with_one_retry :
  records (trace (pRetry alwaysFails oneRetry noAbort))
  = [mkFailedAttemptError fixtureError 1 1; mkFailedAttemptError fixtureError 1 1;
     mkFailedAttemptError fixtureError 2 0; mkFailedAttemptError fixtureError 2 0].
Proof. reflexivity. Qed.

(** *** A signal that is aborted already *)

Lemma alike_ret {T A : Type} (a : A) : alike (@ret T A a).
Proof. intros st1 st2 H. cbn. auto. Qed.

Lemma alike_throw {T A : Type} (thrown : JsValue) : alike (@throw T A thrown).
Proof. intros st1 st2 H. cbn. auto. Qed.

Lemma alike_bind {T A B : Type} (m : M T A) (k : A -> M T B) :
  alike m -> (forall a, alike (k a)) -> alike (bind m k).
Proof.
  intros Hm Hk st1 st2 H. unfold bind.
  destruct (Hm st1 st2 H) as [Hfst Hsnd].
  destruct (m st1) as [[a1|e1] s1], (m st2) as [[a2|e2] s2]; cbn in *;
    try discriminate.
  - injection Hfst as ->. apply Hk, Hsnd.
  - injection Hfst as ->. split; [reflexivity|assumption].
Qed.

Lemma alike_tryCatch {T A : Type} (body : M T A) (handler : JsValue -> M T A) :
  alike body -> (forall thrown, alike (handler thrown)) -> alike (tryCatch body handler).
Proof.
  intros Hb Hh st1 st2 H. unfold tryCatch.
  destruct (Hb st1 st2 H) as [Hfst Hsnd].
  destruct (body st1) as [[a1|e1] s1], (body st2) as [[a2|e2] s2]; cbn in *;
    try discriminate.
  - split; assumption.
  - injection Hfst as ->. apply Hh, Hsnd.
Qed.

Lemma alike_gets_operation {T A : Type} (f : RetryOperation -> A) :
  alike (@gets T A (fun st => f (operation st))).
Proof.
  intros st1 st2 H. cbn. split; [|exact H].
  destruct H as (Hop & _). rewrite Hop. reflexivity.
Qed.

Lemma alike_modify {T : Type} (f : Session T -> Session T) :
  (forall st1 st2, sameButSignal st1 st2 -> sameButSignal (f st1) (f st2)) ->
  alike (modify f).
Proof. intros Hf st1 st2 H. cbn. auto. Qed.

Lemma alike_removeEventListener {T : Type} : alike (@removeEventListener T).
Proof.
  intros st1 st2 H. destruct H as (Hop & Hpr & Htr & Hl1 & Hl2 & (sg & Hsg & Hab) & Hnone).
  run_updates. rewrite Hsg, Hnone. cbn.
  split; [reflexivity|]. unfold sameButSignal. cbn. repeat split; eauto.
Qed.

Lemma alike_controllerAbort {T : Type} (r : JsValue) : alike (@controllerAbort T r).
Proof.
  intros st1 st2 H. destruct H as (Hop & Hpr & Htr & Hl1 & Hl2 & (sg & Hsg & Hab) & Hnone).
  run_updates. rewrite Hsg, Hnone, Hab. cbn.
  split; [reflexivity|]. unfold sameButSignal. repeat split; eauto.
Qed.

Lemma alike_mainError {T : Type} : alike (@mainError T).
Proof.
  intros st1 st2 H. cbn. split; [|exact H].
  destruct H as (Hop & _). rewrite Hop. reflexivity.
Qed.

Ltac alike_leaf :=
  first [ apply alike_removeEventListener
        | apply alike_mainError
        | apply alike_controllerAbort
        | apply alike_gets_operation
        | apply alike_modify;
          intros ? ? (Hop & Hpr & Htr & Hl1 & Hl2 & (sg & Hsg & Hab) & Hnone);
          unfold sameButSignal; cbn; rewrite ?Hop, ?Hpr, ?Htr;
          repeat split; eauto ].

Ltac alike_walk :=
  cbv beta zeta;
  lazymatch goal with
  | |- alike (bind _ _) => apply alike_bind; [alike_walk | intros ?; alike_walk]
  | |- alike (tryCatch _ _) => apply alike_tryCatch; [alike_walk | intros ?; alike_walk]
  | |- alike (ret _) => apply alike_ret
  | |- alike (throw _) => apply alike_throw
  | |- alike (if ?b then _ else _) => destruct b; alike_walk
  | |- alike (match ?x with _ => _ end) => destruct x; alike_walk
  | |- alike (attemptCallback _ _ _ _) => unfold attemptCallback; alike_walk
  | |- alike (evaluate _ _ _ _) => unfold evaluate; alike_walk
  | |- alike (await _ _ _ _) => unfold await; alike_walk
  | |- alike (suspend _ _) => unfold suspend; alike_walk
  | |- alike cleanUp => unfold cleanUp; alike_walk
  | |- alike (retry _) => unfold retry; alike_walk
  | |- alike (resolve _) => unfold resolve; alike_walk
  | |- alike (reject _) => unfold reject; alike_walk
  | |- _ => solve [alike_leaf]
  end.

Lemma callback_alike {T : Type} (input : Z -> Outcome T) (options : Options)
    (aborts : Aborts) (n : Z) :
  alike (attemptCallback input options aborts n).
Proof.
  alike_walk.
Qed.

Lemma suspend_alike {T : Type} (aborts : Aborts) (point : SuspensionPoint) :
  alike (@suspend T aborts point).
Proof.
  alike_walk.
Qed.

Lemma callback_withoutSignal {T : Type} (input : Z -> Outcome T) (options : Options)
    (aborts : Aborts) (n : Z) :
  attemptCallback input (withoutSignal options) aborts n
  = attemptCallback input options aborts n.
Proof. reflexivity. Qed.

Lemma attempts_alike {T : Type} (input : Z -> Outcome T) (options : Options)
    (aborts : Aborts) :
  forall (fuel : nat) (st1 st2 : Session T),
    sameButSignal st1 st2 ->
    sameButSignal (attempts input options aborts fuel st1)
                  (attempts input (withoutSignal options) aborts fuel st2).
Proof.
  induction fuel as [|fuel IH]; intros st1 st2 H; [exact H|].
  simpl attempts. rewrite callback_withoutSignal.
  assert (Hn : _attempts (operation st1) = _attempts (operation st2)).
  { destruct H as (Hop & _). rewrite Hop. reflexivity. }
  rewrite <- Hn. set (n := _attempts (operation st1)).
  destruct (callback_alike input options aborts n st1 st2 H) as [_ H1].
  set (s1 := snd (attemptCallback input options aborts n st1)) in *.
  set (s2 := snd (attemptCallback input options aborts n st2)) in *.
  assert (Ht1 : _timer (operation s1) = _timer (operation s2)).
  { destruct H1 as (Hop & _). rewrite Hop. reflexivity. }
  rewrite <- Ht1. destruct (_timer (operation s1)); [|exact H1].
  destruct (suspend_alike aborts (AwaitTimer n) s1 s2 H1) as [_ H2].
  set (u1 := snd (suspend aborts (AwaitTimer n) s1)) in *.
  set (u2 := snd (suspend aborts (AwaitTimer n) s2)) in *.
  assert (Ht2 : _timer (operation u1) = _timer (operation u2)).
  { destruct H2 as (Hop & _). rewrite Hop. reflexivity. }
  rewrite <- Ht2. destruct (_timer (operation u1)); [|exact H2].
  apply IH.
  destruct H2 as (Hop & Hpr & Htr & Hl1 & Hl2 & Hsg & Hnone).
  unfold sameButSignal. cbn. rewrite Hop. repeat split; auto.
Qed.

(** Without a signal there is nothing for the controller to abort. *)
Lemma agree_same {T A : Type} (m : M T A) : preserves noSignal m -> agree m m.
Proof.
  intros Hm st Hst. split; [reflexivity|]. apply (preserves_snd _ _ _ Hm Hst).
Qed.

Lemma agree_bind {T A B : Type} (m1 m2 : M T A) (k1 k2 : A -> M T B) :
  agree m1 m2 -> (forall a, agree (k1 a) (k2 a)) -> agree (bind m1 k1) (bind m2 k2).
Proof.
  intros Hm Hk st Hst. unfold bind.
  destruct (Hm st Hst) as [Heq Hno]. rewrite Heq.
  destruct (m2 st) as [[a|thrown] st']; cbn in *; [apply Hk, Hno|auto].
Qed.

Lemma agree_tryCatch {T A : Type} (b1 b2 : M T A) (h1 h2 : JsValue -> M T A) :
  agree b1 b2 -> (forall thrown, agree (h1 thrown) (h2 thrown)) ->
  agree (tryCatch b1 h1) (tryCatch b2 h2).
Proof.
  intros Hb Hh st Hst. unfold tryCatch.
  destruct (Hb st Hst) as [Heq Hno]. rewrite Heq.
  destruct (b2 st) as [[a|thrown] st']; cbn in *; [auto|apply Hh, Hno].
Qed.

Lemma agree_suspend {T : Type} (aborts : Aborts) (point : SuspensionPoint) :
  agree (@suspend T aborts point) (suspend noAbort point).
Proof.
  intros st Hst. unfold suspend, noAbort.
  destruct (aborts point) as [r|]; [|auto].
  run_updates. unfold noSignal in Hst. rewrite Hst. auto.
Qed.

Ltac noSignal_leaf :=
  apply preserves_modify; unfold noSignal; intros ? Hno; cbn; exact Hno.

Ltac agree_walk :=
  cbv beta zeta;
  lazymatch goal with
  | |- agree (bind _ _) (bind _ _) => apply agree_bind; [agree_walk | intros ?; agree_walk]
  | |- agree (tryCatch _ _) (tryCatch _ _) =>
      apply agree_tryCatch; [agree_walk | intros ?; agree_walk]
  | |- agree (suspend _ _) (suspend _ _) => apply agree_suspend
  | |- agree (if ?b then _ else _) _ => destruct b; agree_walk
  | |- agree (match ?x with _ => _ end) _ => destruct x; agree_walk
  | |- agree (attemptCallback _ _ _ _) _ => unfold attemptCallback; agree_walk
  | |- agree (evaluate _ _ _ _) _ => unfold evaluate; agree_walk
  | |- agree (await _ _ _ _) _ => unfold await; agree_walk
  | |- agree ?m ?m => apply agree_same; preserve noSignal_leaf
  end.

Lemma callback_agree {T : Type} (input : Z -> Outcome T) (options : Options)
    (aborts : Aborts) (n : Z) :
  agree (attemptCallback input options aborts n) (attemptCallback input options noAbort n).
Proof.
  agree_walk.
Qed.

Lemma suspend_noAbort {T : Type} (point : SuspensionPoint) (st : Session T) :
  suspend noAbort point st = (Normal tt, st).
Proof. reflexivity. Qed.

Lemma attempts_agree {T : Type} (input : Z -> Outcome T) (options : Options)
    (aborts : Aborts) :
  forall (fuel : nat) (st : Session T),
    noSignal st ->
    attempts input options aborts fuel st = attempts input options noAbort fuel st.
Proof.
  induction fuel as [|fuel IH]; intros st Hst; [reflexivity|].
  simpl attempts.
  set (n := _attempts (operation st)).
  destruct (callback_agree input options aborts n st Hst) as [Heq Hno1]. rewrite Heq.
  set (st1 := snd (attemptCallback input options noAbort n st)) in *.
  destruct (_timer (operation st1)) eqn:Htimer; [|reflexivity].
  destruct (agree_suspend aborts (AwaitTimer n) st1 Hno1) as [Heq2 _].
  rewrite Heq2, suspend_noAbort. simpl snd. rewrite Htimer.
  apply IH. exact Hno1.
Qed.

(** A session without a signal runs the same under every cancellation
    schedule. *)
Lemma no_signal_no_cancellation {T : Type} (input : Z -> Outcome T) (options : Options)
    (aborts : Aborts) :
  m_signal (defaultedOptions options) = None ->
  pRetry input options aborts = pRetry input options noAbort.
Proof.
  intros Hnone. unfold pRetry. apply attempts_agree.
  unfold start, noSignal. rewrite Hnone. reflexivity.
Qed.

Ltac neverRegistered_leaf :=
  apply preserves_modify; unfold neverRegistered, registersListener;
  intros ? [Hreg Hlis]; cbn; rewrite ?existsb_app; cbn; rewrite ?Hreg; auto.

Lemma callback_neverRegistered {T : Type} (input : Z -> Outcome T) (options : Options)
    (aborts : Aborts) (n : Z) :
  preserves neverRegistered (attemptCallback input options aborts n).
Proof.
  preserve neverRegistered_leaf.
Qed.

Lemma suspend_neverRegistered {T : Type} (aborts : Aborts) (point : SuspensionPoint) :
  preserves (@neverRegistered T) (suspend aborts point).
Proof.
  preserve neverRegistered_leaf.
Qed.

(** C10: with a signal that is aborted already when pRetry is called, no
    abort listener is registered, and whatever the controller does later
    the session runs as it does without a signal and without
    cancellation: the same calls in the same order and the same
    settlement. *)
Theorem C10_aborted_signal_is_ignored {T : Type} (input : Z -> Outcome T)
    (options : Options) (aborts : Aborts) (sg : AbortSignal) :
  signal options = Present sg ->
  aborted sg = true ->
  registersListener (trace (pRetry input options aborts)) = false
  /\ listener (pRetry input options aborts) = false
  /\ promise (pRetry input options aborts)
     = promise (pRetry input (withoutSignal options) noAbort)
  /\ trace (pRetry input options aborts)
     = trace (pRetry input (withoutSignal options) noAbort).
Proof.
  intros Hsig Hab.
  rewrite <- (no_signal_no_cancellation input (withoutSignal options) aborts eq_refl).
  assert (Hstart : @start T options
                   = {| operation := retry_operation (defaultedOptions options);
                        promise := None; listener := false;
                        signalNow := Some sg; trace := [] |}).
  { unfold start, defaultedOptions. rewrite Hsig. cbn. rewrite Hab. reflexivity. }
  assert (Hreg : neverRegistered (pRetry input options aborts)).
  { unfold pRetry. apply (attempts_preserves input options aborts neverRegistered).
    - intros n. apply callback_neverRegistered.
    - intros point. apply suspend_neverRegistered.
    - neverRegistered_leaf.
    - rewrite Hstart. split; reflexivity. }
  destruct Hreg as [Hreg Hlis].
  split; [exact Hreg|]. split; [exact Hlis|].
  pose proof (attempts_alike input options aborts
                (S (List.length (timeouts (defaultedOptions options))))
                (start options) (start (withoutSignal options))) as Hsim.
  destruct Hsim as (_ & Hpr & Htr & _).
  - rewrite Hstart. unfold sameButSignal, start. cbn. repeat split; eauto.
  - split; [exact Hpr|exact Htr].
Qed.

Lemma C10_aborted_signal_is_ignored_witness :
  registersListener (trace (pRetry failsTwice abortedFromTheStart abortDuringSecond)) = false
  /\ listener (pRetry failsTwice abortedFromTheStart abortDuringSecond) = false
  /\ promise (pRetry failsTwice abortedFromTheStart abortDuringSecond)
     = promise (pRetry failsTwice (withoutSignal abortedFromTheStart) noAbort)
  /\ trace (pRetry failsTwice abortedFromTheStart abortDuringSecond)
     = trace (pRetry failsTwice (withoutSignal abortedFromTheStart) noAbort).
Proof.
  apply (C10_aborted_signal_is_ignored failsTwice abortedFromTheStart abortDuringSecond
           {| aborted := true; reason := NonError "cancelled" |}); reflexivity.
Defined.

(** With a live signal the same abort does reach the session: the
    listener is registered and the promise rejects with the reason. *)
Example live_signal_cancels :
  registersListener (trace (pRetry failsTwice liveSignal abortDuringSecond)) = true
  /\ promise (pRetry failsTwice liveSignal abortDuringSecond)
     = Some (Rejected (NonError "cancelled"))
  /\ promise (pRetry failsTwice abortedFromTheStart abortDuringSecond)
     = Some (Resolved fixture).
Proof. repeat split; reflexivity. Qed.

(** *** Network failures among the TypeErrors *)

Lemma callback_calls_operation {T : Type} (input : Z -> Outcome T) (options : Options)
    (aborts : Aborts) (n : Z) (events : list (Event T)) :
  triple (fun st : Session T => trace st = events)
    (attemptCallback input options aborts n)
    (fun _ => extends (events ++ [EvInput n])) (fun _ => extends (events ++ [EvInput n])).
Proof.
  unfold attemptCallback.
  eapply triple_tryCatch with (R := fun _ => extends (events ++ [EvInput n])).
  - eapply triple_bind with (R := fun _ => extends (events ++ [EvInput n])).
    + unfold await.
      eapply triple_bind with (R := fun _ => extends (events ++ [EvInput n])).
      * apply triple_modify. intros st Htr. exists []. cbn.
        rewrite Htr, app_nil_r. reflexivity.
      * intros _. apply preserves_triple. preserve extends_leaf.
    + intros value. apply preserves_triple. preserve extends_leaf.
  - intros error. apply preserves_triple. preserve extends_leaf.
Qed.

Lemma suspend_extends {T : Type} (aborts : Aborts) (point : SuspensionPoint)
    (events : list (Event T)) :
  preserves (extends events) (suspend aborts point).
Proof.
  preserve extends_leaf.
Qed.

(** A session that comes to an attempt calls the operation for it. *)
Lemma attempts_call_operation {T : Type} (input : Z -> Outcome T) (options : Options)
    (aborts : Aborts) (fuel : nat) (st : Session T) :
  extends (trace st ++ [EvInput (_attempts (operation st))])
    (attempts input options aborts (S fuel) st).
Proof.
  simpl attempts.
  set (n := _attempts (operation st)).
  pose proof (callback_calls_operation input options aborts n (trace st) st eq_refl) as H1.
  assert (Hext1 : extends (trace st ++ [EvInput n])
                    (snd (attemptCallback input options aborts n st))).
  { destruct (attemptCallback input options aborts n st) as [[[]|thrown] st1]; exact H1. }
  clear H1.
  set (st1 := snd (attemptCallback input options aborts n st)) in *.
  destruct (_timer (operation st1)); [|exact Hext1].
  pose proof (preserves_snd _ _ st1 (suspend_extends aborts (AwaitTimer n) _) Hext1)
    as Hext2.
  set (st2 := snd (suspend aborts (AwaitTimer n) st1)) in *.
  destruct (_timer (operation st2)); [|exact Hext2].
  apply (attempts_preserves input options aborts (extends (trace st ++ [EvInput n]))).
  - intros k. apply callback_extends.
  - intros point. apply suspend_extends.
  - extends_leaf.
  - destruct Hext2 as [more Hmore]. exists more. exact Hmore.
Qed.

(** C2, amended: a TypeError named [TypeError] whose message is one of
    the recognized network-failure messages, and which has no stack when
    the message is [Load failed], is a candidate for a retry like any
    error that is no TypeError: whether the attempt is retried is up to
    shouldRetry and onFailedAttempt alone, and when they let the first
    attempt pass and the budget allows one retry, the operation is called
    a second time. *)
Theorem C2_network_type_error_is_retried {T : Type} (input : Z -> Outcome T)
    (options : Options) (message : string) (stack : option string) :
  errorMessages_has message = true ->
  (message = "Load failed" -> stack = None) ->
  isNetworkError (ErrorObj true "TypeError" message stack) = true
  /\ candidate (ErrorObj true "TypeError" message stack) = true
  /\ (forall n : Z,
        input n = Throws (ErrorObj true "TypeError" message stack) ->
        retried input options n
        = approves options
            (decorateErrorWithCounts (ErrorObj true "TypeError" message stack) n
               (defaultedOptions options))
          && observes options
               (decorateErrorWithCounts (ErrorObj true "TypeError" message stack) n
                  (defaultedOptions options)))
  /\ (input 1 = Throws (ErrorObj true "TypeError" message stack) ->
      retried input options 1 = true ->
      1 <= budget options ->
      In 2 (invocations (trace (pRetry input options noAbort)))).
Proof.
  intros Hmsg Hstack.
  assert (Hnet : isNetworkError (ErrorObj true "TypeError" message stack) = true).
  { unfold isNetworkError, isError.
    cbn [instanceofError name_of message_of stack_of].
    rewrite String.eqb_refl. cbn [andb negb].
    destruct (String.eqb_spec message "Load failed") as [Heq|Hneq]; [|exact Hmsg].
    rewrite (Hstack Heq). reflexivity. }
  assert (Hcand : candidate (ErrorObj true "TypeError" message stack) = true).
  { unfold candidate. rewrite Hnet. reflexivity. }
  split; [exact Hnet|]. split; [exact Hcand|]. split.
  - intros n Hin. unfold retried. rewrite Hin, Hcand. reflexivity.
  - intros Hin Hret Hbudget.
    destruct (pRetry_comes_to input options 2) as (st & fuel & Hrun & Hat & _ & _).
    + lia.
    + intros j Hj. assert (j = 1%nat) as -> by lia. exact Hret.
    + cbn. lia.
    + rewrite Hrun.
      destruct (attempts_call_operation input options noAbort fuel st) as [more Hmore].
      rewrite Hmore, Hat, !invocations_app. cbn.
      apply in_or_app. left. apply in_or_app. right. left. reflexivity.
Qed.

Lemma C2_network_type_error_is_retried_witness :
  isNetworkError (ErrorObj true "TypeError" "Failed to fetch" None) = true
  /\ candidate (ErrorObj true "TypeError" "Failed to fetch" None) = true
  /\ (forall n : Z,
        fetchFailsTwice n = Throws (ErrorObj true "TypeError" "Failed to fetch" None) ->
        retried fetchFailsTwice oneRetry n
        = approves oneRetry
            (decorateErrorWithCounts (ErrorObj true "TypeError" "Failed to fetch" None) n
               (defaultedOptions oneRetry))
          && observes oneRetry
               (decorateErrorWithCounts (ErrorObj true "TypeError" "Failed to fetch" None) n
                  (defaultedOptions oneRetry)))
  /\ (fetchFailsTwice 1 = Throws (ErrorObj true "TypeError" "Failed to fetch" None) ->
      retried fetchFailsTwice oneRetry 1 = true ->
      1 <= budget oneRetry ->
      In 2 (invocations (trace (pRetry fetchFailsTwice oneRetry noAbort)))).
Proof.
  apply (C2_network_type_error_is_retried fetchFailsTwice oneRetry "Failed to fetch" None).
  - reflexivity.
  - intros Heq. discriminate Heq.
Defined.

(** C2 as stated fails: a TypeError with the message [Load failed] that
    has a stack, as every [new TypeError('Load failed')] has outside Safari,
    is no network error for [isNetworkError]; thrown on the first attempt it
    is fatal, with the budget of ten retries untouched.  So is a TypeError
    with a recognized message whose [name] is not [TypeError]. *)
Lemma C2_load_failed_with_stack_is_fatal :
  errorMessages_has (message_of (newTypeError "Load failed")) = true
  /\ instanceofTypeError (newTypeError "Load failed") = true
  /\ isNetworkError (newTypeError "Load failed") = false
  /\ candidate (newTypeError "Load failed") = false
  /\ invocations
       (trace (pRetry (fun _ : Z => @Throws string (newTypeError "Load failed"))
                 noOptions noAbort)) = [1]
  /\ promise (pRetry (fun _ : Z => @Throws string (newTypeError "Load failed"))
                noOptions noAbort)
     = Some (Rejected (FailedAttemptErrorObj (newTypeError "Load failed") 1 10))
  /\ errorMessages_has (message_of (ErrorObj true "FetchError" "fetch failed" None)) = true
  /\ instanceofTypeError (ErrorObj true "FetchError" "fetch failed" None) = true
  /\ candidate (ErrorObj true "FetchError" "fetch failed" None) = false.
Proof. repeat split; reflexivity. Qed.

(** * Further properties of the code *)

(** ** isNetworkError *)

Lemma errorMessages_has_In (m : string) :
  errorMessages_has m = true <-> In m errorMessages.
Proof.
  unfold errorMessages_has. rewrite existsb_exists. split.
  - intros (x & Hin & Heq). apply String.eqb_eq in Heq. subst x. exact Hin.
  - intros Hin. exists m. split; [exact Hin|apply String.eqb_refl].
Qed.

(** X1 (what isNetworkError accepts): Error objects named [TypeError]
    whose message is one of the six of [errorMessages], and for
    [Load failed] only those without a stack; nothing else, in particular
    no value that is not an Error object. *)
Theorem isNetworkError_accepts (error : JsValue) :
  isNetworkError error = true
  <-> (instanceofError error = true
       /\ name_of error = "TypeError"
       /\ In (message_of error) errorMessages
       /\ (message_of error = "Load failed" -> stack_of error = None)).
Proof.
  unfold isNetworkError, isError. split.
  - destruct (instanceofError error); cbn [andb negb]; [|discriminate].
    destruct (String.eqb_spec (name_of error) "TypeError") as [Hname|Hname];
      cbn [negb]; [|discriminate].
    destruct (String.eqb_spec (message_of error) "Load failed") as [Hmsg|Hmsg].
    + intros Hstack. repeat split; auto.
      * rewrite Hmsg. cbn. auto.
      * intros _. destruct (stack_of error); [discriminate|reflexivity].
    + intros Hhas. repeat split; auto.
      * apply errorMessages_has_In. exact Hhas.
      * intros Heq. contradiction.
  - intros (Herr & Hname & Hin & Hstack).
    rewrite Herr, Hname, String.eqb_refl. cbn [andb negb].
    destruct (String.eqb_spec (message_of error) "Load failed") as [Hmsg|Hmsg].
    + rewrite (Hstack Hmsg). reflexivity.
    + apply errorMessages_has_In. exact Hin.
Qed.

(** ** A shouldRetry that throws *)



(** ** Attempts that are retried, under a cancellation schedule *)

(** The callback of attempt [n] asks the schedule at the three points of
    that attempt only. *)
Lemma callback_quiet {T : Type} (input : Z -> Outcome T) (options : Options)
    (aborts : Aborts) (n : Z) :
  aborts (AwaitInput n) = None ->
  aborts (AwaitShouldRetry n) = None ->
  aborts (AwaitOnFailedAttempt n) = None ->
  attemptCallback input options aborts n = attemptCallback input options noAbort n.
Proof.
  intros H1 H2 H3. unfold attemptCallback, evaluate, await, suspend, noAbort.
  rewrite H1, H2, H3. reflexivity.
Qed.

Lemma observations_app {T : Type} (a b : list (Event T)) :
  observations (a ++ b) = observations a ++ observations b.
Proof.
  induction a as [|ev a IH]; cbn; [reflexivity|].
  destruct ev; cbn; rewrite IH; reflexivity.
Qed.

Lemma observations_retriedEvents {T : Type} (options : Options) (n : Z) (error : JsValue) :
  m_onFailedAttempt (defaultedOptions options) <> None ->
  observations (@retriedEvents T options n error) = [n].
Proof.
  intros Hsome. unfold retriedEvents.
  destruct (m_shouldRetry (defaultedOptions options));
    destruct (m_onFailedAttempt (defaultedOptions options)); try contradiction;
    reflexivity.
Qed.

Lemma attempts_retried_quiet {T : Type} (input : Z -> Outcome T) (options : Options)
    (aborts : Aborts) (fuel : nat) (st : Session T) (error : JsValue) (d : Z)
    (ts : list Z) :
  (forall point, attemptOf point = _attempts (operation st) -> aborts point = None) ->
  input (_attempts (operation st)) = Throws error ->
  retried input options (_attempts (operation st)) = true ->
  _timeouts (operation st) = d :: ts ->
  attempts input options aborts (S fuel) st =
  attempts input options aborts fuel
    {| operation :=
         {| _timeouts := ts;
            _errors := _errors (operation st)
                       ++ [asValue (decorateErrorWithCounts error (_attempts (operation st))
                                      (defaultedOptions options))];
            _attempts := _attempts (operation st) + 1;
            _timer := false |};
       promise := promise st;
       listener := listener st;
       signalNow := signalNow st;
       trace := trace st ++ retriedEvents options (_attempts (operation st)) error |}.
Proof.
  intros Hquiet Hin Hret Hts. simpl attempts.
  rewrite (callback_quiet input options aborts _
             (Hquiet (AwaitInput _) eq_refl) (Hquiet (AwaitShouldRetry _) eq_refl)
             (Hquiet (AwaitOnFailedAttempt _) eq_refl)).
  rewrite (callback_retried input options st _ error d ts Hin Hret Hts).
  cbn [snd operation _timer]. unfold suspend.
  rewrite (Hquiet (AwaitTimer _) eq_refl). reflexivity.
Qed.

(** [m] retried attempts in a row from attempt [a] on, with no abort
    during them, leave the session at attempt [a + m] with promise,
    listener and signal as they were; each has called the operation once
    and onFailedAttempt once, and the scheduler has recorded their
    records. *)
Lemma attempts_prefix_quiet {T : Type} (input : Z -> Outcome T) (options : Options)
    (aborts : Aborts) (m : nat) :
  forall (fuel : nat) (st : Session T) (a : nat),
    _attempts (operation st) = Z.of_nat a ->
    (forall j, (a <= j < a + m)%nat -> retried input options (Z.of_nat j) = true) ->
    (m <= List.length (_timeouts (operation st)))%nat ->
    (forall point,
        Z.of_nat a <= attemptOf point < Z.of_nat (a + m) -> aborts point = None) ->
    (1 <= a)%nat ->
    Forall (recordOf input options (Z.of_nat a - 1)) (_errors (operation st)) ->
    exists (st' : Session T) (tr : list (Event T)),
      attempts input options aborts (m + fuel) st
      = attempts input options aborts fuel st'
      /\ _attempts (operation st') = Z.of_nat (a + m)
      /\ List.length (_timeouts (operation st'))
         = (List.length (_timeouts (operation st)) - m)%nat
      /\ promise st' = promise st
      /\ listener st' = listener st
      /\ signalNow st' = signalNow st
      /\ trace st' = trace st ++ tr
      /\ invocations tr = map Z.of_nat (seq a m)
      /\ (m_onFailedAttempt (defaultedOptions options) <> None ->
          observations tr = map Z.of_nat (seq a m))
      /\ Forall (recordOf input options (Z.of_nat (a + m) - 1))
           (_errors (operation st'))
      /\ _errors (operation st')
         = _errors (operation st) ++ recordsOf input options a m.
Proof.
  induction m as [|m IH]; intros fuel st a Ha Hret Hlen Hquiet Hpos Herrs.
  - exists st, []. rewrite app_nil_r, Nat.add_0_r, Nat.sub_0_r.
    repeat split; auto. unfold recordsOf. cbn. rewrite app_nil_r. reflexivity.
  - destruct (_timeouts (operation st)) as [|d ts] eqn:Hts; [cbn in Hlen; lia|].
    assert (Hfirst : retried input options (_attempts (operation st)) = true).
    { rewrite Ha. apply Hret. lia. }
    destruct (input (_attempts (operation st))) as [v|error] eqn:Hin.
    { unfold retried in Hfirst. rewrite Hin in Hfirst. discriminate. }
    change (S m + fuel)%nat with (S (m + fuel)).
    rewrite (attempts_retried_quiet input options aborts _ st error d ts); auto.
    2:{ intros point Hpoint. apply Hquiet. rewrite Hpoint, Ha. lia. }
    match goal with |- context [attempts _ _ _ _ ?s] => set (st1 := s) end.
    destruct (IH fuel st1 (S a))
      as (st' & tr & Hrun & Hat & Hlen' & Hpr & Hlis & Hsig & Htr & Hinv & Hobs
          & Herrs' & Hexact).
    + subst st1. cbn. rewrite Ha. lia.
    + intros j Hj. apply Hret. lia.
    + subst st1. cbn. cbn in Hlen. lia.
    + intros point Hpoint. apply Hquiet. lia.
    + lia.
    + subst st1. cbn [operation _errors]. apply Forall_app. split.
      * eapply Forall_impl; [|exact Herrs].
        intros v (n & e & Hn & Hv). exists n, e. split; [lia|exact Hv].
      * constructor; [|constructor]. exists (_attempts (operation st)), error.
        split; [rewrite Ha; lia|]. auto.
    + exists st', (retriedEvents options (_attempts (operation st)) error ++ tr).
      rewrite Hrun. split; [reflexivity|].
      split; [rewrite Hat; f_equal; lia|].
      split; [rewrite Hlen'; subst st1; cbn; lia|].
      split; [rewrite Hpr; reflexivity|].
      split; [rewrite Hlis; reflexivity|].
      split; [rewrite Hsig; reflexivity|].
      split; [rewrite Htr; subst st1; cbn [trace]; rewrite <- app_assoc; reflexivity|].
      split; [rewrite invocations_app, invocations_retriedEvents, Hinv, Ha; reflexivity|].
      split.
      { intros Hsome.
        rewrite observations_app, (observations_retriedEvents options _ _ Hsome),
          (Hobs Hsome), Ha. reflexivity. }
      split; [replace (a + S m)%nat with (S a + m)%nat by lia; exact Herrs'|].
      rewrite Hexact. subst st1. cbn [operation _errors].
      unfold recordsOf. cbn [seq flat_map]. rewrite <- Ha, Hin, <- app_assoc.
      reflexivity.
Qed.


(** ** The budget runs out *)







(** An error whose message names an inherited property: with
    [new Error('constructor')] on every attempt the scheduler has no
    main error, and the rejection has the cause [null]. *)
Example constructor_message_has_no_main_error :
  promise (pRetry (fun _ => Throws (newError "constructor") : Outcome string)
             oneRetry noAbort)
  = Some (Rejected (FailedAttemptErrorObj (NonError "null") 2 0)).
Proof. reflexivity. Qed.

(** ** Cancellation through a live signal *)

Lemma triple_snd {T A : Type} (P Q : Session T -> Prop) (m : M T A) (st : Session T) :
  triple P m (fun _ => Q) (fun _ => Q) -> P st -> Q (snd (m st)).
Proof.
  intros Hm HP. specialize (Hm st HP). destruct (m st) as [[a|thrown] st']; exact Hm.
Qed.

Lemma retry_cancelledWith {T : Type} (r : JsValue) (calls : list Z) (err : JsValue) :
  preserves (@cancelledWith T r calls) (retry err).
Proof.
  intros st (Hp & Hts & Htm & Hl & Hinv). unfold cancelledWith. run_updates.
  unfold operation_retry. rewrite Hts. cbn. auto.
Qed.

Ltac cancelledWith_leaf :=
  first [ apply retry_cancelledWith
        | apply preserves_modify; unfold cancelledWith;
          intros ? (Hp & Hts & Htm & Hl & Hinv); cbn;
          rewrite ?invocations_app, ?Hp; cbn; rewrite ?app_nil_r;
          repeat split; auto ].

(** The abort handler runs while a call of the user's code is awaited. *)
Lemma await_cancelled {T A : Type} (aborts : Aborts) (point : SuspensionPoint)
    (call : Event T) (outcome : Outcome A) (r : JsValue) (calls : list Z) :
  aborts point = Some r ->
  triple (pendingAndLive calls) (await aborts point call outcome)
    (fun _ => cancelledWith r (calls ++ invocations [call]))
    (fun _ => cancelledWith r (calls ++ invocations [call])).
Proof.
  intros Habort st (Hp & Hl & (sg & Hsg & Hlive) & Hinv).
  unfold await, suspend. rewrite Habort. unfold cancelledWith. run_updates.
  rewrite Hsg. cbn. rewrite Hlive. cbn. rewrite Hl. cbn. rewrite Hp.
  destruct outcome; cbn; rewrite !invocations_app, Hinv; cbn;
    rewrite ?app_nil_r; repeat split; reflexivity.
Qed.

(** The abort handler runs while the session waits for the timer. *)
Lemma timer_cancelled {T : Type} (aborts : Aborts) (point : SuspensionPoint)
    (r : JsValue) (calls : list Z) (st : Session T) :
  aborts point = Some r ->
  pendingAndLive calls st ->
  cancelledWith r calls (snd (suspend aborts point st)).
Proof.
  intros Habort (Hp & Hl & (sg & Hsg & Hlive) & Hinv).
  unfold suspend. rewrite Habort. unfold cancelledWith. run_updates.
  rewrite Hsg. cbn. rewrite Hlive. cbn. rewrite Hl. cbn. rewrite Hp.
  rewrite !invocations_app, Hinv. cbn. rewrite ?app_nil_r. repeat split; reflexivity.
Qed.

(** Once cancelled, the rest of the callback changes nothing of it. *)
Lemma callback_cancelled_at_input {T : Type} (input : Z -> Outcome T) (options : Options)
    (aborts : Aborts) (n : Z) (r : JsValue) (calls : list Z) (st : Session T) :
  aborts (AwaitInput n) = Some r ->
  pendingAndLive calls st ->
  cancelledWith r (calls ++ [n]) (snd (attemptCallback input options aborts n st)).
Proof.
  intros Habort Hst.
  apply (triple_snd (pendingAndLive calls)); [|exact Hst].
  unfold attemptCallback.
  eapply triple_tryCatch with (R := fun _ => cancelledWith r (calls ++ [n])).
  - eapply triple_bind with (R := fun _ => cancelledWith r (calls ++ [n])).
    + apply (await_cancelled aborts _ (EvInput n) _ r calls Habort).
    + intros value. apply preserves_triple. preserve cancelledWith_leaf.
  - intros error. apply preserves_triple. preserve cancelledWith_leaf.
Qed.


Lemma start_live {T : Type} (options : Options) (sg : AbortSignal) :
  m_signal (defaultedOptions options) = Some sg ->
  aborted sg = false ->
  @start T options
  = {| operation := retry_operation (defaultedOptions options);
       promise := None;
       listener := true;
       signalNow := Some sg;
       trace := [EvAddEventListener] |}.
Proof.
  intros Hsg Hlive. unfold start. rewrite Hsg, Hlive. reflexivity.
Qed.

(** With a live signal and no abort before attempt [k], a session whose
    first [k - 1] attempts are retried comes to attempt [k] pending, with
    the listener in place. *)
Lemma pRetry_comes_to_live {T : Type} (input : Z -> Outcome T) (options : Options)
    (aborts : Aborts) (k : nat) (sg : AbortSignal) :
  m_signal (defaultedOptions options) = Some sg ->
  aborted sg = false ->
  (1 <= k)%nat ->
  (k - 1 <= Z.to_nat (budget options))%nat ->
  (forall j, (1 <= j < k)%nat -> retried input options (Z.of_nat j) = true) ->
  (forall point, attemptOf point < Z.of_nat k -> aborts point = None) ->
  exists (st : Session T) (fuel : nat),
    pRetry input options aborts = attempts input options aborts (S fuel) st
    /\ _attempts (operation st) = Z.of_nat k
    /\ pendingAndLive (upto (k - 1)) st
    /\ List.length (_timeouts (operation st)) = (Z.to_nat (budget options) - (k - 1))%nat.
Proof.
  intros Hsg Hlive Hk Hbudget Hret Hquiet.
  pose proof (length_timeouts options) as HL.
  pose proof (start_live (T := T) options sg Hsg Hlive) as Hstart.
  destruct (attempts_prefix_quiet input options aborts (k - 1)
              (S (List.length (timeouts (defaultedOptions options)) - (k - 1)))
              (start options) 1)
    as (st & tr & Hrun & Hat & Hlen & Hpr & Hlis & Hsig & Htr & Hinv & _ & _).
  - rewrite Hstart. reflexivity.
  - intros j Hj. apply Hret. lia.
  - rewrite Hstart. cbn. rewrite HL. lia.
  - intros point Hpoint. apply Hquiet. lia.
  - lia.
  - rewrite Hstart. constructor.
  - exists st, (List.length (timeouts (defaultedOptions options)) - (k - 1))%nat.
    split; [unfold pRetry; rewrite <- Hrun; f_equal; rewrite HL; lia|].
    split; [rewrite Hat; f_equal; lia|].
    split.
    + unfold pendingAndLive. rewrite Hpr, Hlis, Hsig, Htr, Hstart. cbn.
      repeat split; auto. exists sg. auto.
    + rewrite Hlen, Hstart. cbn. rewrite HL. reflexivity.
Qed.

(** X4 (abort while the operation runs): with a signal that is live at
    the call, an abort that comes while attempt [k] is awaited - the
    attempts before it having been retried undisturbed - rejects the
    promise with the reason of the abort, whatever attempt [k] then
    returns or throws, and the operation is not called again. *)
Theorem abort_during_attempt {T : Type} (input : Z -> Outcome T) (options : Options)
    (aborts : Aborts) (k : nat) (sg : AbortSignal) (r : JsValue) :
  m_signal (defaultedOptions options) = Some sg ->
  aborted sg = false ->
  (1 <= k)%nat ->
  (k - 1 <= Z.to_nat (budget options))%nat ->
  (forall j, (1 <= j < k)%nat -> retried input options (Z.of_nat j) = true) ->
  (forall point, attemptOf point < Z.of_nat k -> aborts point = None) ->
  aborts (AwaitInput (Z.of_nat k)) = Some r ->
  promise (pRetry input options aborts) = Some (Rejected r)
  /\ invocations (trace (pRetry input options aborts)) = upto k
  /\ listener (pRetry input options aborts) = false.
Proof.
  intros Hsg Hlive Hk Hbudget Hret Hquiet Habort.
  destruct (pRetry_comes_to_live input options aborts k sg Hsg Hlive Hk Hbudget Hret Hquiet)
    as (st & fuel & Hrun & Hat & Hst & _).
  rewrite Hrun. simpl attempts. rewrite Hat.
  destruct (callback_cancelled_at_input input options aborts _ r _ st Habort Hst)
    as (Hp & _ & Htm & Hl & Hinv).
  rewrite Htm, Hp, Hl, Hinv, upto_last by exact Hk. auto.
Qed.

Lemma abort_during_attempt_witness :
  promise (pRetry failsTwice liveSignal abortDuringFirst)
  = Some (Rejected (NonError "cancelled"))
  /\ invocations (trace (pRetry failsTwice liveSignal abortDuringFirst)) = upto 1
  /\ listener (pRetry failsTwice liveSignal abortDuringFirst) = false.
Proof.
  apply (abort_during_attempt failsTwice liveSignal abortDuringFirst 1
           {| aborted := false; reason := NonError "undefined" |}).
  - reflexivity.
  - reflexivity.
  - lia.
  - vm_compute. lia.
  - intros j Hj. lia.
  - intros [n|n|n|n] Hn; cbn in Hn; destruct n; try reflexivity; lia.
  - reflexivity.
Defined.

(** X5 (abort between attempts): with a signal that is live at the call,
    an abort that comes while the session waits to retry attempt [k]
    rejects the promise with the reason of the abort, and attempt
    [k + 1] never starts. *)
Theorem abort_before_retry {T : Type} (input : Z -> Outcome T) (options : Options)
    (aborts : Aborts) (k : nat) (sg : AbortSignal) (r : JsValue) :
  m_signal (defaultedOptions options) = Some sg ->
  aborted sg = false ->
  (1 <= k <= Z.to_nat (budget options))%nat ->
  (forall j, (1 <= j <= k)%nat -> retried input options (Z.of_nat j) = true) ->
  (forall point, attemptOf point < Z.of_nat k -> aborts point = None) ->
  aborts (AwaitInput (Z.of_nat k)) = None ->
  aborts (AwaitShouldRetry (Z.of_nat k)) = None ->
  aborts (AwaitOnFailedAttempt (Z.of_nat k)) = None ->
  aborts (AwaitTimer (Z.of_nat k)) = Some r ->
  promise (pRetry input options aborts) = Some (Rejected r)
  /\ invocations (trace (pRetry input options aborts)) = upto k
  /\ listener (pRetry input options aborts) = false.
Proof.
  intros Hsg Hlive Hk Hret Hquiet Hq1 Hq2 Hq3 Habort.
  destruct (pRetry_comes_to_live input options aborts k sg Hsg Hlive)
    as (st & fuel & Hrun & Hat & Hst & Hlen); auto; try lia.
  { intros j Hj. apply Hret. lia. }
  rewrite Hrun. simpl attempts. rewrite Hat.
  rewrite (callback_quiet input options aborts _ Hq1 Hq2 Hq3).
  assert (Hlast : retried input options (Z.of_nat k) = true) by (apply Hret; lia).
  destruct (input (Z.of_nat k)) as [v|error] eqn:Hin.
  { unfold retried in Hlast. rewrite Hin in Hlast. discriminate. }
  destruct (_timeouts (operation st)) as [|d ts] eqn:Hts; [cbn in Hlen; lia|].
  rewrite (callback_retried input options st _ error d ts Hin Hlast Hts).
  cbn [snd operation _timer].
  match goal with |- context [suspend aborts _ ?s] => set (st1 := s) end.
  assert (Hst1 : pendingAndLive (upto (k - 1) ++ [Z.of_nat k]) st1).
  { destruct Hst as (Hp & Hl & Hs & Hinv). unfold pendingAndLive. subst st1.
    cbn [promise listener signalNow trace].
    rewrite invocations_app, invocations_retriedEvents, Hinv. auto. }
  destruct (timer_cancelled aborts _ r _ st1 Habort Hst1) as (Hp & _ & Htm & Hl & Hinv).
  rewrite Htm, Hp, Hl, Hinv, upto_last by lia. auto.
Qed.

Lemma abort_before_retry_witness :
  promise (pRetry failsTwice liveSignal abortBeforeSecond)
  = Some (Rejected (NonError "cancelled"))
  /\ invocations (trace (pRetry failsTwice liveSignal abortBeforeSecond)) = upto 1
  /\ listener (pRetry failsTwice liveSignal abortBeforeSecond) = false.
Proof.
  apply (abort_before_retry failsTwice liveSignal abortBeforeSecond 1
           {| aborted := false; reason := NonError "undefined" |}).
  - reflexivity.
  - reflexivity.
  - vm_compute. lia.
  - intros j Hj. assert (j = 1%nat) as -> by lia. reflexivity.
  - intros [n|n|n|n] Hn; cbn in Hn; destruct n; try reflexivity; lia.
  - reflexivity.
  - reflexivity.
  - reflexivity.
  - reflexivity.
Defined.

(** ** What is left when a session ends *)

Lemma triple_conj {T A : Type} (P1 P2 : Session T -> Prop) (m : M T A)
    (Q1 Q2 : A -> Session T -> Prop) (E1 E2 : JsValue -> Session T -> Prop) :
  triple P1 m Q1 E1 ->
  triple P2 m Q2 E2 ->
  triple (fun st => P1 st /\ P2 st) m
    (fun a st => Q1 a st /\ Q2 a st) (fun thrown st => E1 thrown st /\ E2 thrown st).
Proof.
  intros H1 H2 st [HP1 HP2]. specialize (H1 st HP1). specialize (H2 st HP2).
  destruct (m st) as [[a|thrown] st']; split; assumption.
Qed.

Ltac listenerHasSignal_leaf :=
  apply preserves_modify; unfold listenerHasSignal; intros ? Hinv; cbn in *;
  first [ exact Hinv | reflexivity | discriminate | intros; discriminate | auto ].

Lemma retry_arms {T : Type} (I : Session T -> Prop) (err : JsValue) :
  preserves I (retry err) ->
  triple I (retry err)
    (fun permitted st => if permitted then _timer (operation st) = true /\ I st else I st)
    (fun _ => I).
Proof.
  intros Hpres st HI. specialize (Hpres st HI). revert Hpres. run_updates.
  unfold operation_retry. destruct (_timeouts (operation st)); cbn; auto.
Qed.

Lemma evaluate_returns_with_timer {T : Type} (options : Options) (aborts : Aborts)
    (error : JsValue) (n : Z) :
  triple (@listenerHasSignal T) (evaluate options aborts error n)
    (fun _ st => _timer (operation st) = true /\ listenerHasSignal st)
    (fun _ => listenerHasSignal).
Proof.
  unfold evaluate. cbv zeta.
  do 5 (eapply triple_bind with (R := fun _ => listenerHasSignal);
        [apply preserves_triple; preserve listenerHasSignal_leaf | intros _]).
  eapply triple_bind.
  - apply retry_arms. preserve listenerHasSignal_leaf.
  - intros [|] st H; cbn; exact H.
Qed.

Lemma cleanUp_then_resolve_tornDown {T : Type} (value : T) :
  triple listenerHasSignal (cleanUp ;; resolve value)
    (fun _ => tornDown) (fun _ _ => False).
Proof.
  intros st HK. unfold tornDown, listenerHasSignal in *. run_updates.
  destruct (signalNow st); cbn; auto.
Qed.

Lemma cleanUp_then_reject_tornDown {T : Type} (error : JsValue) :
  triple listenerHasSignal (cleanUp ;; reject error)
    (fun _ => @tornDown T) (fun _ _ => False).
Proof.
  intros st HK. unfold tornDown, listenerHasSignal in *. run_updates.
  destruct (signalNow st); cbn; auto.
Qed.

Lemma callback_tears_down_or_arms {T : Type} (input : Z -> Outcome T) (options : Options)
    (aborts : Aborts) (n : Z) :
  triple (@listenerHasSignal T) (attemptCallback input options aborts n)
    (fun _ st => tornDown st \/ (_timer (operation st) = true /\ listenerHasSignal st))
    (fun _ _ => False).
Proof.
  unfold attemptCallback.
  eapply triple_tryCatch with (R := fun _ => listenerHasSignal).
  - eapply triple_bind with (R := fun _ => listenerHasSignal).
    + apply preserves_triple. preserve listenerHasSignal_leaf.
    + intros value.
      eapply triple_weaken; [apply cleanUp_then_resolve_tornDown| | |];
        cbn; auto; contradiction.
  - intros error.
    eapply triple_tryCatch with (R := fun _ => listenerHasSignal).
    + eapply triple_weaken; [apply evaluate_returns_with_timer| | |]; cbn; eauto.
    + intros finalError. cbv zeta.
      eapply triple_weaken; [apply cleanUp_then_reject_tornDown| | |];
        cbn; auto.
Qed.

(** While the session waits for the timer, either nothing of it changes
    or [abortHandler], with its listener gone, stops the scheduler. *)
Lemma timer_tears_down_or_stays {T : Type} (aborts : Aborts) (point : SuspensionPoint) :
  triple (fun st : Session T => _timer (operation st) = true /\ listenerHasSignal st)
    (suspend aborts point)
    (fun _ st => tornDown st \/ (_timer (operation st) = true /\ listenerHasSignal st))
    (fun _ _ => False).
Proof.
  intros st [Htimer HK]. unfold suspend.
  destruct (aborts point) as [r|]; [|right; split; assumption].
  unfold tornDown, listenerHasSignal in *. run_updates.
  destruct (signalNow st) as [sg|] eqn:Hsg; cbn; [|right; split; auto].
  destruct (aborted sg); cbn; [right; split; [assumption|congruence]|].
  destruct (listener st) eqn:Hl; cbn; [left; auto|].
  right. split; [assumption|intros; discriminate].
Qed.

Lemma attempts_tear_down {T : Type} (input : Z -> Outcome T) (options : Options)
    (aborts : Aborts) :
  forall (fuel : nat) (st : Session T),
    (List.length (_timeouts (operation st)) < fuel)%nat ->
    listenerHasSignal st ->
    tornDown (attempts input options aborts fuel st).
Proof.
  induction fuel as [|fuel IH]; intros st Hlen HK; [lia|].
  simpl attempts.
  set (n := _attempts (operation st)).
  pose proof (triple_conj _ _ _ _ _ _ _
                (callback_settles_or_arms input options aborts n
                   (List.length (_timeouts (operation st))))
                (callback_tears_down_or_arms input options aborts n)
                st (conj (Nat.le_refl _) HK)) as H1.
  destruct (attemptCallback input options aborts n st) as [[[]|thrown] st1];
    [|destruct H1; contradiction].
  simpl snd. destruct H1 as [Harm Hdown].
  destruct (_timer (operation st1)) eqn:Htimer.
  - destruct Hdown as [(_ & _ & Hoff)|[_ HK1]]; [congruence|].
    destruct Harm as [[_ Hoff]|Harmed]; [congruence|].
    pose proof (triple_conj _ _ _ _ _ _ _
                  (timer_settles_or_stays_armed aborts (AwaitTimer n) _)
                  (timer_tears_down_or_stays aborts (AwaitTimer n))
                  st1 (conj Harmed (conj Htimer HK1))) as H2.
    destruct (suspend aborts (AwaitTimer n) st1) as [[[]|thrown] st2];
      [|destruct H2; contradiction].
    simpl snd. destruct H2 as [Harm2 Hdown2].
    destruct (_timer (operation st2)) eqn:Htimer2.
    + destruct Hdown2 as [(_ & _ & Hoff)|[_ HK2]]; [congruence|].
      destruct Harm2 as [[_ Hoff]|[_ Hless]]; [congruence|].
      apply IH; [cbn; lia|exact HK2].
    + destruct Hdown2 as [Hd|[Hon _]]; [exact Hd|congruence].
  - destruct Hdown as [Hd|[Hon _]]; [exact Hd|congruence].
Qed.

(** X6 (nothing left behind): every session, however it ends - resolved,
    rejected or cancelled - ends with the abort listener off the signal,
    no timer armed and the scheduler stopped. *)
Theorem session_ends_torn_down {T : Type} (input : Z -> Outcome T) (options : Options)
    (aborts : Aborts) :
  listener (pRetry input options aborts) = false
  /\ _timer (operation (pRetry input options aborts)) = false
  /\ _timeouts (operation (pRetry input options aborts)) = [].
Proof.
  destruct (attempts_tear_down input options aborts
              (S (List.length (timeouts (defaultedOptions options))))
              (start options)) as (Hl & Hts & Htm).
  - unfold start. destruct (m_signal (defaultedOptions options)) as [sg|];
      [destruct (aborted sg)|]; cbn; lia.
  - unfold start, listenerHasSignal.
    destruct (m_signal (defaultedOptions options)) as [sg|];
      [destruct (aborted sg)|]; cbn; auto; discriminate.
  - unfold pRetry. auto.
Qed.

(** ** How many attempts a session makes *)

Lemma records_app {T : Type} (a b : list (Event T)) :
  records (a ++ b) = records a ++ records b.
Proof.
  induction a as [|ev a IH]; cbn; [reflexivity|].
  destruct ev; cbn; rewrite IH; reflexivity.
Qed.

Lemma retry_bounded {T : Type} (retries : Z) (L : nat) (calls : list Z) (a : nat)
    (err : JsValue) :
  preserves (@bounded T retries L calls a) (retry err).
Proof.
  intros st (Hinv & Hat & Hpos & Hlen & Hrec). unfold bounded. run_updates.
  unfold operation_retry.
  destruct (_timeouts (operation st)) as [|d ts]; cbn in *; repeat split; auto.
  destruct (_timer (operation st)); lia.
Qed.

Lemma stop_bounded {T : Type} (retries : Z) (L : nat) (calls : list Z) (a : nat) :
  preserves (@bounded T retries L calls a) stop.
Proof.
  intros st (Hinv & Hat & Hpos & Hlen & Hrec). unfold bounded. run_updates.
  repeat split; auto. lia.
Qed.

Ltac bounded_leaf :=
  first [ apply retry_bounded
        | apply stop_bounded
        | apply preserves_modify; unfold bounded;
          intros ? (Hinv & Hat & Hpos & Hlen & Hrec); cbn;
          rewrite ?invocations_app, ?records_app; cbn; rewrite ?app_nil_r;
          repeat split; auto;
          solve [ apply Forall_app; split;
                  [ exact Hrec
                  | constructor;
                    [ unfold recordWithin, budget; cbn; split; [lia|reflexivity]
                    | constructor ] ] ] ].

Lemma callback_bounded {T : Type} (input : Z -> Outcome T) (options : Options)
    (aborts : Aborts) (L : nat) (a : nat) :
  triple (@bounded T (budget options) L (upto (a - 1)) a)
    (attemptCallback input options aborts (Z.of_nat a))
    (fun _ => bounded (budget options) L (upto a) a)
    (fun _ => bounded (budget options) L (upto a) a).
Proof.
  unfold attemptCallback.
  eapply triple_tryCatch with (R := fun _ => bounded (budget options) L (upto a) a).
  - eapply triple_bind with (R := fun _ => bounded (budget options) L (upto a) a).
    + unfold await.
      eapply triple_bind with (R := fun _ => bounded (budget options) L (upto a) a).
      * apply triple_modify. intros st (Hinv & Hat & Hpos & Hlen & Hrec).
        unfold bounded. cbn.
        rewrite invocations_app, records_app, Hinv. cbn.
        rewrite app_nil_r, upto_last by exact Hpos. auto.
      * intros _. apply preserves_triple. preserve bounded_leaf.
    + intros value. apply preserves_triple. preserve bounded_leaf.
  - intros error. apply preserves_triple. preserve bounded_leaf.
Qed.

Lemma suspend_bounded {T : Type} (aborts : Aborts) (point : SuspensionPoint)
    (retries : Z) (L : nat) (calls : list Z) (a : nat) :
  preserves (@bounded T retries L calls a) (suspend aborts point).
Proof.
  preserve bounded_leaf.
Qed.

Lemma recordWithin_more (retries : Z) (a b : nat) (faes : list FailedAttemptError) :
  (a <= b)%nat -> Forall (recordWithin retries a) faes -> Forall (recordWithin retries b) faes.
Proof.
  intros Hab. apply Forall_impl. intros fae [Hn Hr]. split; [lia|exact Hr].
Qed.

Lemma attempts_bounded {T : Type} (input : Z -> Outcome T) (options : Options)
    (aborts : Aborts) (L : nat) :
  forall (fuel : nat) (st : Session T) (a : nat),
    bounded (budget options) L (upto (a - 1)) a st ->
    exists m : nat,
      (a <= m <= S L)%nat
      /\ invocations (trace (attempts input options aborts (S fuel) st)) = upto m
      /\ Forall (recordWithin (budget options) (S L))
           (records (trace (attempts input options aborts (S fuel) st))).
Proof.
  induction fuel as [|fuel IH]; intros st a Hst;
    pose proof Hst as (_ & Hat & Hpos & _ & _);
    simpl attempts; rewrite Hat;
    pose proof (triple_snd _ _ _ st (callback_bounded input options aborts L a) Hst) as H1;
    set (st1 := snd (attemptCallback input options aborts (Z.of_nat a) st)) in *;
    assert (Hend : forall st' : Session T,
              bounded (budget options) L (upto a) a st' ->
              exists m : nat,
                (a <= m <= S L)%nat
                /\ invocations (trace st') = upto m
                /\ Forall (recordWithin (budget options) (S L)) (records (trace st')))
      by (intros st' (Hinv' & _ & _ & Hlen' & Hrec'); exists a;
          split; [lia|]; split; [exact Hinv'|];
          apply (recordWithin_more _ a); [lia|exact Hrec']);
    (destruct (_timer (operation st1)) eqn:Htimer; [|apply Hend; exact H1]);
    pose proof (preserves_snd _ _ st1
                  (suspend_bounded aborts (AwaitTimer (Z.of_nat a)) _ L _ a) H1) as H2;
    set (st2 := snd (suspend aborts (AwaitTimer (Z.of_nat a)) st1)) in *;
    (destruct (_timer (operation st2)) eqn:Htimer2; [|apply Hend; exact H2]);
    assert (Hnext : bounded (budget options) L (upto (S a - 1)) (S a)
                      (snd (withOperation operation_fire st2)))
      by (destruct H2 as (Hinv2 & Hat2 & _ & Hlen2 & Hrec2); unfold bounded; cbn;
          rewrite Htimer2 in Hlen2; rewrite Nat.sub_0_r, Hat2;
          repeat split; auto; try lia;
          apply (recordWithin_more _ a); [lia|exact Hrec2]).
  - cbn [attempts]. destruct Hnext as (Hinv3 & _ & _ & Hlen3 & Hrec3).
    exists a. cbn [Nat.sub] in Hinv3. rewrite Nat.sub_0_r in Hinv3.
    split; [lia|]. split; [exact Hinv3|].
    apply (recordWithin_more _ (S a)); [lia|exact Hrec3].
  - destruct (IH _ (S a) Hnext) as (m & Hm & Hinv & Hrec).
    exists m. split; [lia|]. split; assumption.
Qed.

Lemma start_bounded {T : Type} (options : Options) :
  bounded (budget options) (Z.to_nat (budget options)) (upto (1 - 1)) 1 (@start T options).
Proof.
  pose proof (length_timeouts options) as HL.
  unfold start, bounded.
  destruct (m_signal (defaultedOptions options)) as [sg|]; [destruct (aborted sg)|];
    cbn; rewrite HL; repeat split; auto; lia.
Qed.

(** X7 (the attempts of a session): whatever the operation, the
    callbacks and the signal do, the operation is called for the
    attempts 1, 2, ..., m in this order, once each, where m is at least
    1 and at most max(retries, 0) + 1, retries being the budget the
    code works with (the configured one, by [budget_configured]). *)
Theorem attempts_within_budget {T : Type} (input : Z -> Outcome T) (options : Options)
    (aborts : Aborts) :
  exists m : nat,
    (1 <= m <= S (Z.to_nat (budget options)))%nat
    /\ invocations (trace (pRetry input options aborts)) = upto m.
Proof.
  destruct (attempts_bounded input options aborts (Z.to_nat (budget options))
              (List.length (timeouts (defaultedOptions options))) (start options) 1
              (start_bounded options)) as (m & Hm & Hinv & _).
  exists m. split; [exact Hm|exact Hinv].
Qed.

(** X8 (the range of the counts): every record handed to shouldRetry or
    onFailedAttempt has an attemptNumber between 1 and
    max(retries, 0) + 1 and a retriesLeft between min(retries, 0) and
    retries: with a budget that is not negative, retriesLeft is never
    negative. *)
Theorem records_within_budget {T : Type} (input : Z -> Outcome T) (options : Options)
    (aborts : Aborts) :
  Forall (fun fae =>
            1 <= attemptNumber fae <= Z.of_nat (S (Z.to_nat (budget options)))
            /\ Z.min (budget options) 0 <= retriesLeft fae <= budget options)
    (records (trace (pRetry input options aborts))).
Proof.
  destruct (attempts_bounded input options aborts (Z.to_nat (budget options))
              (List.length (timeouts (defaultedOptions options))) (start options) 1
              (start_bounded options)) as (m & _ & _ & Hrec).
  unfold pRetry. eapply Forall_impl; [|exact Hrec].
  intros fae [Hn Hr]. split; [exact Hn|]. rewrite Hr. lia.
Qed.

(** ** No attempt after the promise is settled *)

Lemma called_app {T : Type} (a b : list (Event T)) :
  called (a ++ b) = called a || called b.
Proof.
  unfold called, callsResolve, callsReject. rewrite !existsb_app.
  destruct (existsb isResolve a), (existsb isResolve b), (existsb isReject a),
    (existsb isReject b); reflexivity.
Qed.

Lemma quietOnceSettled_app {T : Type} (a b : list (Event T)) :
  forall settled : bool,
    quietOnceSettled settled (a ++ b)
    = quietOnceSettled settled a && quietOnceSettled (settled || called a) b.
Proof.
  induction a as [|ev a IH]; intros settled; cbn.
  - rewrite orb_false_r. reflexivity.
  - destruct ev; cbn; rewrite IH; unfold called; cbn;
      rewrite ?orb_true_r, ?orb_true_l, ?andb_assoc; reflexivity.
Qed.

Lemma cleanUp_then_resolve_stoppedOnceCalled {T : Type} (value : T) :
  preserves stoppedOnceCalled (cleanUp ;; resolve value).
Proof.
  intros st [Hq Hs]. unfold stoppedOnceCalled. run_updates.
  destruct (signalNow st); cbn; rewrite quietOnceSettled_app, Hq; cbn; auto.
Qed.

Lemma cleanUp_then_reject_stoppedOnceCalled {T : Type} (error : JsValue) :
  preserves (@stoppedOnceCalled T) (cleanUp ;; reject error).
Proof.
  intros st [Hq Hs]. unfold stoppedOnceCalled. run_updates.
  destruct (signalNow st); cbn; rewrite quietOnceSettled_app, Hq; cbn; auto.
Qed.

Lemma stop_then_reject_stoppedOnceCalled {T : Type} (error : JsValue) :
  preserves (@stoppedOnceCalled T) (stop ;; reject error).
Proof.
  intros st [Hq Hs]. unfold stoppedOnceCalled. run_updates.
  rewrite quietOnceSettled_app, Hq; cbn; auto.
Qed.

Lemma abortHandler_stoppedOnceCalled {T : Type} :
  preserves (@stoppedOnceCalled T) (stop ;; (r <- signalReason ;; reject r)).
Proof.
  intros st [Hq Hs]. unfold stoppedOnceCalled. run_updates.
  rewrite quietOnceSettled_app, Hq; cbn; auto.
Qed.

Lemma retry_stoppedOnceCalled {T : Type} (err : JsValue) :
  preserves (@stoppedOnceCalled T) (retry err).
Proof.
  intros st [Hq Hs]. unfold stoppedOnceCalled. run_updates. unfold operation_retry.
  destruct (_timeouts (operation st)) as [|d ts] eqn:Hts; cbn.
  - split; [exact Hq|]. intros Hc. destruct (Hs Hc) as [_ Htm]. auto.
  - split; [exact Hq|]. intros Hc. destruct (Hs Hc) as [Hnil _]. discriminate.
Qed.

Ltac stoppedOnceCalled_leaf :=
  first [ apply cleanUp_then_resolve_stoppedOnceCalled
        | apply cleanUp_then_reject_stoppedOnceCalled
        | apply stop_then_reject_stoppedOnceCalled
        | apply abortHandler_stoppedOnceCalled
        | apply retry_stoppedOnceCalled
        | apply preserves_modify; unfold stoppedOnceCalled; intros ? [Hq Hs]; cbn;
          rewrite ?quietOnceSettled_app, ?called_app, ?Hq; cbn;
          rewrite ?orb_false_r; auto ].

Lemma callback_stoppedOnceCalled {T : Type} (input : Z -> Outcome T) (options : Options)
    (aborts : Aborts) (n : Z) :
  triple (fun st : Session T => called (trace st) = false /\ stoppedOnceCalled st)
    (attemptCallback input options aborts n)
    (fun _ => stoppedOnceCalled) (fun _ => stoppedOnceCalled).
Proof.
  unfold attemptCallback.
  eapply triple_tryCatch with (R := fun _ => stoppedOnceCalled).
  - eapply triple_bind with (R := fun _ => stoppedOnceCalled).
    + unfold await.
      eapply triple_bind with (R := fun _ => stoppedOnceCalled).
      * apply triple_modify. intros st [Hno [Hq Hs]]. unfold stoppedOnceCalled. cbn.
        rewrite quietOnceSettled_app, called_app, Hq, Hno. cbn.
        split; [reflexivity|]. intros; discriminate.
      * intros _. apply preserves_triple. preserve stoppedOnceCalled_leaf.
    + intros value. apply preserves_triple. preserve stoppedOnceCalled_leaf.
  - intros error. apply preserves_triple. preserve stoppedOnceCalled_leaf.
Qed.

Lemma suspend_stoppedOnceCalled {T : Type} (aborts : Aborts) (point : SuspensionPoint) :
  preserves (@stoppedOnceCalled T) (suspend aborts point).
Proof.
  preserve stoppedOnceCalled_leaf.
Qed.

Lemma armed_not_called {T : Type} (st : Session T) :
  stoppedOnceCalled st -> _timer (operation st) = true -> called (trace st) = false.
Proof.
  intros [_ Hs] Htimer. destruct (called (trace st)); [|reflexivity].
  destruct (Hs eq_refl) as [_ Hoff]. congruence.
Qed.

Lemma attempts_stoppedOnceCalled {T : Type} (input : Z -> Outcome T) (options : Options)
    (aborts : Aborts) :
  forall (fuel : nat) (st : Session T),
    called (trace st) = false -> stoppedOnceCalled st ->
    stoppedOnceCalled (attempts input options aborts fuel st).
Proof.
  induction fuel as [|fuel IH]; intros st Hno Hst; [exact Hst|].
  simpl attempts.
  set (n := _attempts (operation st)).
  pose proof (triple_snd _ _ _ st (callback_stoppedOnceCalled input options aborts n)
                (conj Hno Hst)) as H1.
  set (st1 := snd (attemptCallback input options aborts n st)) in *.
  destruct (_timer (operation st1)) eqn:Htimer; [|exact H1].
  pose proof (preserves_snd _ _ st1 (suspend_stoppedOnceCalled aborts (AwaitTimer n)) H1)
    as H2.
  set (st2 := snd (suspend aborts (AwaitTimer n) st1)) in *.
  destruct (_timer (operation st2)) eqn:Htimer2; [|exact H2].
  pose proof (armed_not_called st2 H2 Htimer2) as Hno2.
  apply IH; [exact Hno2|].
  destruct H2 as [Hq Hs]. split; [exact Hq|]. cbn [trace withOperation modify snd].
  intros Hc. change (called (trace st2) = true) in Hc. congruence.
Qed.

(** X9 (no attempt once settled): in every session, once resolve or
    reject has been called - by a success, a veto, a fatal error or the
    abort handler - the operation is not called again. *)
Theorem no_attempt_once_settled {T : Type} (input : Z -> Outcome T) (options : Options)
    (aborts : Aborts) :
  quietOnceSettled false (trace (pRetry input options aborts)) = true.
Proof.
  unfold pRetry. apply attempts_stoppedOnceCalled.
  - unfold start. destruct (m_signal (defaultedOptions options)) as [sg|];
      [destruct (aborted sg)|]; reflexivity.
  - unfold start, stoppedOnceCalled.
    destruct (m_signal (defaultedOptions options)) as [sg|];
      [destruct (aborted sg)|]; cbn; split; auto; discriminate.
Qed.

(** ** Where the value of the promise comes from *)

Lemma callsResolve_In {T : Type} (events : list (Event T)) (v : T) :
  In (EvResolve v) events -> callsResolve events = true.
Proof.
  intros Hin. unfold callsResolve. apply existsb_exists.
  exists (EvResolve v). split; [exact Hin|reflexivity].
Qed.

Lemma firstCall_In {T : Type} (events : list (Event T)) (s : Settlement T) :
  firstCall events = Some s ->
  match s with
  | Resolved v => In (EvResolve v) events
  | Rejected e => In (EvReject e) events
  end.
Proof.
  induction events as [|ev rest IH]; cbn; [discriminate|].
  destruct ev; cbn; intros H;
    try (specialize (IH H); destruct s; right; exact IH);
    injection H as <-; left; reflexivity.
Qed.

Lemma last_cons_default {A : Type} (l : list A) :
  forall x d : A, List.last (x :: l) d = List.last l x.
Proof.
  induction l as [|y l IH]; intros x d; [reflexivity|].
  change (List.last (x :: y :: l) d) with (List.last (y :: l) d).
  rewrite (IH y d), (IH y x). reflexivity.
Qed.

Lemma lastInput_upto {T : Type} (events : list (Event T)) :
  forall (current : Z) (m : nat),
    invocations events = upto m -> (1 <= m)%nat -> lastInput events current = Z.of_nat m.
Proof.
  assert (Hlast : forall (current : Z),
            lastInput events current = List.last (invocations events) current).
  { induction events as [|ev rest IH]; intros current; [reflexivity|].
    destruct ev; cbn [lastInput invocations]; rewrite IH; try reflexivity.
    symmetry. apply last_cons_default. }
  intros current m Hinv Hm. rewrite Hlast, Hinv.
  destruct m as [|m]; [lia|]. rewrite upto_succ. apply last_last.
Qed.

Ltac unresolvedIn_leaf :=
  apply preserves_modify; unfold unresolvedIn, callsResolve;
  intros ? [Hres Hlast]; cbn;
  rewrite ?existsb_app, ?lastInput_app, ?Hres, ?Hlast; cbn; auto.

Ltac resolvedFromLast_leaf :=
  apply preserves_modify; unfold resolvedFromLast; intros ? Hinv; cbn;
  rewrite ?lastInput_app; cbn;
  first [ exact Hinv
        | intros v Hin; apply Hinv; apply in_app_or in Hin;
          destruct Hin as [Hin|[Hin|[]]]; [exact Hin|discriminate] ].

Lemma callback_resolvedFromLast {T : Type} (input : Z -> Outcome T) (options : Options)
    (aborts : Aborts) (n : Z) :
  triple (fun st : Session T => callsResolve (trace st) = false)
    (attemptCallback input options aborts n)
    (fun _ => resolvedFromLast input) (fun _ => resolvedFromLast input).
Proof.
  assert (Hweak : forall st : Session T, unresolvedIn n st -> resolvedFromLast input st).
  { intros st [Hres _] v Hin. rewrite (callsResolve_In _ _ Hin) in Hres. discriminate. }
  unfold attemptCallback.
  eapply triple_tryCatch with (R := fun _ => unresolvedIn n).
  - eapply triple_bind
      with (R := fun value st => input n = Returns value /\ unresolvedIn n st).
    + unfold await.
      eapply triple_bind with (R := fun _ => unresolvedIn n).
      * apply triple_modify. intros st Hres. unfold unresolvedIn, callsResolve in *. cbn.
        rewrite existsb_app, lastInput_app, Hres. cbn. auto.
      * intros _.
        eapply triple_bind with (R := fun _ => unresolvedIn n).
        -- apply preserves_triple. preserve unresolvedIn_leaf.
        -- intros _. destruct (input n) as [value|thrown]; intros st Hst; cbn; auto.
    + intros value st [Hin [Hres Hlast]]. run_updates.
      assert (Hgoal : forall st' : Session T,
                trace st' = trace st ++ [EvResolve value] -> resolvedFromLast input st').
      { intros st' Htr v Hv. rewrite Htr in *. rewrite lastInput_app. cbn.
        rewrite Hlast. apply in_app_or in Hv. destruct Hv as [Hv|[Hv|[]]].
        - rewrite (callsResolve_In _ _ Hv) in Hres. discriminate.
        - injection Hv as <-. exact Hin. }
      destruct (signalNow st); cbn; apply Hgoal; reflexivity.
  - intros error.
    eapply triple_weaken with (P' := unresolvedIn n)
                              (Q' := fun _ => unresolvedIn n)
                              (E' := fun _ => unresolvedIn n);
      [apply preserves_triple; preserve unresolvedIn_leaf | auto | auto | auto].
Qed.

Lemma suspend_resolvedFromLast {T : Type} (input : Z -> Outcome T) (aborts : Aborts)
    (point : SuspensionPoint) :
  preserves (resolvedFromLast input) (suspend aborts point).
Proof.
  preserve resolvedFromLast_leaf.
Qed.

Lemma attempts_resolvedFromLast {T : Type} (input : Z -> Outcome T) (options : Options)
    (aborts : Aborts) :
  forall (fuel : nat) (st : Session T),
    called (trace st) = false -> stoppedOnceCalled st ->
    resolvedFromLast input (attempts input options aborts (S fuel) st).
Proof.
  assert (Hres : forall st : Session T,
            called (trace st) = false -> callsResolve (trace st) = false).
  { intros st H. unfold called in H. apply orb_false_elim in H. apply H. }
  induction fuel as [|fuel IH]; intros st Hno Hst;
    simpl attempts;
    set (n := _attempts (operation st));
    pose proof (triple_snd _ _ _ st (callback_stoppedOnceCalled input options aborts n)
                  (conj Hno Hst)) as H1;
    pose proof (triple_snd _ _ _ st (callback_resolvedFromLast input options aborts n)
                  (Hres st Hno)) as R1;
    set (st1 := snd (attemptCallback input options aborts n st)) in *;
    (destruct (_timer (operation st1)) eqn:Htimer; [|exact R1]);
    pose proof (preserves_snd _ _ st1 (suspend_stoppedOnceCalled aborts (AwaitTimer n)) H1)
      as H2;
    pose proof (preserves_snd _ _ st1
                  (suspend_resolvedFromLast input aborts (AwaitTimer n)) R1) as R2;
    set (st2 := snd (suspend aborts (AwaitTimer n) st1)) in *;
    (destruct (_timer (operation st2)) eqn:Htimer2; [|exact R2]);
    pose proof (armed_not_called st2 H2 Htimer2) as Hno2.
  - cbn [attempts]. exact R2.
  - apply IH; [exact Hno2|].
    destruct H2 as [Hq Hs]. split; [exact Hq|].
    intros Hc. change (called (trace st2) = true) in Hc. congruence.
Qed.

(** X10 (the resolved value): a promise that is resolved is resolved
    with the value that the last call of the operation returned, in
    every session: the operation was called for the attempts 1 .. m and
    attempt m returned the value. *)
Theorem resolved_with_last_result {T : Type} (input : Z -> Outcome T) (options : Options)
    (aborts : Aborts) (v : T) :
  promise (pRetry input options aborts) = Some (Resolved v) ->
  exists m : nat,
    (1 <= m <= S (Z.to_nat (budget options)))%nat
    /\ invocations (trace (pRetry input options aborts)) = upto m
    /\ input (Z.of_nat m) = Returns v.
Proof.
  intros Hpr.
  destruct (attempts_bounded input options aborts (Z.to_nat (budget options))
              (List.length (timeouts (defaultedOptions options))) (start options) 1
              (start_bounded options)) as (m & Hm & Hinv & _).
  fold (pRetry input options aborts) in Hinv.
  exists m. split; [exact Hm|]. split; [exact Hinv|].
  rewrite <- (lastInput_upto (trace (pRetry input options aborts)) 0 m Hinv) by lia.
  rewrite (pRetry_settledByFirstCall input options aborts) in Hpr.
  apply firstCall_In in Hpr.
  revert v Hpr. unfold pRetry. apply attempts_resolvedFromLast.
  - unfold start. destruct (m_signal (defaultedOptions options)) as [sg|];
      [destruct (aborted sg)|]; reflexivity.
  - unfold start, stoppedOnceCalled.
    destruct (m_signal (defaultedOptions options)) as [sg|];
      [destruct (aborted sg)|]; cbn; split; auto; discriminate.
Qed.

Lemma resolved_with_last_result_witness :
  exists m : nat,
    (1 <= m <= S (Z.to_nat (budget noOptions)))%nat
    /\ invocations (trace (pRetry failsTwice noOptions noAbort)) = upto m
    /\ failsTwice (Z.of_nat m) = Returns fixture.
Proof.
  apply (resolved_with_last_result failsTwice noOptions noAbort fixture).
  reflexivity.
Defined.

(** ** Callbacks given as undefined *)

Ltac never_leaf :=
  apply preserves_modify; intros ? Hinv; cbn;
  rewrite ?existsb_app, ?Hinv; reflexivity.

Lemma callback_without_shouldRetry {T : Type} (input : Z -> Outcome T) (options : Options)
    (aborts : Aborts) (n : Z) :
  m_shouldRetry (defaultedOptions options) = None ->
  preserves (fun st : Session T => existsb isShouldRetry (trace st) = false)
    (attemptCallback input options aborts n).
Proof.
  intros Hnone. unfold attemptCallback, evaluate. rewrite Hnone.
  preserve never_leaf.
Qed.

Lemma callback_without_onFailedAttempt {T : Type} (input : Z -> Outcome T)
    (options : Options) (aborts : Aborts) (n : Z) :
  m_onFailedAttempt (defaultedOptions options) = None ->
  preserves (fun st : Session T => existsb isOnFailedAttempt (trace st) = false)
    (attemptCallback input options aborts n).
Proof.
  intros Hnone. unfold attemptCallback, evaluate. rewrite Hnone.
  preserve never_leaf.
Qed.

(** X11 (callbacks given as undefined): an options object that holds
    the key shouldRetry, or onFailedAttempt, with the value undefined
    takes the default away, and no callback is called in its place in
    any session. *)
Theorem undefined_callbacks_are_skipped {T : Type} (input : Z -> Outcome T)
    (options : Options) (aborts : Aborts) :
  (shouldRetry options = Undefined ->
   existsb isShouldRetry (trace (pRetry input options aborts)) = false)
  /\ (onFailedAttempt options = Undefined ->
      existsb isOnFailedAttempt (trace (pRetry input options aborts)) = false).
Proof.
  split; intros Hkey; unfold pRetry.
  - apply (attempts_preserves input options aborts
             (fun st => existsb isShouldRetry (trace st) = false)).
    + intros n. apply callback_without_shouldRetry.
      unfold defaultedOptions. cbn. rewrite Hkey. reflexivity.
    + intros point. preserve never_leaf.
    + never_leaf.
    + unfold start. destruct (m_signal (defaultedOptions options)) as [sg|];
        [destruct (aborted sg)|]; reflexivity.
  - apply (attempts_preserves input options aborts
             (fun st => existsb isOnFailedAttempt (trace st) = false)).
    + intros n. apply callback_without_onFailedAttempt.
      unfold defaultedOptions. cbn. rewrite Hkey. reflexivity.
    + intros point. preserve never_leaf.
    + never_leaf.
    + unfold start. destruct (m_signal (defaultedOptions options)) as [sg|];
        [destruct (aborted sg)|]; reflexivity.
Qed.

Lemma undefined_callbacks_are_skipped_witness :
  existsb isShouldRetry (trace (pRetry alwaysFails callbacksUndefined noAbort)) = false
  /\ existsb isOnFailedAttempt (trace (pRetry alwaysFails callbacksUndefined noAbort))
     = false.
Proof.
  destruct (undefined_callbacks_are_skipped alwaysFails callbacksUndefined noAbort)
    as [Hshould Hobserver].
  split; [apply Hshould|apply Hobserver]; reflexivity.
Defined.

(** ** What a session rejects with *)

(** Walks through a statement as [preserve] does, leaving the
    suspensions to [leaf] as well. *)
Ltac preserve_suspended leaf :=
  cbv beta zeta;
  lazymatch goal with
  | |- preserves _ (bind _ _) =>
      first [ solve [leaf]
            | apply preserves_bind;
              [preserve_suspended leaf | intros ?; preserve_suspended leaf] ]
  | |- preserves _ (tryCatch _ _) =>
      apply preserves_tryCatch;
      [preserve_suspended leaf | intros ?; preserve_suspended leaf]
  | |- preserves _ (ret _) => apply preserves_ret
  | |- preserves _ (throw _) => apply preserves_throw
  | |- preserves _ (gets _) => apply preserves_gets
  | |- preserves _ (suspend _ _) => solve [leaf]
  | |- preserves _ (if ?b then _ else _) => destruct b; preserve_suspended leaf
  | |- preserves _ (match ?x with _ => _ end) => destruct x; preserve_suspended leaf
  | |- preserves _ (evaluate _ _ _ _) => unfold evaluate; preserve_suspended leaf
  | |- preserves _ (await _ _ _ _) => unfold await; preserve_suspended leaf
  | |- preserves _ cleanUp => unfold cleanUp; preserve_suspended leaf
  | |- preserves _ removeEventListener =>
      unfold removeEventListener; preserve_suspended leaf
  | |- preserves _ (retry _) => unfold retry; preserve_suspended leaf
  | |- preserves _ mainError => unfold mainError; preserve_suspended leaf
  | |- preserves _ stop => unfold stop; preserve_suspended leaf
  | |- _ => solve [leaf]
  end.

Lemma suspend_rejectedAs {T : Type} (aborts : Aborts) (point : SuspensionPoint)
    (allowed : JsValue -> Prop) (n : Z) :
  preserves (@rejectedAs T allowed n) (suspend aborts point).
Proof.
  intros st [Hlast Hrej]. unfold suspend.
  destruct (aborts point) as [r|]; [|split; assumption].
  unfold rejectedAs, abortedWith in *. run_updates.
  destruct (signalNow st) as [sg|] eqn:Hsg; cbn; [|rewrite Hsg; auto].
  destruct (aborted sg) eqn:Hlive; cbn; [rewrite Hsg; auto|].
  assert (Hold : forall e, promise st = Some (Rejected e) -> allowed e).
  { intros e He. destruct (Hrej e He) as [Ha|(sg' & Hsg' & Hab & _)]; [exact Ha|].
    congruence. }
  destruct (listener st); cbn.
  - rewrite lastInput_app. cbn. split; [exact Hlast|].
    intros e. destruct (promise st) as [[v|e0]|]; intros He; try discriminate.
    + injection He as <-. left. apply Hold. reflexivity.
    + injection He as <-. right. eauto.
  - split; [exact Hlast|]. intros e He. left. apply Hold. exact He.
Qed.

Lemma reject_rejectedAs {T : Type} (allowed : JsValue -> Prop) (n : Z) (x : JsValue) :
  allowed x -> preserves (@rejectedAs T allowed n) (reject x).
Proof.
  intros Hx st [Hlast Hrej]. unfold rejectedAs, abortedWith in *. run_updates.
  rewrite lastInput_app. cbn. split; [exact Hlast|].
  intros e. destruct (promise st) as [[v|e0]|]; intros He; try discriminate.
  - apply Hrej. exact He.
  - injection He as <-. left. exact Hx.
Qed.

Lemma resolve_rejectedAs {T : Type} (allowed : JsValue -> Prop) (n : Z) (value : T) :
  preserves (rejectedAs allowed n) (resolve value).
Proof.
  intros st [Hlast Hrej]. unfold rejectedAs, abortedWith in *. run_updates.
  rewrite lastInput_app. cbn. split; [exact Hlast|].
  intros e. destruct (promise st) as [[v|e0]|]; intros He; try discriminate.
  apply Hrej. exact He.
Qed.

Lemma rejectedAs_more {T : Type} (allowed allowed' : JsValue -> Prop) (n : Z)
    (st : Session T) :
  (forall e, allowed e -> allowed' e) -> rejectedAs allowed n st -> rejectedAs allowed' n st.
Proof.
  intros Hmore [Hlast Hrej]. split; [exact Hlast|].
  intros e He. destruct (Hrej e He) as [Ha|Hab]; auto.
Qed.

Ltac rejectedAs_leaf :=
  first [ apply suspend_rejectedAs
        | apply resolve_rejectedAs
        | apply reject_rejectedAs;
          first [ right; reflexivity
                | left; eexists; unfold budget; reflexivity ]
        | apply preserves_modify; unfold rejectedAs, abortedWith;
          intros ? [Hlast Hrej]; cbn; rewrite ?lastInput_app; cbn; auto ].


Lemma suspend_returns {T : Type} (aborts : Aborts) (point : SuspensionPoint) :
  triple (fun _ : Session T => True) (suspend aborts point)
    (fun _ _ => True) (fun _ _ => False).
Proof.
  intros st _. unfold suspend. destruct (aborts point) as [r|]; [|exact I].
  run_updates. destruct (signalNow st) as [sg|]; cbn; [|exact I].
  destruct (aborted sg); cbn; [exact I|]. destruct (listener st); exact I.
Qed.

(** A statement that does not throw keeps what it preserves. *)
Lemma preserves_returns {T A : Type} (I : Session T -> Prop) (m : M T A)
    (P : Session T -> Prop) (Q : A -> Session T -> Prop) :
  triple P m Q (fun _ _ => False) ->
  (forall st, I st -> P st) ->
  preserves I m ->
  triple I m (fun _ => I) (fun _ _ => False).
Proof.
  intros Hret HP Hpres.
  eapply triple_weaken; [apply (triple_conj _ _ _ _ _ _ _ Hret Hpres)| | |]; cbn.
  - intros st HI. split; [apply HP; exact HI|exact HI].
  - intros a st [_ HI]. exact HI.
  - intros thrown st [Hfalse _]. exact Hfalse.
Qed.

Lemma callback_rejectionShape {T : Type} (input : Z -> Outcome T) (options : Options)
    (aborts : Aborts) (n : Z) :
  triple (fun st : Session T => promise st = None)
    (attemptCallback input options aborts n)
    (fun _ => rejectionShape input (budget options))
    (fun _ => rejectionShape input (budget options)).
Proof.
  assert (Hshape : forall (allowed : JsValue -> Prop) (st : Session T),
            (forall e, allowed e ->
                       decoratedFor (budget options) n e \/ input n = Throws e) ->
            rejectedAs allowed n st -> rejectionShape input (budget options) st).
  { intros allowed st Hmore [Hlast Hrej]. unfold rejectionShape. rewrite Hlast.
    apply (rejectedAs_more allowed); [exact Hmore|]. split; assumption. }
  unfold attemptCallback.
  eapply triple_tryCatch
    with (R := fun thrown st => input n = Throws thrown
                                /\ rejectedAs (fun _ => False) n st).
  - eapply triple_bind with (R := fun _ => rejectedAs (fun _ => False) n).
    + unfold await.
      eapply triple_bind with (R := fun _ => rejectedAs (fun _ => False) n).
      * apply triple_modify. intros st Hnone. unfold rejectedAs. cbn.
        rewrite lastInput_app, Hnone. cbn. split; [reflexivity|]. discriminate.
      * intros _.
        eapply triple_bind with (R := fun _ => rejectedAs (fun _ => False) n).
        -- eapply triple_weaken;
             [apply (preserves_returns (rejectedAs (fun _ => False) n) _ _ _
                       (suspend_returns aborts _));
              [auto|apply suspend_rejectedAs]| | |]; cbn; auto; contradiction.
        -- intros _. destruct (input n) as [value|thrown]; intros st Hst; cbn; auto.
    + intros value.
      eapply triple_weaken;
        [apply (preserves_returns (rejectedAs (fun _ => False) n) _ _ _
                  (cleanUp_then_resolve (fun _ => True) value));
         [auto|preserve_suspended rejectedAs_leaf]| | |]; cbn; auto;
        try contradiction.
      intros _ st Hst. apply (Hshape (fun _ => False)); [intros e []|exact Hst].
  - intros error st [Hin Hst].
    assert (Hpres : preserves
              (@rejectedAs T
                 (fun e => decoratedFor (budget options) n e \/ e = error) n)
              (tryCatch (evaluate options aborts error n)
                 (fun finalError =>
                    cleanUp ;;
                    reject (asValue (decorateErrorWithCounts finalError n
                                       (defaultedOptions options)))))).
    { preserve_suspended rejectedAs_leaf. }
    specialize (Hpres st (rejectedAs_more _ _ n st (fun e (H : False) => match H with end) Hst)).
    cbv zeta.
    assert (Hmore : forall e, decoratedFor (budget options) n e \/ e = error ->
                              decoratedFor (budget options) n e \/ input n = Throws e).
    { intros e [Hd|He]; [left; exact Hd|right; congruence]. }
    match goal with
    | |- match ?run with _ => _ end =>
        destruct run as [[a|thrown] st']
    end; apply (Hshape _ st' Hmore Hpres).
Qed.

Lemma suspend_rejectionShape {T : Type} (input : Z -> Outcome T) (retries : Z)
    (aborts : Aborts) (point : SuspensionPoint) :
  preserves (rejectionShape input retries) (suspend aborts point).
Proof.
  intros st Hst. unfold rejectionShape in Hst.
  pose proof (suspend_rejectedAs aborts point _ _ st Hst) as H.
  destruct (suspend aborts point st) as [[[]|thrown] st'];
    destruct H as [Hlast Hrej]; unfold rejectionShape; rewrite Hlast;
    split; auto.
Qed.

Lemma firstCall_not_called {T : Type} (events : list (Event T)) :
  called events = false -> firstCall events = None.
Proof.
  unfold called, callsResolve, callsReject.
  induction events as [|ev rest IH]; [reflexivity|].
  destruct ev; cbn; intros H; try discriminate; try (apply IH; exact H).
  rewrite orb_true_r in H. discriminate.
Qed.

Lemma attempts_rejectionShape {T : Type} (input : Z -> Outcome T) (options : Options)
    (aborts : Aborts) :
  forall (fuel : nat) (st : Session T),
    called (trace st) = false -> stoppedOnceCalled st -> settledByFirstCall st ->
    rejectionShape input (budget options) (attempts input options aborts (S fuel) st).
Proof.
  induction fuel as [|fuel IH]; intros st Hno Hst Hfirst;
    assert (Hnone : promise st = None)
      by (rewrite Hfirst; apply firstCall_not_called; exact Hno);
    simpl attempts;
    set (n := _attempts (operation st));
    pose proof (triple_snd _ _ _ st (callback_stoppedOnceCalled input options aborts n)
                  (conj Hno Hst)) as H1;
    pose proof (preserves_snd _ _ st (callback_settledByFirstCall input options aborts n)
                  Hfirst) as F1;
    pose proof (triple_snd _ _ _ st (callback_rejectionShape input options aborts n)
                  Hnone) as R1;
    set (st1 := snd (attemptCallback input options aborts n st)) in *;
    (destruct (_timer (operation st1)) eqn:Htimer; [|exact R1]);
    pose proof (preserves_snd _ _ st1 (suspend_stoppedOnceCalled aborts (AwaitTimer n)) H1)
      as H2;
    pose proof (preserves_snd _ _ st1 (suspend_settledByFirstCall aborts (AwaitTimer n)) F1)
      as F2;
    pose proof (preserves_snd _ _ st1
                  (suspend_rejectionShape input _ aborts (AwaitTimer n)) R1) as R2;
    set (st2 := snd (suspend aborts (AwaitTimer n) st1)) in *;
    (destruct (_timer (operation st2)) eqn:Htimer2; [|exact R2]);
    pose proof (armed_not_called st2 H2 Htimer2) as Hno2.
  - cbn [attempts]. exact R2.
  - apply IH; [exact Hno2| |exact F2].
    destruct H2 as [Hq Hs]. split; [exact Hq|].
    intros Hc. change (called (trace st2) = true) in Hc. congruence.
Qed.

(** X12 (what a promise is rejected with): in every session that ends
    rejected after the attempts 1 .. m, the rejection is a
    FailedAttemptError that carries attemptNumber m and
    retriesLeft = retries - (m - 1), or it is the very error attempt m
    threw (the case of a veto by shouldRetry), or it is the reason of
    the abort of the signal. *)
Theorem rejection_is_classified {T : Type} (input : Z -> Outcome T) (options : Options)
    (aborts : Aborts) (e : JsValue) :
  promise (pRetry input options aborts) = Some (Rejected e) ->
  exists m : nat,
    (1 <= m <= S (Z.to_nat (budget options)))%nat
    /\ invocations (trace (pRetry input options aborts)) = upto m
    /\ (decoratedFor (budget options) (Z.of_nat m) e
        \/ input (Z.of_nat m) = Throws e
        \/ abortedWith (pRetry input options aborts) e).
Proof.
  intros Hpr.
  destruct (attempts_bounded input options aborts (Z.to_nat (budget options))
              (List.length (timeouts (defaultedOptions options))) (start options) 1
              (start_bounded options)) as (m & Hm & Hinv & _).
  fold (pRetry input options aborts) in Hinv.
  exists m. split; [exact Hm|]. split; [exact Hinv|].
  assert (Hshape : rejectionShape input (budget options) (pRetry input options aborts)).
  { unfold pRetry. apply attempts_rejectionShape.
    - unfold start. destruct (m_signal (defaultedOptions options)) as [sg|];
        [destruct (aborted sg)|]; reflexivity.
    - unfold start, stoppedOnceCalled.
      destruct (m_signal (defaultedOptions options)) as [sg|];
        [destruct (aborted sg)|]; cbn; split; auto; discriminate.
    - apply start_settledByFirstCall. }
  destruct Hshape as [_ Hrej].
  rewrite (lastInput_upto _ 0 m Hinv) in Hrej by lia.
  destruct (Hrej e Hpr) as [[Hd|Hraw]|Hab]; auto.
Qed.

Lemma rejection_is_classified_witness :
  exists m : nat,
    (1 <= m <= S (Z.to_nat (budget vetoing)))%nat
    /\ invocations (trace (pRetry alwaysFails vetoing noAbort)) = upto m
    /\ (decoratedFor (budget vetoing) (Z.of_nat m) fixtureError
        \/ alwaysFails (Z.of_nat m) = Throws fixtureError
        \/ abortedWith (pRetry alwaysFails vetoing noAbort) fixtureError).
Proof.
  apply (rejection_is_classified alwaysFails vetoing noAbort fixtureError).
  reflexivity.
Defined.

(** ** The order of the calls within an attempt *)

Lemma stage_app {T : Type} (a b : list (Event T)) :
  forall current : nat,
    stage (a ++ b) current
    = match stage a current with
      | Some p => stage b p
      | None => None
      end.
Proof.
  induction a as [|ev a IH]; intros current; [reflexivity|].
  destruct ev; cbn [app stage]; rewrite ?IH; try reflexivity.
  - destruct (current =? 1)%nat; reflexivity.
  - destruct ((1 <=? current) && (current <=? 2))%nat; reflexivity.
Qed.

Lemma uptoStage_more {T : Type} (b b' : nat) (st : Session T) :
  (b <= b')%nat -> uptoStage b st -> uptoStage b' st.
Proof.
  intros Hb (p & Hp & Hle). exists p. split; [exact Hp|lia].
Qed.

Ltac uptoStage_leaf :=
  apply preserves_modify; unfold uptoStage; intros ? (p & Hp & Hle); cbn;
  rewrite ?stage_app, ?Hp; cbn; exists p; split; [reflexivity|exact Hle].

Lemma await_shouldRetry_stage {T : Type} (aborts : Aborts) (point : SuspensionPoint)
    (fae : FailedAttemptError) (outcome : Outcome bool) :
  triple (@uptoStage T 1) (await aborts point (EvShouldRetry fae) outcome)
    (fun _ => uptoStage 2) (fun _ => uptoStage 2).
Proof.
  unfold await.
  eapply triple_bind with (R := fun _ => uptoStage 2).
  - apply triple_modify. intros st (p & Hp & Hle). unfold uptoStage. cbn.
    rewrite stage_app, Hp. assert (p = 1%nat) as -> by lia. cbn.
    exists 2%nat. split; [reflexivity|lia].
  - intros _. apply preserves_triple. preserve uptoStage_leaf.
Qed.

Lemma await_onFailedAttempt_stage {T : Type} (aborts : Aborts) (point : SuspensionPoint)
    (fae : FailedAttemptError) (outcome : Outcome unit) :
  triple (@uptoStage T 2) (await aborts point (EvOnFailedAttempt fae) outcome)
    (fun _ => uptoStage 3) (fun _ => uptoStage 3).
Proof.
  unfold await.
  eapply triple_bind with (R := fun _ => uptoStage 3).
  - apply triple_modify. intros st (p & Hp & Hle). unfold uptoStage. cbn.
    rewrite stage_app, Hp.
    assert (p = 1%nat \/ p = 2%nat) as [-> | ->] by lia; cbn;
      exists 3%nat; split; try reflexivity; lia.
  - intros _. apply preserves_triple. preserve uptoStage_leaf.
Qed.

Lemma evaluate_stage {T : Type} (options : Options) (aborts : Aborts) (error : JsValue)
    (n : Z) :
  triple (@uptoStage T 1) (evaluate options aborts error n)
    (fun _ => uptoStage 3) (fun _ => uptoStage 3).
Proof.
  assert (Hup : forall (b : nat) (A : Type) (m : M T A),
            (b <= 3)%nat -> preserves (uptoStage b) m ->
            triple (uptoStage b) m (fun _ => uptoStage b) (fun _ => uptoStage 3)).
  { intros b A m Hb Hm.
    eapply triple_weaken; [apply preserves_triple, Hm| | |]; cbn; auto.
    intros _ st. apply uptoStage_more. exact Hb. }
  unfold evaluate. cbv zeta.
  do 3 (eapply triple_bind with (R := fun _ => uptoStage 1);
        [apply Hup; [lia|preserve uptoStage_leaf] | intros _]).
  eapply triple_bind with (R := fun _ => uptoStage 2).
  { destruct (m_shouldRetry (defaultedOptions options)) as [should|].
    - eapply triple_bind with (R := fun _ => uptoStage 2).
      + eapply triple_weaken; [apply await_shouldRetry_stage| | |]; cbn; auto.
        intros _ st. apply uptoStage_more. lia.
      + intros verdict. apply Hup; [lia|]. preserve uptoStage_leaf.
    - apply triple_ret. intros st. apply uptoStage_more. lia. }
  intros _.
  eapply triple_bind with (R := fun _ => uptoStage 3).
  { destruct (m_onFailedAttempt (defaultedOptions options)) as [observer|].
    - apply await_onFailedAttempt_stage.
    - apply triple_ret. intros st. apply uptoStage_more. lia. }
  intros _. apply preserves_triple. preserve uptoStage_leaf.
Qed.

Lemma callback_stage {T : Type} (input : Z -> Outcome T) (options : Options)
    (aborts : Aborts) (n : Z) :
  triple (fun st : Session T => stage (trace st) 0 <> None)
    (attemptCallback input options aborts n)
    (fun _ => uptoStage 3) (fun _ => uptoStage 3).
Proof.
  unfold attemptCallback.
  eapply triple_tryCatch with (R := fun _ => uptoStage 1).
  - eapply triple_bind with (R := fun _ => uptoStage 1).
    + unfold await.
      eapply triple_bind with (R := fun _ => uptoStage 1).
      * apply triple_modify. intros st Hsome. unfold uptoStage. cbn.
        rewrite stage_app. destruct (stage (trace st) 0); [|contradiction].
        cbn. exists 1%nat. split; [reflexivity|lia].
      * intros _. apply preserves_triple. preserve uptoStage_leaf.
    + intros value.
      eapply triple_weaken with (Q' := fun _ => uptoStage 1)
                                (E' := fun _ => uptoStage 1);
        [apply preserves_triple; preserve uptoStage_leaf | auto | |];
        intros _ st; apply uptoStage_more; lia.
  - intros error.
    eapply triple_tryCatch with (R := fun _ => uptoStage 3).
    + apply evaluate_stage.
    + intros finalError. apply preserves_triple. preserve uptoStage_leaf.
Qed.

Lemma attempts_stage {T : Type} (input : Z -> Outcome T) (options : Options)
    (aborts : Aborts) :
  forall (fuel : nat) (st : Session T),
    stage (trace st) 0 <> None ->
    stage (trace (attempts input options aborts fuel st)) 0 <> None.
Proof.
  assert (Hsome : forall st : Session T, uptoStage 3 st -> stage (trace st) 0 <> None).
  { intros st (p & Hp & _). congruence. }
  induction fuel as [|fuel IH]; intros st Hst; [exact Hst|].
  simpl attempts.
  set (n := _attempts (operation st)).
  pose proof (triple_snd _ _ _ st (callback_stage input options aborts n) Hst) as H1.
  set (st1 := snd (attemptCallback input options aborts n st)) in *.
  destruct (_timer (operation st1)); [|apply Hsome; exact H1].
  assert (H2 : uptoStage 3 (snd (suspend aborts (AwaitTimer n) st1))).
  { apply preserves_snd; [|exact H1]. preserve uptoStage_leaf. }
  set (st2 := snd (suspend aborts (AwaitTimer n) st1)) in *.
  destruct (_timer (operation st2)); [|apply Hsome; exact H2].
  apply IH. apply Hsome in H2. exact H2.
Qed.

(** X13 (the order of the calls): in every session and in each of its
    attempts, shouldRetry is called at most once, and only after the
    operation was called; onFailedAttempt is called at most once, after
    shouldRetry when both are called, and never before the operation. *)
Theorem callbacks_in_order {T : Type} (input : Z -> Outcome T) (options : Options)
    (aborts : Aborts) :
  exists p : nat, stage (trace (pRetry input options aborts)) 0 = Some p.
Proof.
  assert (Hsome : stage (trace (pRetry input options aborts)) 0 <> None).
  { unfold pRetry. apply attempts_stage.
    unfold start. destruct (m_signal (defaultedOptions options)) as [sg|];
      [destruct (aborted sg)|]; cbn; discriminate. }
  destruct (stage (trace (pRetry input options aborts)) 0) as [p|];
    [exists p; reflexivity|contradiction].
Qed.


(** ** The failures before a success *)

(** X14 (onFailedAttempt before a success): when the operation succeeds
    on attempt k after k - 1 failures that are retried, onFailedAttempt
    (unless given as undefined) has been called exactly once for each of
    the attempts 1 .. k - 1, in this order, and not for attempt k. *)
Theorem onFailedAttempt_once_per_failure {T : Type} (input : Z -> Outcome T)
    (options : Options) (k : nat) (value : T) :
  (1 <= k)%nat ->
  (k - 1 <= Z.to_nat (budget options))%nat ->
  (forall j, (1 <= j < k)%nat -> retried input options (Z.of_nat j) = true) ->
  input (Z.of_nat k) = Returns value ->
  m_onFailedAttempt (defaultedOptions options) <> None ->
  observations (trace (pRetry input options noAbort)) = upto (k - 1).
Proof.
  intros Hk Hbudget Hret Hin Hsome.
  pose proof (length_timeouts options) as HL.
  assert (Hstart : _attempts (operation (start (T := T) options)) = 1
                   /\ _timeouts (operation (start (T := T) options))
                      = timeouts (defaultedOptions options)
                   /\ _errors (operation (start (T := T) options)) = []
                   /\ observations (trace (start (T := T) options)) = []).
  { unfold start. destruct (m_signal (defaultedOptions options)) as [sg|]; cbn;
      [destruct (aborted sg); cbn|]; repeat split; reflexivity. }
  destruct Hstart as (Hat & Hts & Herrs & Hobs).
  destruct (attempts_prefix_quiet input options noAbort (k - 1)
              (S (List.length (timeouts (defaultedOptions options)) - (k - 1)))
              (start options) 1)
    as (st & tr & Hrun & Hat' & _ & _ & _ & _ & Htr & _ & Hobs' & _).
  - exact Hat.
  - intros j Hj. apply Hret. lia.
  - rewrite Hts, HL. lia.
  - reflexivity.
  - lia.
  - rewrite Herrs. constructor.
  - unfold pRetry.
    replace (S (List.length (timeouts (defaultedOptions options))))
      with (k - 1 + S (List.length (timeouts (defaultedOptions options)) - (k - 1)))%nat
      by (rewrite HL; lia).
    rewrite Hrun. simpl attempts.
    replace (_attempts (operation st)) with (Z.of_nat k) by (rewrite Hat'; f_equal; lia).
    rewrite (callback_success input options st _ value Hin).
    cbn [snd operation operation_stop _timer trace].
    rewrite Htr, !observations_app, Hobs, (Hobs' Hsome). cbn.
    rewrite app_nil_r. reflexivity.
Qed.

Lemma onFailedAttempt_once_per_failure_witness :
  observations (trace (pRetry failsTwice noOptions noAbort)) = upto (3 - 1).
Proof.
  apply (onFailedAttempt_once_per_failure failsTwice noOptions 3 fixture).
  - lia.
  - vm_compute. lia.
  - intros j Hj. assert (j = 1 \/ j = 2)%nat as [-> | ->] by lia; reflexivity.
  - reflexivity.
  - discriminate.
Defined.

(** ** An abort while a callback is awaited *)

(** The three fatal tests let a candidate pass. *)
Ltac pass_fatal_tests Hcand :=
  let Herr := fresh "Herr" in
  let Hab := fresh "Hab" in
  let Hty := fresh "Hty" in
  destruct (candidate_tests _ Hcand) as (Herr & Hab & Hty);
  unfold evaluate; cbv zeta; rewrite Herr, Hty; cbn [negb];
  lazymatch goal with
  | |- triple ?P _ _ _ =>
      eapply triple_bind with (R := fun _ => P);
      [apply triple_ret; intros ? H; exact H|intros _];
      eapply triple_bind with (R := fun _ => P);
      [ match goal with
        | |- triple _ (match ?e with _ => _ end) _ _ =>
            destruct e; try discriminate; apply triple_ret; intros ? H; exact H
        end
      | intros _ ];
      eapply triple_bind with (R := fun _ => P);
      [apply triple_ret; intros ? H; exact H|intros _]
  end.

Lemma evaluate_cancelled_at_shouldRetry {T : Type} (options : Options) (aborts : Aborts)
    (error : JsValue) (n : Z) (r : JsValue) (calls : list Z) :
  candidate error = true ->
  m_shouldRetry (defaultedOptions options) <> None ->
  aborts (AwaitShouldRetry n) = Some r ->
  triple (@pendingAndLive T calls) (evaluate options aborts error n)
    (fun _ => cancelledWith r calls) (fun _ => cancelledWith r calls).
Proof.
  intros Hcand Hsome Habort. pass_fatal_tests Hcand.
  all: destruct (m_shouldRetry (defaultedOptions options)) as [should|];
    [clear Hsome|contradiction].
  all: eapply triple_bind with (R := fun _ => cancelledWith r calls);
    [|intros _; apply preserves_triple; preserve cancelledWith_leaf].
  all: eapply triple_bind with (R := fun _ => cancelledWith r calls);
    [|intros verdict; apply preserves_triple; preserve cancelledWith_leaf].
  all: eapply triple_weaken; [apply (await_cancelled aborts _ _ _ r calls Habort)| | |];
    cbn; auto; intros ? st; rewrite app_nil_r; auto.
Qed.


(** An await of the user's code during which no abort comes. *)
Lemma await_quiet {T A : Type} (aborts : Aborts) (point : SuspensionPoint)
    (call : Event T) (outcome : Outcome A) (calls : list Z) :
  aborts point = None ->
  invocations [call] = [] ->
  triple (pendingAndLive calls) (await aborts point call outcome)
    (fun a st => outcome = Returns a /\ pendingAndLive calls st)
    (fun thrown st => outcome = Throws thrown /\ pendingAndLive calls st).
Proof.
  intros Hquiet Hcall st (Hp & Hl & Hsg & Hinv).
  unfold await, suspend. rewrite Hquiet. unfold pendingAndLive. run_updates.
  destruct outcome; cbn; rewrite invocations_app, Hinv, Hcall, app_nil_r; auto.
Qed.

Lemma evaluate_cancelled_at_onFailedAttempt {T : Type} (options : Options)
    (aborts : Aborts) (error : JsValue) (n : Z) (r : JsValue) (calls : list Z) :
  candidate error = true ->
  approves options (decorateErrorWithCounts error n (defaultedOptions options)) = true ->
  aborts (AwaitShouldRetry n) = None ->
  m_onFailedAttempt (defaultedOptions options) <> None ->
  aborts (AwaitOnFailedAttempt n) = Some r ->
  triple (@pendingAndLive T calls) (evaluate options aborts error n)
    (fun _ => cancelledWith r calls) (fun _ => cancelledWith r calls).
Proof.
  intros Hcand Happ Hquiet Hsome Habort. unfold approves in Happ.
  pass_fatal_tests Hcand.
  all: eapply triple_bind with (R := fun _ => pendingAndLive calls).
  all: try (intros _;
            destruct (m_onFailedAttempt (defaultedOptions options)) as [onFailed|];
            [clear Hsome|contradiction];
            eapply triple_bind with (R := fun _ => cancelledWith r calls);
            [ eapply triple_weaken;
              [apply (await_cancelled aborts _ _ _ r calls Habort)| | |];
              cbn; auto; intros ? st; rewrite app_nil_r; auto
            | intros _; apply preserves_triple; preserve cancelledWith_leaf ]).
  all: destruct (m_shouldRetry (defaultedOptions options)) as [should|];
    [|apply triple_ret; auto].
  all: eapply triple_bind
         with (R := fun verdict st => should (decorateErrorWithCounts error n
                                                (defaultedOptions options))
                                      = Returns verdict
                                      /\ pendingAndLive calls st);
    [ eapply triple_weaken;
      [apply (await_quiet aborts _ (EvShouldRetry _) _ calls Hquiet eq_refl)| | |];
      cbn; auto;
      intros thrown st [Hthrows _]; rewrite Hthrows in Happ; discriminate
    | intros verdict st [Hverdict Hst]; rewrite Hverdict in Happ; subst verdict;
      cbn; exact Hst ].
Qed.

(** X15 (abort while a callback runs): with a signal that is live at the
    call, an abort that comes while shouldRetry, or onFailedAttempt
    after the approval of shouldRetry, is awaited for the failed attempt
    k rejects the promise with the reason of the abort: the callback's
    answer no longer counts, and the operation is not called again. *)
Theorem abort_during_callback {T : Type} (input : Z -> Outcome T) (options : Options)
    (aborts : Aborts) (k : nat) (sg : AbortSignal) (r error : JsValue) :
  m_signal (defaultedOptions options) = Some sg ->
  aborted sg = false ->
  (1 <= k)%nat ->
  (k - 1 <= Z.to_nat (budget options))%nat ->
  (forall j, (1 <= j < k)%nat -> retried input options (Z.of_nat j) = true) ->
  (forall point, attemptOf point < Z.of_nat k -> aborts point = None) ->
  aborts (AwaitInput (Z.of_nat k)) = None ->
  input (Z.of_nat k) = Throws error ->
  candidate error = true ->
  (m_shouldRetry (defaultedOptions options) <> None
   /\ aborts (AwaitShouldRetry (Z.of_nat k)) = Some r)
  \/ (approves options
        (decorateErrorWithCounts error (Z.of_nat k) (defaultedOptions options)) = true
      /\ aborts (AwaitShouldRetry (Z.of_nat k)) = None
      /\ m_onFailedAttempt (defaultedOptions options) <> None
      /\ aborts (AwaitOnFailedAttempt (Z.of_nat k)) = Some r) ->
  promise (pRetry input options aborts) = Some (Rejected r)
  /\ invocations (trace (pRetry input options aborts)) = upto k
  /\ listener (pRetry input options aborts) = false.
Proof.
  intros Hsg Hlive Hk Hbudget Hret Hquiet Hq1 Hin Hcand Hwhere.
  destruct (pRetry_comes_to_live input options aborts k sg Hsg Hlive Hk Hbudget Hret Hquiet)
    as (st & fuel & Hrun & Hat & Hst & _).
  rewrite Hrun. simpl attempts. rewrite Hat.
  assert (Hcb : triple (pendingAndLive (upto (k - 1)))
                  (attemptCallback input options aborts (Z.of_nat k))
                  (fun _ => cancelledWith r (upto k))
                  (fun _ => cancelledWith r (upto k))).
  { unfold attemptCallback.
    eapply triple_tryCatch
      with (R := fun thrown st => thrown = error /\ pendingAndLive (upto k) st).
    - eapply triple_bind
        with (R := fun value st => input (Z.of_nat k) = Returns value).
      + unfold await.
        eapply triple_bind with (R := fun _ => pendingAndLive (upto k)).
        * apply triple_modify. intros s (Hp & Hl & Hs & Hinv). unfold pendingAndLive.
          cbn. rewrite invocations_app, Hinv. cbn. rewrite upto_last by exact Hk. auto.
        * intros _. unfold suspend. rewrite Hq1, Hin.
          intros s Hs. cbn. auto.
      + intros value s Hvalue. rewrite Hin in Hvalue. discriminate.
    - intros thrown s [-> Hs]. revert s Hs.
      eapply triple_tryCatch with (R := fun _ => cancelledWith r (upto k)).
      + destruct Hwhere as [[Hsome Habort]|(Happ & Hq2 & Hsome & Habort)].
        * apply evaluate_cancelled_at_shouldRetry; assumption.
        * apply evaluate_cancelled_at_onFailedAttempt; assumption.
      + intros finalError. apply preserves_triple. preserve cancelledWith_leaf. }
  destruct (triple_snd _ _ _ st Hcb Hst) as (Hp & _ & Htm & Hl & Hinv).
  rewrite Htm, Hp, Hl, Hinv. auto.
Qed.

Lemma abort_during_callback_witness :
  promise (pRetry alwaysFails liveSignal abortDuringObserver)
  = Some (Rejected (NonError "cancelled"))
  /\ invocations (trace (pRetry alwaysFails liveSignal abortDuringObserver)) = upto 1
  /\ listener (pRetry alwaysFails liveSignal abortDuringObserver) = false.
Proof.
  apply (abort_during_callback alwaysFails liveSignal abortDuringObserver 1
           {| aborted := false; reason := NonError "undefined" |}
           (NonError "cancelled") fixtureError).
  - reflexivity.
  - reflexivity.
  - lia.
  - vm_compute. lia.
  - intros j Hj. lia.
  - intros [n|n|n|n] Hn; cbn in Hn; destruct n; try reflexivity; lia.
  - reflexivity.
  - reflexivity.
  - reflexivity.
  - right. repeat split; try reflexivity; discriminate.
Defined.
